(** * miruken/context: the Context lifecycle, tree and callback dispatch

    A shallow embedding of [src/context.js].  Every [Context] object lives in
    a store indexed by its identity; the closure variables of the constructor
    ([_state], [_parent], [_children], [_observers]) are the fields of the
    stored record, and the methods are state-passing functions that may
    throw.  Methods that call each other through the tree ([end] and
    [unwind], [handle] and [handleCallback]) recurse on a bound, and the
    statements say which bound suffices.

    What comes from miruken-core and miruken-callback is a parameter: the
    inherited [handleCallback] of [CompositeHandler], the order of
    [traverse], and what the observers do when notified. *)

From stdpp Require Import base option list strings.

(** ** Data *)

(** [ContextState = Enum({ Active: 1, Ending: 2, Ended: 3 })]. *)
Inductive ContextState := Active | Ending | Ended.

#[global] Instance ContextState_eq_dec : EqDecision ContextState.
Proof. solve_decision. Defined.

(** The value of the enum item, 1, 2 or 3, which orders the items as their
    [ordinal] does (the ordinal is one less). *)
Definition ordinal (s : ContextState) : nat :=
  match s with Active => 1 | Ending => 2 | Ended => 3 end.

(** The items of [TraversingAxis] (miruken-core). *)
Inductive TraversingAxis :=
  | Self | Root | Child | Sibling | Ancestor | Descendant | DescendantReverse
  | SelfOrChild | SelfOrSibling | SelfOrAncestor | SelfOrDescendant
  | SelfOrDescendantReverse | SelfSiblingOrAncestor.

#[global] Instance TraversingAxis_eq_dec : EqDecision TraversingAxis.
Proof. solve_decision. Defined.

(** Object identities: a context is named by its position in the store, an
    observer and a callback by an opaque number. *)
Abbreviation ContextId := nat (only parsing).
Abbreviation Observer := nat (only parsing).
Abbreviation Callback := nat (only parsing).

(** A JavaScript value as far as [$isSomething] / [$isNothing] see it. *)
Inductive JsValue := undefined | null | object (n : nat).

Definition isNothing (v : JsValue) : bool :=
  match v with object _ => false | _ => true end.
Definition isSomething (v : JsValue) : bool := negb (isNothing v).

(** The four methods of the [ContextObserver] protocol with their argument. *)
Inductive Notification :=
  | contextEnding (context : ContextId)
  | contextEnded (context : ContextId)
  | childContextEnding (childContext : ContextId)
  | childContextEnded (childContext : ContextId).

#[global] Instance Notification_eq_dec : EqDecision Notification.
Proof. solve_decision. Defined.

(** The function returned by [observe(observer)]: it closes over the
    [_observers] variable of the context it was created on and over
    [observer]. *)
Record Unsubscribe := { sub_context : ContextId; sub_observer : Observer }.

(** The closure variables of one [Context] instance.  [_observers] is
    [undefined] until the first [observe] and [null] after [end]; both are
    [None].  [_axis] is the [this[Axis]] property, absent when [None].
    [_extended] says that the instance came out of [newChild], which
    extends it with the overriding [end]. *)
Record Context := {
  _state : ContextState;
  _parent : option ContextId;
  _children : list ContextId;
  _observers : option (list Observer);
  _axis : option TraversingAxis;
  _extended : bool
}.

(** What a run leaves behind for an outside eye, in program order: the
    calls of the methods of observers, the assignments to [_state] with
    the value they replace, and the calls of the inherited handler. *)
Inductive Event :=
  | Notified (o : Observer) (n : Notification)
  | StateSet (c : ContextId) (from to : ContextState)
  | BaseHandled (c : ContextId) (callback : Callback) (greedy : bool).

#[global] Instance Event_eq_dec : EqDecision Event.
Proof. solve_decision. Defined.

Record World := {
  heap : list Context;
  provided : list (ContextId * JsValue);
  trace : list Event
}.

Inductive Exception :=
  | Error (message : string)
  | TypeError (message : string).

(** ** Computations: state passing, with exceptions and a recursion bound *)

Inductive Outcome (A : Type) :=
  | Returned (a : A)
  | Thrown (e : Exception)
  | OutOfFuel.
Arguments Returned {A} a.
Arguments Thrown {A} e.
Arguments OutOfFuel {A}.

Definition M (A : Type) : Type := World → World * Outcome A.

Definition ret {A} (a : A) : M A := λ w, (w, Returned a).
Definition throw {A} (e : Exception) : M A := λ w, (w, Thrown e).
Definition diverge {A} : M A := λ w, (w, OutOfFuel).

Definition bind {A B} (m : M A) (k : A → M B) : M B :=
  λ w, match m w with
       | (w', Returned a) => k a w'
       | (w', Thrown e) => (w', Thrown e)
       | (w', OutOfFuel) => (w', OutOfFuel)
       end.

#[global] Instance M_ret : MRet M := @ret.
#[global] Instance M_bind : MBind M := λ A B k m, bind m k.

(** [for (const x of xs) body(x)]. *)
Fixpoint forEach {A} (body : A → M unit) (xs : list A) : M unit :=
  match xs with
  | [] => ret tt
  | x :: rest => body x ;; forEach body rest
  end.

(** ** Access to the store *)

Definition lookupContext (w : World) (c : ContextId) : option Context :=
  heap w !! c.

Definition updateContext (f : Context → Context) (c : ContextId) (w : World) : World :=
  {| heap := alter f c (heap w); provided := provided w; trace := trace w |}.

(** Dereferencing a context; a dangling identity is JavaScript's call on
    [undefined]. *)
Definition deref (c : ContextId) : M Context :=
  λ w, match lookupContext w c with
       | Some ctx => (w, Returned ctx)
       | None => (w, Thrown (TypeError "undefined is not a context"%string))
       end.

(** Reading the current world. *)
Definition gets {A} (f : World → A) : M A := λ w, (w, Returned (f w)).

Definition modify (f : Context → Context) (c : ContextId) : M unit :=
  λ w, (updateContext f c w, Returned tt).

Definition emit (e : Event) : M unit :=
  λ w, ({| heap := heap w; provided := provided w; trace := trace w ++ [e] |}, Returned tt).

Definition with_state (s : ContextState) (x : Context) : Context :=
  {| _state := s; _parent := _parent x; _children := _children x;
     _observers := _observers x; _axis := _axis x; _extended := _extended x |}.
Definition with_children (l : list ContextId) (x : Context) : Context :=
  {| _state := _state x; _parent := _parent x; _children := l;
     _observers := _observers x; _axis := _axis x; _extended := _extended x |}.
Definition with_observers (o : option (list Observer)) (x : Context) : Context :=
  {| _state := _state x; _parent := _parent x; _children := _children x;
     _observers := o; _axis := _axis x; _extended := _extended x |}.
Definition with_axis (a : option TraversingAxis) (x : Context) : Context :=
  {| _state := _state x; _parent := _parent x; _children := _children x;
     _observers := _observers x; _axis := a; _extended := _extended x |}.

(** [Array.prototype.indexOf]: the first position of [x], [None] for -1. *)
Fixpoint indexOf (x : nat) (l : list nat) : option nat :=
  match l with
  | [] => None
  | y :: rest => if decide (y = x) then Some 0 else S <$> indexOf x rest
  end.

(** The getters. *)
Definition state (w : World) (c : ContextId) : option ContextState :=
  _state <$> lookupContext w c.
Definition parent (w : World) (c : ContextId) : option ContextId :=
  lookupContext w c ≫= _parent.
Definition children (w : World) (c : ContextId) : list ContextId :=
  default [] (_children <$> lookupContext w c).
Definition hasChildren (w : World) (c : ContextId) : bool :=
  bool_decide (0 < length (children w c)).
Definition observers (w : World) (c : ContextId) : option (list Observer) :=
  lookupContext w c ≫= _observers.

(** [_state = s], recorded with the value it replaces. *)
Definition setState (c : ContextId) (s : ContextState) : M unit :=
  ctx ← deref c;
  emit (StateSet c (_state ctx) s) ;;
  modify (with_state s) c.

Definition alreadyEnded : Exception := Error "The context has already ended."%string.

(** [ensureActive()] of the context [c]. *)
Definition ensureActive (c : ContextId) : M unit :=
  ctx ← deref c;
  if decide (_state ctx = Active) then ret tt else throw alreadyEnded.

(** [new Context(parent)]: [_state = Active], [_children = []],
    [_observers] undefined. *)
Definition newContext (p : option ContextId) (extended : bool) : Context :=
  {| _state := Active; _parent := p; _children := []; _observers := None;
     _axis := None; _extended := extended |}.

(** Allocation of a fresh instance; [assignID] is the position in the store. *)
Definition allocate (x : Context) : M ContextId :=
  λ w, ({| heap := heap w ++ [x]; provided := provided w; trace := trace w |},
        Returned (length (heap w))).

(** [new Context()] with no parent. *)
Definition newRoot : M ContextId := allocate (newContext None false).

(** [newChild()]. *)
Definition newChild (c : ContextId) : M ContextId :=
  ensureActive c ;;
  childContext ← allocate (newContext (Some c) true);
  modify (λ x, with_children (_children x ++ [childContext]) x) c ;;
  ret childContext.

(** [store(object)]; [$provide(this, object)] adds to the registrations. *)
Definition provide (c : ContextId) (v : JsValue) : M unit :=
  λ w, ({| heap := heap w; provided := provided w ++ [(c, v)]; trace := trace w |},
        Returned tt).

Definition store (c : ContextId) (v : JsValue) : M ContextId :=
  (if isSomething v then provide c v else ret tt) ;;
  ret c.

(** [observe(observer)]; [None] is an absent observer, and the result [None]
    is [undefined]. *)
Definition observe (c : ContextId) (observer : option Observer) : M (option Unsubscribe) :=
  ensureActive c ;;
  match observer with
  | None => ret None
  | Some o =>
      modify (λ x, with_observers (Some (default [] (_observers x) ++ [o])) x) c ;;
      ret (Some {| sub_context := c; sub_observer := o |})
  end.

(** A call of the function returned by [observe]:
    [_observers.indexOf(observer)] throws when [_observers] is [null]. *)
Definition unsubscribe (u : Unsubscribe) : M unit :=
  ctx ← deref (sub_context u);
  match _observers ctx with
  | None => throw (TypeError "Cannot read properties of null (reading 'indexOf')"%string)
  | Some l =>
      match indexOf (sub_observer u) l with
      | Some index => modify (with_observers (Some (delete index l))) (sub_context u)
      | None => ret tt
      end
  end.

(** [makeNotifier()]: [_observers && _observers.slice()]. *)
Definition makeNotifier (ctx : Context) : list Observer :=
  default [] (_observers ctx).

Section Lifecycle.

(** What an observer does when one of its methods is invoked.  This
    section is the lifecycle under observers that do nothing to the
    contexts but change the subscriptions: an observer calls some of the
    unsubscribe functions it holds, which is what the snapshots of
    [makeNotifier] are there for.  Observers are code, and may as well
    call [end], [unwind], [newChild] or [observe] from inside a
    notification: the lifecycle under such observers is in the module
    [Reentrant] below, and agrees with this one when the observers only
    unsubscribe. *)
Variable reaction : Observer → Notification → list Unsubscribe.

(** A method call on the notifier: every observer of the snapshot, in
    order. *)
Definition notify (notifier : list Observer) (n : Notification) : M unit :=
  forEach (λ o, emit (Notified o n) ;; forEach unsubscribe (reaction o n)) notifier.

(** [unwind()], given what [child.end()] does. *)
Definition unwind_with (end_child : ContextId → M unit) (c : ContextId) : M ContextId :=
  ctx ← deref c;
  forEach end_child (_children ctx) ;;
  ret c.

(** The [end()] of the class, lines 259-269. *)
Definition end_base_with (end_child : ContextId → M unit) (c : ContextId) : M unit :=
  ctx ← deref c;
  if decide (_state ctx = Active) then
    let notifier := makeNotifier ctx in
    setState c Ending ;;
    notify notifier (contextEnding c) ;;
    unwind_with end_child c ;;
    setState c Ended ;;
    notify notifier (contextEnded c) ;;
    modify (with_observers None) c
  else ret tt.

(** The [end()] that [newChild] puts on the child [c] of [p]: [_children]
    and [makeNotifier] are those of [p]. *)
Definition end_child_with (end_child : ContextId → M unit) (p c : ContextId) : M unit :=
  pctx ← deref p;
  match indexOf c (_children pctx) with
  | None => ret tt
  | Some index =>
      let notifier := makeNotifier pctx in
      notify notifier (childContextEnding c) ;;
      modify (λ x, with_children (delete index (_children x)) x) p ;;
      end_base_with end_child c ;;
      notify notifier (childContextEnded c)
  end.

(** Method lookup for [c.end()]. *)
Definition end_with (end_child : ContextId → M unit) (c : ContextId) : M unit :=
  ctx ← deref c;
  match _extended ctx, _parent ctx with
  | true, Some p => end_child_with end_child p c
  | _, _ => end_base_with end_child c
  end.

(** [c.end()]; the bound is on the depth of nested [end] calls. *)
Fixpoint end_ (fuel : nat) (c : ContextId) : M unit :=
  match fuel with
  | 0 => diverge
  | S fuel' => end_with (end_ fuel') c
  end.

Definition unwind (fuel : nat) : ContextId → M ContextId := unwind_with (end_ fuel).
Definition end_base (fuel : nat) : ContextId → M unit := end_base_with (end_ fuel).
Definition dispose (fuel : nat) : ContextId → M unit := end_ fuel.

(** [unwindToRootContext()]; [steps] bounds the walk up the parents. *)
Fixpoint unwindToRootContext (fuel steps : nat) (current : ContextId) : M ContextId :=
  match steps with
  | 0 => diverge
  | S steps' =>
      ctx ← deref current;
      match _parent ctx with
      | None => unwind fuel current ;; ret current
      | Some p => unwindToRootContext fuel steps' p
      end
  end.

End Lifecycle.

(** ** Callback dispatch *)

Abbreviation Composer := nat (only parsing).

(** What a traversal sees of the store: the parent and the children of
    every context. *)
Definition Tree : Type := list (option nat * list nat).

Definition tree_of (w : World) : Tree :=
  (λ x, (_parent x, _children x)) <$> heap w.

Section Dispatch.

(** The inherited [handleCallback] of [CompositeHandler] ([this.base(...)]):
    an opaque capability of miruken-callback.  Its answer is a function of
    the receiver, of what has been registered with [$provide], and of the
    arguments. *)
Variable baseHandler :
  list (ContextId * JsValue) → ContextId → Callback → bool → Composer → bool.

(** The order in which [traverse(axis, visitor, this)] of miruken-core's
    [TraversingMixin] offers the nodes of the tree to its visitor when the
    visitor never stops it.  The mixin reads the [parent] and the
    [children] of the nodes and nothing else. *)
Variable traversal : Tree → TraversingAxis → ContextId → list ContextId.

(** [this.base(callback, greedy, composer)]. *)
Definition base (this : ContextId) (callback : Callback) (greedy : bool)
    (composer : Composer) : M bool :=
  emit (BaseHandled this callback greedy) ;;
  gets (λ w, baseHandler (provided w) this callback greedy composer).

(** The traversal offers node after node and stops as soon as the visitor
    returns a true value; [acc] is the visitor's captured variable. *)
Fixpoint traverse {A} (visitor : A → ContextId → M (A * bool)) (acc : A)
    (nodes : list ContextId) : M A :=
  match nodes with
  | [] => ret acc
  | node :: rest =>
      '(acc', stop) ← visitor acc node;
      if stop : bool then ret acc' else traverse visitor acc' rest
  end.

(** [handleAxis(axis, callback, greedy, composer)], given [handle]; an
    [axis] that is no instance of [TraversingAxis] is [None]. *)
Definition handleAxis_with (handle : ContextId → Callback → bool → Composer → M bool)
    (this : ContextId) (axis : option TraversingAxis) (callback : Callback)
    (greedy : bool) (composer : Composer) : M bool :=
  match axis with
  | None => throw (TypeError "Invalid axis type supplied"%string)
  | Some a =>
      modify (with_axis (Some a)) this ;;
      handle this callback greedy composer
  end.

(** [handleCallback(callback, greedy, composer)], lines 167-190. *)
Definition handleCallback_with (handle : ContextId → Callback → bool → Composer → M bool)
    (this : ContextId) (callback : Callback) (greedy : bool)
    (composer : Composer) : M bool :=
  ctx ← deref this;
  match _axis ctx with
  | None =>
      handled ← base this callback greedy composer;
      if handled && negb greedy then ret true
      else match _parent ctx with
           | Some p =>
               r ← handle p callback greedy composer;
               ret (handled || r)
           | None => ret handled
           end
  | Some axis =>
      modify (with_axis None) this ;;
      if decide (axis = Self) then base this callback greedy composer
      else
        nodes ← gets (λ w, traversal (tree_of w) axis this);
        traverse (λ handled node,
                    r ← (if decide (node = this)
                         then base this callback greedy composer
                         else handleAxis_with handle node (Some Self)
                                callback greedy composer);
                    ret (handled || r, (handled || r) && negb greedy))
                 false nodes
  end.

(** [handle] of miruken-callback hands a present callback to
    [handleCallback]; the bound is on the depth of nested [handle] calls. *)
Fixpoint handle (fuel : nat) (this : ContextId) (callback : Callback)
    (greedy : bool) (composer : Composer) : M bool :=
  match fuel with
  | 0 => diverge
  | S fuel' => handleCallback_with (handle fuel') this callback greedy composer
  end.

Definition handleCallback (fuel : nat) := handleCallback_with (handle fuel).
Definition handleAxis (fuel : nat) := handleAxis_with (handle fuel).

(** The handlers along the active axis of a dispatch on [c], in the order
    in which a dispatch that nothing stops asks them: [c] alone under a
    pending [Self]; the nodes of the traversal under another pending axis;
    otherwise [c] and then the handlers along the active axis of its
    parent. *)
Inductive route (w : World) : ContextId → list ContextId → Prop :=
  | route_self c x :
      lookupContext w c = Some x → _axis x = Some Self → route w c [c]
  | route_axis c x a :
      lookupContext w c = Some x → _axis x = Some a → a ≠ Self →
      Forall (λ n, is_Some (lookupContext w n)) (traversal (tree_of w) a c) →
      route w c (traversal (tree_of w) a c)
  | route_root c x :
      lookupContext w c = Some x → _axis x = None → _parent x = None →
      route w c [c]
  | route_parent c x p l :
      lookupContext w c = Some x → _axis x = None → _parent x = Some p →
      route w p l → route w c (c :: l).

End Dispatch.

(** ** Programs over the interface *)

(** One call from outside. *)
Inductive Operation :=
  | OpNew (parent : option ContextId)
  | OpNewChild (c : ContextId)
  | OpStore (c : ContextId) (object : JsValue)
  | OpObserve (c : ContextId) (observer : option Observer)
  | OpUnsubscribe (u : Unsubscribe)
  | OpUnwind (c : ContextId)
  | OpUnwindToRootContext (c : ContextId)
  | OpEnd (c : ContextId)
  | OpDispose (c : ContextId)
  | OpHandle (c : ContextId) (callback : Callback) (greedy : bool) (composer : Composer)
  | OpHandleAxis (c : ContextId) (axis : option TraversingAxis) (callback : Callback)
      (greedy : bool) (composer : Composer).

Section Programs.

Variable reaction : Observer → Notification → list Unsubscribe.
Variable baseHandler :
  list (ContextId * JsValue) → ContextId → Callback → bool → Composer → bool.
Variable traversal : Tree → TraversingAxis → ContextId → list ContextId.

(** The call, its result dropped. *)
Definition perform (fuel : nat) (op : Operation) : M unit :=
  match op with
  | OpNew p => _ ← allocate (newContext p false); ret tt
  | OpNewChild c => _ ← newChild c; ret tt
  | OpStore c v => _ ← store c v; ret tt
  | OpObserve c o => _ ← observe c o; ret tt
  | OpUnsubscribe u => unsubscribe u
  | OpUnwind c => _ ← unwind reaction fuel c; ret tt
  | OpUnwindToRootContext c => _ ← unwindToRootContext reaction fuel fuel c; ret tt
  | OpEnd c => end_ reaction fuel c
  | OpDispose c => dispose reaction fuel c
  | OpHandle c callback greedy composer =>
      _ ← handle baseHandler traversal fuel c callback greedy composer; ret tt
  | OpHandleAxis c axis callback greedy composer =>
      _ ← handleAxis baseHandler traversal fuel c axis callback greedy composer; ret tt
  end.

(** A sequence of calls, the caller going on after a call that throws. *)
Definition run (fuel : nat) (ops : list Operation) (w : World) : World :=
  foldl (λ w op, (perform fuel op w).1) w ops.

End Programs.

(** The elements of [l] up to and including the first one that satisfies
    [f]. *)
Fixpoint through {A} (f : A → bool) (l : list A) : list A :=
  match l with
  | [] => []
  | x :: rest => if f x then [x] else x :: through f rest
  end.

(** The trace of asking the base handlers of [l]. *)
Definition queries (callback : Callback) (greedy : bool) (l : list ContextId) : list Event :=
  (λ n, BaseHandled n callback greedy) <$> l.

(** ** Vocabulary of the statements *)

(** The one step forward of the lifecycle. *)
Definition successor (s : ContextState) : option ContextState :=
  match s with Active => Some Ending | Ending => Some Ended | Ended => None end.

(** Replaying the [_state] assignments to [c] recorded in [t] from the state
    [s]: every one must start from the state reached so far and move it one
    step forward. *)
Fixpoint walk (c : ContextId) (s : ContextState) (t : list Event) : option ContextState :=
  match t with
  | [] => Some s
  | StateSet d from to :: t' =>
      if decide (d = c) then
        if decide (from = s ∧ successor s = Some to) then walk c to t' else None
      else walk c s t'
  | _ :: t' => walk c s t'
  end.

(** The state of [c], a context not yet constructed counting as [Active],
    the state it is constructed in. *)
Definition known (w : World) (c : ContextId) : ContextState :=
  default Active (state w c).

(** The context whose own ending an event announces. *)
Definition announces (e : Event) : option ContextId :=
  match e with
  | Notified _ (contextEnding d) | Notified _ (contextEnded d) => Some d
  | _ => None
  end.

Definition quiet (d : ContextId) (t : list Event) : Prop :=
  Forall (λ e, announces e ≠ Some d) t.

(** How a run may change the world.  The contexts in [X] are those whose
    [end] is in progress. *)
Record evolving (X : ContextId → Prop) (w w' : World) : Prop := {
  ev_length : length (heap w) ≤ length (heap w');
  ev_frozen : ∀ d s, ¬ X d → state w d = Some s → s ≠ Active → state w' d = Some s;
  ev_trace : ∃ t, trace w' = trace w ++ t
    ∧ (∀ d, walk d (known w d) t = Some (known w' d))
    ∧ (∀ d s, ¬ X d → state w d = Some s → s ≠ Active → quiet d t)
}.

Definition extended (w : World) (c : ContextId) : bool :=
  default false (_extended <$> lookupContext w c).

(** A run that only takes children away and leaves the length of the store,
    the registrations and the pending axes alone. *)
Record shrinking (w w' : World) : Prop := {
  sh_length : length (heap w') = length (heap w);
  sh_static : ∀ d, parent w' d = parent w d ∧ extended w' d = extended w d;
  sh_children : ∀ p, children w' p ⊆ children w p;
  sh_provided : provided w' = provided w
}.

(** The tree as [newChild] and [end] keep it: the children of [p] are
    distinct, came out of [p.newChild()] and are active. *)
Record wf (w : World) : Prop := {
  wf_NoDup : ∀ p, NoDup (children w p);
  wf_child : ∀ p k, k ∈ children w p →
    state w k = Some Active ∧ parent w k = Some p ∧ extended w k = true;
  wf_parent : ∀ c, extended w c = true →
    ∃ p, parent w c = Some p ∧ is_Some (lookupContext w p)
}.

(** The number of active contexts. *)
Definition active (w : World) : nat :=
  length (filter (λ x, _state x = Active) (heap w)).

(** The trace a notifier call leaves when no observer throws. *)
Definition notifications (notifier : list Observer) (n : Notification) : list Event :=
  (λ o, Notified o n) <$> notifier.

(** The empty world. *)
Definition empty_world : World := {| heap := []; provided := []; trace := [] |}.

(** A relation between the world before and after that every run of [m]
    establishes. *)
Definition preserves (R : relation World) {A} (m : M A) : Prop :=
  ∀ w, R w (m w).1.

(** A run that leaves the tree and the states alone. *)
Record tree_kept (w w' : World) : Prop := {
  tk_length : length (heap w') = length (heap w);
  tk_state : ∀ d, state w' d = state w d;
  tk_parent : ∀ d, parent w' d = parent w d;
  tk_extended : ∀ d, extended w' d = extended w d;
  tk_children : ∀ d, children w' d = children w d;
  tk_provided : provided w' = provided w
}.

(** A property of the world that every run of [m] keeps. *)
Definition invariant (P : World → Prop) {A} (m : M A) : Prop :=
  ∀ w, P w → P (m w).1.

(** [c] is in no list of children. *)
Definition detached (w : World) (c : ContextId) : Prop :=
  ∀ p, c ∉ children w p.

(** No reference dangles: the children of every context exist, and so does
    the parent of every context that came out of [newChild]. *)
Record closed (w : World) : Prop := {
  closed_children : ∀ p k, k ∈ children w p → is_Some (lookupContext w k);
  closed_parent : ∀ c p, extended w c = true → parent w c = Some p →
    is_Some (lookupContext w p)
}.

(** Observers that call no unsubscribe function when notified. *)
Definition peaceful (reaction : Observer → Notification → list Unsubscribe) : Prop :=
  ∀ o n, reaction o n = [].

(** The run of [m] from [w] returns: it neither throws nor exhausts the
    bound on the recursion. *)
Definition finishes {A} (m : M A) (w : World) : Prop :=
  ∃ a, (m w).2 = Returned a.

(** What nested [end] calls need: no dangling reference, the contexts of
    [ks] in the store, and fewer than [bound] active contexts. *)
Definition ready (bound : nat) (ks : list nat) (w : World) : Prop :=
  closed w ∧ active w < bound ∧ ∀ k, k ∈ ks → is_Some (lookupContext w k).

(** A child that a run has taken out of its list has been ended by it. *)
Definition ended_if_removed (w w' : World) : Prop :=
  ∀ p k, k ∈ children w p → k ∉ children w' p → state w' k = Some Ended.

(** The [_state] assignments to [c] recorded in [t], as pairs of the state
    replaced and the state assigned. *)
Fixpoint assignments (c : ContextId) (t : list Event) : list (ContextState * ContextState) :=
  match t with
  | [] => []
  | StateSet d from to :: t' =>
      if decide (d = c) then (from, to) :: assignments c t' else assignments c t'
  | _ :: t' => assignments c t'
  end.

(** A dispatch leaves the tree and the states alone and records only
    calls of base handlers. *)
Record dispatching (w w' : World) : Prop := {
  di_tree : tree_kept w w';
  di_tree_of : tree_of w' = tree_of w;
  di_trace : ∃ t, trace w' = trace w ++ t
    ∧ Forall (λ e, match e with BaseHandled _ _ _ => True | _ => False end) t
}.

(** The handlers a dispatch asks out of those along its axis: all of them
    when greedy, otherwise those up to the first that handles. *)
Definition asked {A} (greedy : bool) (f : A → bool) (l : list A) : list A :=
  if greedy then l else through f l.

(** Following the words of the specification: a dispatch on [c] with the
    pending axis [Self] gives the result of the dispatch with no pending
    axis and asks the same handlers. *)
Definition self_as_no_axis
    (baseHandler : list (ContextId * JsValue) → ContextId → Callback → bool → Composer → bool)
    (traversal : Tree → TraversingAxis → ContextId → list ContextId)
    (fuel : nat) (c : ContextId) (callback : Callback) (greedy : bool)
    (composer : Composer) (w : World) : Prop :=
  let tagged := handleAxis baseHandler traversal fuel c (Some Self)
                  callback greedy composer w in
  let plain := handle baseHandler traversal fuel c callback greedy composer w in
  tagged.2 = plain.2 ∧ trace tagged.1 = trace plain.1.

(** ** Small worlds to run the model on *)

(** A root, numbered 0, and its child from [newChild], numbered 1. *)
Definition parent_and_child : World :=
  {| heap := [ {| _state := Active; _parent := None; _children := [1];
                  _observers := None; _axis := None; _extended := false |};
               {| _state := Active; _parent := Some 0; _children := [];
                  _observers := None; _axis := None; _extended := true |} ];
     provided := []; trace := [] |}.

(** The same with the observer 7 on the root and the observer 8 on the
    child. *)
Definition observed_parent_and_child : World :=
  {| heap := [ {| _state := Active; _parent := None; _children := [1];
                  _observers := Some [7]; _axis := None; _extended := false |};
               {| _state := Active; _parent := Some 0; _children := [];
                  _observers := Some [8]; _axis := None; _extended := true |} ];
     provided := []; trace := [] |}.

(** A root that has ended. *)
Definition ended_root : World :=
  {| heap := [ {| _state := Ended; _parent := None; _children := [];
                  _observers := None; _axis := None; _extended := false |} ];
     provided := []; trace := [] |}.

(** Observers that do nothing when notified. *)
Definition no_reaction : Observer → Notification → list Unsubscribe := λ _ _, [].

(** Base handlers of which only that of context 0 handles. *)
Definition only_root_handles :
    list (ContextId * JsValue) → ContextId → Callback → bool → Composer → bool :=
  λ _ c _ _ _, bool_decide (c = 0).

(** The traversal of the children axis over the tree, nothing along any
    other axis. *)
Definition children_traversal : Tree → TraversingAxis → ContextId → list ContextId :=
  λ t axis c,
    match axis with
    | Child => default [] (snd <$> t !! c)
    | _ => []
    end.

(** Observers that unsubscribe themselves from a context when they hear
    that it is ending. *)
Definition leave_at_ending : Observer → Notification → list Unsubscribe :=
  λ o n,
    match n with
    | contextEnding c => [ {| sub_context := c; sub_observer := o |} ]
    | _ => []
    end.

(** Observers that unsubscribe themselves from a child when they hear that
    it has ended. *)
Definition leave_ended_child : Observer → Notification → list Unsubscribe :=
  λ o n,
    match n with
    | childContextEnded c => [ {| sub_context := c; sub_observer := o |} ]
    | _ => []
    end.

(** ** The rest of the interface *)

(** [get root()]: up the parents as long as there is one; [steps] bounds
    the loop. *)
Fixpoint root (steps : nat) (c : ContextId) : M ContextId :=
  match steps with
  | 0 => diverge
  | S steps' =>
      ctx ← deref c;
      match _parent ctx with
      | None => ret c
      | Some p => root steps' p
      end
  end.

(** Every parent was constructed before its children. *)
Definition grounded (w : World) : Prop :=
  ∀ c p, parent w c = Some p → p < c.

(** [x] is [k] or has [k] among its ancestors. *)
Inductive descends (w : World) (k : ContextId) : ContextId → Prop :=
  | descends_self : descends w k k
  | descends_parent x p :
      parent w x = Some p → descends w k p → descends w k x.

(** [x] is a child of [c], or a child of a child, and so on, by the lists
    of children. *)
Inductive below (w : World) (c : ContextId) : ContextId → Prop :=
  | below_child k : k ∈ children w c → below w c k
  | below_step y k : below w c y → k ∈ children w y → below w c k.

(** A run that leaves no context in the middle of its end that was not
    there before. *)
Definition no_new_ending (w w' : World) : Prop :=
  ∀ x, state w' x = Some Ending → state w x = Some Ending.

(** A run that has ended the children of every context it has ended. *)
Definition ends_children (w w' : World) : Prop :=
  ∀ p k, k ∈ children w p → state w p = Some Active →
         state w' p = Some Ended → state w' k = Some Ended.

(** The pending axis of a context. *)
Definition axis (w : World) (c : ContextId) : option TraversingAxis :=
  lookupContext w c ≫= _axis.

(** A run that leaves no pending axis behind that was not there before. *)
Definition axes_consumed (w w' : World) : Prop :=
  ∀ d, axis w' d = None ∨ axis w' d = axis w d.

(** The creation of [op] refers to contexts of [w] only. *)
Definition constructible (w : World) (op : Operation) : Prop :=
  match op with
  | OpNew (Some p) => p < length (heap w)
  | _ => True
  end.

(** A root, numbered 0, its children 1 and 2, and the child 3 of 1. *)
Definition family : World :=
  {| heap := [ {| _state := Active; _parent := None; _children := [1; 2];
                  _observers := Some [7]; _axis := None; _extended := false |};
               {| _state := Active; _parent := Some 0; _children := [3];
                  _observers := Some [8]; _axis := None; _extended := true |};
               {| _state := Active; _parent := Some 0; _children := [];
                  _observers := None; _axis := None; _extended := true |};
               {| _state := Active; _parent := Some 1; _children := [];
                  _observers := None; _axis := None; _extended := true |} ];
     provided := []; trace := [] |}.

Section ConstructiblePrograms.

Variable reaction : Observer → Notification → list Unsubscribe.
Variable baseHandler :
  list (ContextId * JsValue) → ContextId → Callback → bool → Composer → bool.
Variable traversal : Tree → TraversingAxis → ContextId → list ContextId.

(** Every [new Context(parent)] of the program is given a context that
    exists when it is called. *)
Fixpoint constructible_run (fuel : nat) (ops : list Operation) (w : World) : Prop :=
  match ops with
  | [] => True
  | op :: rest =>
      constructible w op
      ∧ constructible_run fuel rest
          (perform reaction baseHandler traversal fuel op w).1
  end.

End ConstructiblePrograms.

(** A run that changes the state of no context outside [X] and the list
    of children of no context outside [Y]. *)
Definition confined (X Y : ContextId → Prop) (w w' : World) : Prop :=
  (∀ x, ¬ X x → state w' x = state w x)
  ∧ (∀ x, ¬ Y x → children w' x = children w x).

(** From a world that satisfies [P], a run of [m] ends in a world that
    satisfies [P] and is related to the first by [R]. *)
Definition keeps (P : World → Prop) (R : relation World) {A} (m : M A) : Prop :=
  ∀ w, P w → P (m w).1 ∧ R w (m w).1.

(** A run that has emptied the list of children of every context it has
    ended. *)
Definition emptied (w w' : World) : Prop :=
  ∀ q, state w q = Some Active → state w' q = Some Ended → children w' q = [].

(** A run of [m] that comes back, by returning or by throwing, leaves a
    world related to the first by [R]. *)
Definition on_completion (R : relation World) {A} (m : M A) : Prop :=
  ∀ w, (m w).2 ≠ OutOfFuel → R w (m w).1.

(** [o] is registered with no context. *)
Definition unheard (o : Observer) (w : World) : Prop :=
  ∀ d l, observers w d = Some l → o ∉ l.

(** No method of [o] is invoked in [t]. *)
Definition silent (o : Observer) (t : list Event) : Prop :=
  Forall (λ e, match e with Notified o' _ => o' ≠ o | _ => True end) t.

(** A run that invokes no method of [o]. *)
Definition ignoring (o : Observer) (w w' : World) : Prop :=
  ∃ t, trace w' = trace w ++ t ∧ silent o t.

(** [c] has left the state [Active]. *)
Definition begun (w : World) (c : ContextId) : Prop :=
  ∃ s, state w c = Some s ∧ s ≠ Active.

(** ** Observers that call back *)

Module Reentrant.

(** A call an observer makes from one of its methods: [Plain op] lets an
    exception of [op] leave the method, [Caught op] is the call in a
    [try] whose [catch] goes on with the next call. *)
Inductive Call := Plain (op : Operation) | Caught (op : Operation).

(** [try { m } catch (e) { }]. *)
Definition attempt (m : M unit) : M unit :=
  λ w, match m w with
       | (w', Thrown _) => (w', Returned tt)
       | r => r
       end.

Section Calls.

(** What an observer does when one of its methods is invoked: the calls
    it makes to the interface, in order, chosen from the notification and
    from what there is to see, the store and the history.  A plain call
    that throws ends the method of the observer with that exception. *)
Variable behaviour : Observer → Notification → World → list Call.
Variable baseHandler :
  list (ContextId * JsValue) → ContextId → Callback → bool → Composer → bool.
Variable traversal : Tree → TraversingAxis → ContextId → list ContextId.

Section Step.

(** What a call of the interface from inside a notification does. *)
Variable call : Operation → M unit.

(** One call of an observer. *)
Definition make (k : Call) : M unit :=
  match k with
  | Plain op => call op
  | Caught op => attempt (call op)
  end.

(** A method call on the notifier: every observer of the snapshot, in
    order, and for each one the calls it makes. *)
Definition notify (notifier : list Observer) (n : Notification) : M unit :=
  forEach (λ o, emit (Notified o n) ;;
                calls ← gets (behaviour o n);
                forEach make calls) notifier.

(** The [end()] of the class, lines 259-269. *)
Definition end_base_with (end_child : ContextId → M unit) (c : ContextId) : M unit :=
  ctx ← deref c;
  if decide (_state ctx = Active) then
    let notifier := makeNotifier ctx in
    setState c Ending ;;
    notify notifier (contextEnding c) ;;
    unwind_with end_child c ;;
    setState c Ended ;;
    notify notifier (contextEnded c) ;;
    modify (with_observers None) c
  else ret tt.

(** The [end()] that [newChild] puts on the child [c] of [p], lines
    141-149: the index is read before the observers of [p] are notified
    and used after. *)
Definition end_child_with (end_child : ContextId → M unit) (p c : ContextId) : M unit :=
  pctx ← deref p;
  match indexOf c (_children pctx) with
  | None => ret tt
  | Some index =>
      let notifier := makeNotifier pctx in
      notify notifier (childContextEnding c) ;;
      modify (λ x, with_children (delete index (_children x)) x) p ;;
      end_base_with end_child c ;;
      notify notifier (childContextEnded c)
  end.

(** Method lookup for [c.end()]. *)
Definition end_with (end_child : ContextId → M unit) (c : ContextId) : M unit :=
  ctx ← deref c;
  match _extended ctx, _parent ctx with
  | true, Some p => end_child_with end_child p c
  | _, _ => end_base_with end_child c
  end.

End Step.

(** [unwindToRootContext()], given [unwind]. *)
Fixpoint unwindToRootContext_with (unwind : ContextId → M ContextId)
    (steps : nat) (current : ContextId) : M ContextId :=
  match steps with
  | 0 => diverge
  | S steps' =>
      ctx ← deref current;
      match _parent ctx with
      | None => unwind current ;; ret current
      | Some p => unwindToRootContext_with unwind steps' p
      end
  end.

(** One call of the interface, its result dropped, given [c.end()]. *)
Definition perform_with (fuel : nat) (end_ : ContextId → M unit) (op : Operation) : M unit :=
  match op with
  | OpNew p => _ ← allocate (newContext p false); ret tt
  | OpNewChild c => _ ← newChild c; ret tt
  | OpStore c v => _ ← store c v; ret tt
  | OpObserve c o => _ ← observe c o; ret tt
  | OpUnsubscribe u => unsubscribe u
  | OpUnwind c => _ ← unwind_with end_ c; ret tt
  | OpUnwindToRootContext c =>
      _ ← unwindToRootContext_with (unwind_with end_) fuel c; ret tt
  | OpEnd c => end_ c
  | OpDispose c => end_ c
  | OpHandle c callback greedy composer =>
      _ ← handle baseHandler traversal fuel c callback greedy composer; ret tt
  | OpHandleAxis c axis callback greedy composer =>
      _ ← handleAxis baseHandler traversal fuel c axis callback greedy composer; ret tt
  end.

(** [c.end()]; the bound is on the depth of nested calls, those of the
    observers with them. *)
Fixpoint end_ (fuel : nat) : ContextId → M unit :=
  match fuel with
  | 0 => λ _, diverge
  | S fuel' => end_with (perform_with fuel' (end_ fuel')) (end_ fuel')
  end.

Definition perform (fuel : nat) : Operation → M unit := perform_with fuel (end_ fuel).
Definition unwind (fuel : nat) : ContextId → M ContextId := unwind_with (end_ fuel).
Definition end_base (fuel : nat) : ContextId → M unit :=
  end_base_with (perform fuel) (end_ fuel).
Definition dispose (fuel : nat) : ContextId → M unit := end_ fuel.
Definition unwindToRootContext (fuel steps : nat) : ContextId → M ContextId :=
  unwindToRootContext_with (unwind fuel) steps.

(** A sequence of calls, the caller going on after a call that throws. *)
Definition run (fuel : nat) (ops : list Operation) (w : World) : World :=
  foldl (λ w op, (perform fuel op w).1) w ops.

End Calls.
End Reentrant.

(** The observers of [behaviour] only unsubscribe: what they do when
    notified is to call the unsubscribe functions of [reaction], an
    exception of such a call leaving the method. *)
Definition unsubscribing
    (behaviour : Observer → Notification → World → list Reentrant.Call)
    (reaction : Observer → Notification → list Unsubscribe) : Prop :=
  ∀ o n w, behaviour o n w = (λ u, Reentrant.Plain (OpUnsubscribe u)) <$> reaction o n.

Definition only_unsubscribes (reaction : Observer → Notification → list Unsubscribe) :
    Observer → Notification → World → list Reentrant.Call :=
  λ o n _, (λ u, Reentrant.Plain (OpUnsubscribe u)) <$> reaction o n.

(** A root, numbered 0, with the observer 7 and the children 1, 2 and 3. *)
Definition siblings : World :=
  {| heap := [ {| _state := Active; _parent := None; _children := [1; 2; 3];
                  _observers := Some [7]; _axis := None; _extended := false |};
               {| _state := Active; _parent := Some 0; _children := [];
                  _observers := None; _axis := None; _extended := true |};
               {| _state := Active; _parent := Some 0; _children := [];
                  _observers := None; _axis := None; _extended := true |};
               {| _state := Active; _parent := Some 0; _children := [];
                  _observers := None; _axis := None; _extended := true |} ];
     provided := []; trace := [] |}.

(** Observers that end the context 1 when they hear that the child 2 is
    ending. *)
Definition ends_the_first : Observer → Notification → World → list Reentrant.Call :=
  λ _ n _,
    match n with
    | childContextEnding 2 => [Reentrant.Plain (OpEnd 1)]
    | _ => []
    end.

(** Observers that end the context 1 themselves when they hear that the
    context 0 is ending. *)
Definition ends_the_child : Observer → Notification → World → list Reentrant.Call :=
  λ _ n _,
    match n with
    | contextEnding 0 => [Reentrant.Plain (OpEnd 1)]
    | _ => []
    end.

(** ** Callbacks that may be absent *)

(** [handle(callback, greedy, composer)] of miruken-callback as it is
    called from outside: an absent callback is refused before
    [handleCallback] is reached. *)
Definition handle_nullable
    (baseHandler : list (ContextId * JsValue) → ContextId → Callback → bool → Composer → bool)
    (traversal : Tree → TraversingAxis → ContextId → list ContextId)
    (fuel : nat) (this : ContextId) (callback : option Callback)
    (greedy : bool) (composer : Composer) : M bool :=
  match callback with
  | None => ret false
  | Some cb => handle baseHandler traversal fuel this cb greedy composer
  end.

(** [handleAxis(axis, callback, greedy, composer)], lines 200-206, with a
    callback that may be absent. *)
Definition handleAxis_nullable
    (baseHandler : list (ContextId * JsValue) → ContextId → Callback → bool → Composer → bool)
    (traversal : Tree → TraversingAxis → ContextId → list ContextId)
    (fuel : nat) (this : ContextId) (axis : option TraversingAxis)
    (callback : option Callback) (greedy : bool) (composer : Composer) : M bool :=
  match axis with
  | None => throw (TypeError "Invalid axis type supplied"%string)
  | Some a =>
      modify (with_axis (Some a)) this ;;
      handle_nullable baseHandler traversal fuel this callback greedy composer
  end.

(** * Properties *)

(** ** The computations *)

Lemma bind_eq {A B} (m : M A) (k : A → M B) w :
  (m ≫= k) w = match m w with
               | (w', Returned a) => k a w'
               | (w', Thrown e) => (w', Thrown e)
               | (w', OutOfFuel) => (w', OutOfFuel)
               end.
Proof. reflexivity. Qed.

Lemma bind_returned {A B} (m : M A) (k : A → M B) w w1 a :
  m w = (w1, Returned a) → (m ≫= k) w = k a w1.
Proof. intros H. rewrite bind_eq, H. reflexivity. Qed.

Lemma bind_thrown {A B} (m : M A) (k : A → M B) w w1 e :
  m w = (w1, Thrown e) → (m ≫= k) w = (w1, Thrown e).
Proof. intros H. rewrite bind_eq, H. reflexivity. Qed.

Lemma bind_out_of_fuel {A B} (m : M A) (k : A → M B) w w1 :
  m w = (w1, OutOfFuel) → (m ≫= k) w = (w1, OutOfFuel).
Proof. intros H. rewrite bind_eq, H. reflexivity. Qed.

Section Preserves.
Context (R : relation World) `{!Reflexive R, !Transitive R}.

Lemma preserves_ret {A} (a : A) : preserves R (ret a).
Proof. intros w. reflexivity. Qed.

Lemma preserves_throw {A} e : preserves R (@throw A e).
Proof. intros w. reflexivity. Qed.

Lemma preserves_diverge {A} : preserves R (@diverge A).
Proof. intros w. reflexivity. Qed.

Lemma preserves_gets {A} (f : World → A) : preserves R (gets f).
Proof. intros w. reflexivity. Qed.

Lemma preserves_deref c : preserves R (deref c).
Proof. intros w. unfold deref. destruct (lookupContext w c); reflexivity. Qed.

Lemma preserves_bind {A B} (m : M A) (k : A → M B) :
  preserves R m → (∀ a, preserves R (k a)) → preserves R (m ≫= k).
Proof.
  intros Hm Hk w. rewrite bind_eq. specialize (Hm w).
  destruct (m w) as [w1 [a|e|]]; simpl in *; try assumption.
  etransitivity; [exact Hm | apply Hk].
Qed.

Lemma preserves_forEach {A} (body : A → M unit) xs :
  (∀ x, preserves R (body x)) → preserves R (forEach body xs).
Proof.
  intros Hb. induction xs as [|x xs IH]; simpl.
  - apply preserves_ret.
  - apply preserves_bind; [apply Hb | intros _; exact IH].
Qed.
End Preserves.

(** ** The store *)

Lemma lookup_update f c w d :
  lookupContext (updateContext f c w) d
  = if decide (c = d) then f <$> lookupContext w c else lookupContext w d.
Proof. unfold lookupContext, updateContext; simpl. apply list_lookup_alter. Qed.

Lemma lookup_update_eq f c w :
  lookupContext (updateContext f c w) c = f <$> lookupContext w c.
Proof. rewrite lookup_update. case_decide; congruence. Qed.

Lemma lookup_update_ne f c w d :
  c ≠ d → lookupContext (updateContext f c w) d = lookupContext w d.
Proof. intros. rewrite lookup_update. case_decide; congruence. Qed.

Lemma state_update f c w d :
  (∀ x, _state (f x) = _state x) → state (updateContext f c w) d = state w d.
Proof.
  intros Hf. unfold state. rewrite lookup_update. case_decide; [subst|done].
  destruct (lookupContext w d); simpl; [by rewrite Hf|done].
Qed.

Lemma parent_update f c w d :
  (∀ x, _parent (f x) = _parent x) → parent (updateContext f c w) d = parent w d.
Proof.
  intros Hf. unfold parent. rewrite lookup_update. case_decide; [subst|done].
  destruct (lookupContext w d); simpl; [by rewrite Hf|done].
Qed.

Lemma extended_update f c w d :
  (∀ x, _extended (f x) = _extended x) →
  extended (updateContext f c w) d = extended w d.
Proof.
  intros Hf. unfold extended. rewrite lookup_update. case_decide; [subst|done].
  destruct (lookupContext w d); simpl; [by rewrite Hf|done].
Qed.

Lemma children_update f c w d :
  (∀ x, _children (f x) = _children x) →
  children (updateContext f c w) d = children w d.
Proof.
  intros Hf. unfold children. rewrite lookup_update. case_decide; [subst|done].
  destruct (lookupContext w d); simpl; [by rewrite Hf|done].
Qed.

Lemma observers_update f c w d :
  (∀ x, _observers (f x) = _observers x) →
  observers (updateContext f c w) d = observers w d.
Proof.
  intros Hf. unfold observers. rewrite lookup_update. case_decide; [subst|done].
  destruct (lookupContext w d); simpl; [by rewrite Hf|done].
Qed.

Lemma state_with_state s c w d :
  state (updateContext (with_state s) c w) d
  = if decide (c = d) then (λ _, s) <$> state w d else state w d.
Proof.
  unfold state. rewrite lookup_update. case_decide; [subst|done].
  by destruct (lookupContext w d).
Qed.

Lemma children_with_children g c w d :
  children (updateContext (λ x, with_children (g (_children x)) x) c w) d
  = if decide (c = d) then
      match lookupContext w d with Some _ => g (children w d) | None => [] end
    else children w d.
Proof.
  unfold children. rewrite lookup_update. case_decide; [subst|done].
  by destruct (lookupContext w d).
Qed.

Lemma state_is_Some w c s : state w c = Some s → ∃ x, lookupContext w c = Some x ∧ _state x = s.
Proof. unfold state. destruct (lookupContext w c); naive_solver. Qed.

Lemma elem_of_children w p k :
  k ∈ children w p → ∃ x, lookupContext w p = Some x ∧ k ∈ _children x.
Proof.
  unfold children. destruct (lookupContext w p); simpl; [eauto|].
  by intros ?%elem_of_nil.
Qed.

(** ** Runs that only take children away *)

#[local] Instance shrinking_refl : Reflexive shrinking.
Proof. intros w. by split. Qed.

#[local] Instance shrinking_trans : Transitive shrinking.
Proof.
  intros w1 w2 w3 [L1 S1 C1 P1] [L2 S2 C2 P2]. split.
  - congruence.
  - intros d. destruct (S1 d), (S2 d). split; congruence.
  - intros p. etransitivity; [apply C2|apply C1].
  - congruence.
Qed.

Lemma shrinking_update f c w :
  (∀ x, _parent (f x) = _parent x) → (∀ x, _extended (f x) = _extended x) →
  (∀ x, _children (f x) ⊆ _children x) →
  shrinking w (updateContext f c w).
Proof.
  intros Hp He Hc. split.
  - simpl. apply length_alter.
  - intros d. by rewrite parent_update, extended_update.
  - intros p. unfold children. rewrite lookup_update. case_decide; [subst|done].
    destruct (lookupContext w p); simpl; [apply Hc|done].
  - done.
Qed.

Lemma preserves_shrinking_modify f c :
  (∀ x, _parent (f x) = _parent x) → (∀ x, _extended (f x) = _extended x) →
  (∀ x, _children (f x) ⊆ _children x) →
  preserves shrinking (modify f c).
Proof. intros ??? w. by apply shrinking_update. Qed.

Lemma preserves_shrinking_emit e : preserves shrinking (emit e).
Proof. intros w. by split. Qed.

Lemma preserves_shrinking_setState c s : preserves shrinking (setState c s).
Proof.
  unfold setState. apply preserves_bind; [apply _..|apply preserves_deref; apply _|].
  intros x. apply preserves_bind; [apply _..|apply preserves_shrinking_emit|].
  intros _. by apply preserves_shrinking_modify.
Qed.

Lemma preserves_shrinking_unsubscribe u : preserves shrinking (unsubscribe u).
Proof.
  unfold unsubscribe. apply preserves_bind; [apply _..|apply preserves_deref; apply _|].
  intros x. destruct (_observers x) as [l|]; [|apply preserves_throw; apply _].
  destruct (indexOf _ l); [|apply preserves_ret; apply _].
  by apply preserves_shrinking_modify.
Qed.

Section LifecycleShrinks.
Variable reaction : Observer → Notification → list Unsubscribe.

Lemma preserves_shrinking_notify l n : preserves shrinking (notify reaction l n).
Proof.
  unfold notify. apply preserves_forEach; [apply _..|]. intros o.
  apply preserves_bind; [apply _..|apply preserves_shrinking_emit|].
  intros _. apply preserves_forEach; [apply _..|].
  apply preserves_shrinking_unsubscribe.
Qed.

Section Step.
Variable end_child : ContextId → M unit.
Hypothesis end_child_shrinks : ∀ k, preserves shrinking (end_child k).

Lemma preserves_shrinking_unwind_with c :
  preserves shrinking (unwind_with end_child c).
Proof.
  unfold unwind_with.
  apply preserves_bind; [apply _..|apply preserves_deref; apply _|].
  intros x. apply preserves_bind; [apply _..| |].
  - by apply preserves_forEach; [apply _..|].
  - intros _. apply preserves_ret; apply _.
Qed.

Lemma preserves_shrinking_end_base_with c :
  preserves shrinking (end_base_with reaction end_child c).
Proof.
  unfold end_base_with.
  apply preserves_bind; [apply _..|apply preserves_deref; apply _|].
  intros x. case_decide; [|apply preserves_ret; apply _].
  repeat first
    [apply preserves_shrinking_setState
    |apply preserves_shrinking_notify
    |apply preserves_shrinking_unwind_with
    |by apply preserves_shrinking_modify
    |apply preserves_bind; [apply _..| |intros ?]].
Qed.

Lemma preserves_shrinking_end_child_with p c :
  preserves shrinking (end_child_with reaction end_child p c).
Proof.
  unfold end_child_with.
  apply preserves_bind; [apply _..|apply preserves_deref; apply _|].
  intros x. destruct (indexOf c (_children x)); [|apply preserves_ret; apply _].
  repeat first
    [apply preserves_shrinking_notify
    |apply preserves_shrinking_end_base_with
    |apply preserves_shrinking_modify; [done..|]
    |apply preserves_bind; [apply _..| |intros ?]].
  intros y; simpl. apply sublist_subseteq, sublist_delete.
Qed.

Lemma preserves_shrinking_end_with c :
  preserves shrinking (end_with reaction end_child c).
Proof.
  unfold end_with.
  apply preserves_bind; [apply _..|apply preserves_deref; apply _|].
  intros x. destruct (_extended x), (_parent x);
    first [apply preserves_shrinking_end_child_with
          |apply preserves_shrinking_end_base_with].
Qed.
End Step.

Lemma preserves_shrinking_end fuel c : preserves shrinking (end_ reaction fuel c).
Proof.
  revert c. induction fuel as [|fuel IH]; intros c; simpl.
  - apply preserves_diverge; apply _.
  - by apply preserves_shrinking_end_with.
Qed.

Lemma preserves_shrinking_unwind fuel c : preserves shrinking (unwind reaction fuel c).
Proof. apply preserves_shrinking_unwind_with, preserves_shrinking_end. Qed.
End LifecycleShrinks.

(** ** Replaying the state assignments *)

Lemma walk_app c s t1 t2 :
  walk c s (t1 ++ t2) = walk c s t1 ≫= λ s', walk c s' t2.
Proof.
  revert s. induction t1 as [|e t1 IH]; intros s; simpl; [done|].
  destruct e; try apply IH.
  repeat case_decide; try done; apply IH.
Qed.

Lemma walk_compose c s t1 t2 s1 s2 :
  walk c s t1 = Some s1 → walk c s1 t2 = Some s2 → walk c s (t1 ++ t2) = Some s2.
Proof. intros H1 H2. rewrite walk_app, H1. exact H2. Qed.

Lemma walk_monotone c s t s' : walk c s t = Some s' → ordinal s ≤ ordinal s'.
Proof.
  revert s. induction t as [|e t IH]; intros s; simpl.
  - intros [= ->]. lia.
  - destruct e; try apply IH.
    repeat case_decide; try done; try apply IH.
    intros H'%IH. destruct H0 as [_ Hs]. destruct s; simplify_eq/=; lia.
Qed.

Lemma walk_notifications c s l n : walk c s (notifications l n) = Some s.
Proof. induction l; simpl; done. Qed.

Lemma quiet_app d t1 t2 : quiet d (t1 ++ t2) ↔ quiet d t1 ∧ quiet d t2.
Proof. apply Forall_app. Qed.

(** ** Runs that leave the tree alone *)

#[local] Instance tree_kept_refl : Reflexive tree_kept.
Proof. by intros w. Qed.

#[local] Instance tree_kept_trans : Transitive tree_kept.
Proof.
  intros w1 w2 w3 [L1 S1 P1 E1 C1 V1] [L2 S2 P2 E2 C2 V2].
  split; intros; congruence.
Qed.

Lemma preserves_tree_kept_modify f c :
  (∀ x, _state (f x) = _state x) → (∀ x, _parent (f x) = _parent x) →
  (∀ x, _extended (f x) = _extended x) → (∀ x, _children (f x) = _children x) →
  preserves tree_kept (modify f c).
Proof.
  intros Hs Hp He Hc w. split; simpl; [apply length_alter|..|done]; intros d.
  - by apply state_update.
  - by apply parent_update.
  - by apply extended_update.
  - by apply children_update.
Qed.

Lemma preserves_tree_kept_emit e : preserves tree_kept (emit e).
Proof. by intros w. Qed.

Lemma preserves_tree_kept_unsubscribe u : preserves tree_kept (unsubscribe u).
Proof.
  unfold unsubscribe. apply preserves_bind; [apply _..|apply preserves_deref; apply _|].
  intros x. destruct (_observers x) as [l|]; [|apply preserves_throw; apply _].
  destruct (indexOf _ l); [|apply preserves_ret; apply _].
  by apply preserves_tree_kept_modify.
Qed.

Lemma preserves_tree_kept_notify reaction l n :
  preserves tree_kept (notify reaction l n).
Proof.
  unfold notify. apply preserves_forEach; [apply _..|]. intros o.
  apply preserves_bind; [apply _..|apply preserves_tree_kept_emit|].
  intros _. apply preserves_forEach; [apply _..|].
  apply preserves_tree_kept_unsubscribe.
Qed.

Lemma tree_kept_notify reaction l n w w' o :
  notify reaction l n w = (w', o) → tree_kept w w'.
Proof.
  intros H. pose proof (preserves_tree_kept_notify reaction l n w) as Hk.
  by rewrite H in Hk.
Qed.

(** ** What the primitive steps return *)

Lemma deref_returned c w w1 x :
  deref c w = (w1, Returned x) → w1 = w ∧ lookupContext w c = Some x.
Proof. unfold deref. destruct (lookupContext w c); naive_solver. Qed.

Lemma deref_Some c w x : lookupContext w c = Some x → deref c w = (w, Returned x).
Proof. unfold deref. by intros ->. Qed.

Lemma deref_not_out_of_fuel c w w1 : deref c w ≠ (w1, OutOfFuel).
Proof. unfold deref. by destruct (lookupContext w c). Qed.

Lemma setState_Some c s w x :
  lookupContext w c = Some x →
  setState c s w =
    ({| heap := alter (with_state s) c (heap w); provided := provided w;
        trace := trace w ++ [StateSet c (_state x) s] |}, Returned tt).
Proof. intros H. unfold setState. rewrite bind_eq, (deref_Some _ _ _ H). done. Qed.

(** ** How runs change states and trace *)

#[local] Instance evolving_refl X : Reflexive (evolving X).
Proof.
  intros w. split; [done|done|]. exists []. split; [by rewrite app_nil_r|].
  split; [done|]. intros; apply Forall_nil_2.
Qed.

#[local] Instance evolving_trans X : Transitive (evolving X).
Proof.
  intros w1 w2 w3 [L1 F1 (t1 & E1 & W1 & Q1)] [L2 F2 (t2 & E2 & W2 & Q2)]. split.
  - lia.
  - intros d s HX Hs Hn. eapply F2; eauto.
  - exists (t1 ++ t2). split; [by rewrite E2, E1, app_assoc|]. split.
    + intros d. eapply walk_compose; eauto.
    + intros d s HX Hs Hn. apply quiet_app. split; [eauto|].
      eapply Q2; eauto.
Qed.

Lemma evolving_weaken (X Y : ContextId → Prop) w w' :
  (∀ d, X d → Y d) → evolving X w w' → evolving Y w w'.
Proof.
  intros HXY [L F (t & E & W & Q)]. split; [done|naive_solver|].
  exists t. naive_solver.
Qed.

(** Once the contexts whose [end] was in progress are known to have been
    active at the start, nothing is exempt. *)
Lemma evolving_close (X : ContextId → Prop) w w' :
  (∀ d, X d → state w d = Some Active) →
  evolving X w w' → evolving (λ _, False) w w'.
Proof.
  intros HX [L F (t & E & W & Q)]. split; [done| |].
  - intros d s _ Hs Hn. apply F; [|done..]. intros Hd%HX. congruence.
  - exists t. split; [done|]. split; [done|].
    intros d s _ Hs Hn. eapply Q; [|done..]. intros Hd%HX. congruence.
Qed.

Lemma evolving_same_states X w w' t :
  length (heap w') = length (heap w) → (∀ d, state w' d = state w d) → trace w' = trace w ++ t →
  (∀ e, e ∈ t → match e with StateSet _ _ _ => False | _ => True end) →
  (∀ e d, e ∈ t → announces e = Some d → X d) →
  evolving X w w'.
Proof.
  intros L S E Hns Han. split; [lia| |].
  - intros d s _ Hs _. by rewrite S.
  - exists t. split; [done|]. split.
    + intros d. unfold known. rewrite S. clear E Han.
      induction t as [|e t IH]; [done|]. simpl.
      assert (He := Hns e (list_elem_of_here _ _)).
      destruct e; try done; apply IH; intros; apply Hns; by right.
    + intros d s HX _ _. apply Forall_forall. intros e He Ha. eauto.
Qed.

Lemma preserves_evolving_modify X f c :
  (∀ x, _state (f x) = _state x) → preserves (evolving X) (modify f c).
Proof.
  intros Hf w. apply (evolving_same_states _ _ _ []).
  - apply length_alter.
  - intros d. by apply state_update.
  - simpl. by rewrite app_nil_r.
  - by intros e ?%elem_of_nil.
  - by intros e d ?%elem_of_nil.
Qed.

Lemma preserves_evolving_unsubscribe X u : preserves (evolving X) (unsubscribe u).
Proof.
  unfold unsubscribe. apply preserves_bind; [apply _..|apply preserves_deref; apply _|].
  intros x. destruct (_observers x) as [l|]; [|apply preserves_throw; apply _].
  destruct (indexOf _ l); [|apply preserves_ret; apply _].
  by apply preserves_evolving_modify.
Qed.

Lemma preserves_evolving_emit_notified (X : ContextId → Prop) o n :
  (∀ d, announces (Notified o n) = Some d → X d) →
  preserves (evolving X) (emit (Notified o n)).
Proof.
  intros HX w. apply (evolving_same_states _ _ _ [Notified o n]).
  - done.
  - done.
  - done.
  - intros e He. apply list_elem_of_singleton in He. by subst.
  - intros e d He. apply list_elem_of_singleton in He. subst. apply HX.
Qed.

Lemma preserves_evolving_notify (X : ContextId → Prop) reaction l n :
  (∀ d, announces (Notified 0 n) = Some d → X d) →
  preserves (evolving X) (notify reaction l n).
Proof.
  intros HX. unfold notify. apply preserves_forEach; [apply _..|]. intros o.
  apply preserves_bind; [apply _..|by apply preserves_evolving_emit_notified|].
  intros _. apply preserves_forEach; [apply _..|].
  apply preserves_evolving_unsubscribe.
Qed.

(** A [_state] assignment that moves [c] one step forward, [c] being active
    or having its [end] in progress. *)
Lemma evolving_setState (X : ContextId → Prop) c s w x :
  lookupContext w c = Some x → successor (_state x) = Some s →
  (_state x = Active ∨ X c) →
  evolving X w (setState c s w).1.
Proof.
  intros Hx Hs HX. rewrite (setState_Some _ _ _ _ Hx). simpl. split; simpl.
  - by rewrite length_alter.
  - intros d s' Hd Hs' Hn.
    change (state (updateContext (with_state s) c w) d = Some s').
    rewrite state_with_state. case_decide; [subst|done].
    destruct HX as [HX|HX]; [|done].
    apply state_is_Some in Hs' as (x' & ? & ?). congruence.
  - eexists. split; [done|]. split.
    + intros d. unfold known at 2.
      change (state _ d) with (state (updateContext (with_state s) c w) d).
      rewrite state_with_state. simpl. unfold known, state.
      repeat case_decide; subst; try done; rewrite ?Hx; simpl; try done.
      rewrite Hx in *. simpl in *. by destruct H0.
    + intros d s' Hd Hs' Hn. by apply Forall_singleton.
Qed.

Lemma evolving_allocate X x w :
  _state x = Active → evolving X w (allocate x w).1.
Proof.
  intros Hx. split; simpl.
  - rewrite length_app. lia.
  - intros d s _ Hs _. unfold state, lookupContext in *. simpl.
    destruct (heap w !! d) eqn:E; [|done]. by rewrite (lookup_app_l_Some _ _ _ _ E).
  - exists []. split; [by rewrite app_nil_r|]. split; [|intros; apply Forall_nil_2].
    intros d. simpl. f_equal. unfold known, state, lookupContext. simpl.
    destruct (heap w !! d) eqn:E.
    + by rewrite (lookup_app_l_Some _ _ _ _ E).
    + apply lookup_ge_None in E. rewrite lookup_app_r by done.
      destruct (d - length (heap w)) as [|i]; simpl; [by rewrite Hx|done].
Qed.

Lemma rel_bind (R : relation World) `{!Transitive R} {A B} (m : M A) (k : A → M B) w :
  R w (m w).1 →
  (∀ a w1, m w = (w1, Returned a) → R w1 (k a w1).1) →
  R w ((m ≫= k) w).1.
Proof.
  intros Hm Hk. rewrite bind_eq. destruct (m w) as [w1 [a|e|]] eqn:E; simpl in *;
    try assumption.
  etransitivity; [exact Hm|]. by apply Hk.
Qed.

Lemma result_fst {A} (m : M A) w w1 o : m w = (w1, o) → (m w).1 = w1.
Proof. by intros ->. Qed.

Section LifecycleEvolves.
Variable reaction : Observer → Notification → list Unsubscribe.

Section Step.
Variable end_child : ContextId → M unit.
Hypothesis end_child_evolves :
  ∀ k, preserves (evolving (λ _, False)) (end_child k).

Lemma preserves_evolving_unwind_with X c :
  preserves (evolving X) (unwind_with end_child c).
Proof.
  unfold unwind_with.
  apply preserves_bind; [apply _..|apply preserves_deref; apply _|].
  intros x. apply preserves_bind; [apply _..| |].
  - apply preserves_forEach; [apply _..|]. intros k w.
    eapply evolving_weaken; [|apply end_child_evolves]. done.
  - intros _. apply preserves_ret; apply _.
Qed.

Lemma preserves_evolving_end_base_with c :
  preserves (evolving (λ _, False)) (end_base_with reaction end_child c).
Proof.
  intros w. unfold end_base_with. rewrite bind_eq.
  destruct (deref c w) as [w0 [x|e|]] eqn:Hd; simpl; try reflexivity;
    try (by unfold deref in Hd; destruct (lookupContext w c); simplify_eq).
  apply deref_returned in Hd as [-> Hx].
  case_decide as Hact; [|reflexivity].
  apply (evolving_close (λ d, d = c)).
  { intros d ->. unfold state. by rewrite Hx; simpl; f_equal. }
  apply (rel_bind (evolving (λ d, d = c))); [|intros [] w1 H1].
  { eapply evolving_setState; [done|by rewrite Hact|by left]. }
  rewrite (setState_Some _ _ _ _ Hx) in H1.
  assert (state w1 c = Some Ending) as Hs1.
  { simplify_eq. change (state (updateContext (with_state Ending) c w) c = Some Ending).
    rewrite state_with_state. case_decide; [|done]. unfold state. by rewrite Hx. }
  clear H1.
  apply (rel_bind (evolving (λ d, d = c))); [|intros [] w2 H2].
  { apply preserves_evolving_notify. by intros d [= ->]. }
  assert (state w2 c = Some Ending) as Hs2.
  { by rewrite (tk_state _ _ (tree_kept_notify _ _ _ _ _ _ H2)). }
  clear H2.
  apply (rel_bind (evolving (λ d, d = c))); [|intros r w3 H3].
  { apply preserves_evolving_unwind_with. }
  assert (state w3 c = Some Ending) as Hs3.
  { pose proof (preserves_evolving_unwind_with (λ _, False) c w2) as Hev.
    rewrite (result_fst _ _ _ _ H3) in Hev.
    apply (ev_frozen _ _ _ Hev c Ending); [tauto|done|done]. }
  clear H3. apply state_is_Some in Hs3 as (x3 & Hx3 & Hst3).
  apply (rel_bind (evolving (λ d, d = c))); [|intros [] w4 H4].
  { eapply evolving_setState; [done|by rewrite Hst3|by right]. }
  apply (rel_bind (evolving (λ d, d = c))); [|intros [] w5 H5].
  { apply preserves_evolving_notify. by intros d [= ->]. }
  by apply preserves_evolving_modify.
Qed.

Lemma preserves_evolving_end_child_with p c :
  preserves (evolving (λ _, False)) (end_child_with reaction end_child p c).
Proof.
  unfold end_child_with.
  apply preserves_bind; [apply _..|apply preserves_deref; apply _|].
  intros x. destruct (indexOf c (_children x)); [|apply preserves_ret; apply _].
  repeat first
    [apply preserves_evolving_notify; by intros ? [=]
    |apply preserves_evolving_end_base_with
    |by apply preserves_evolving_modify
    |apply preserves_bind; [apply _..| |intros ?]].
Qed.

Lemma preserves_evolving_end_with c :
  preserves (evolving (λ _, False)) (end_with reaction end_child c).
Proof.
  unfold end_with.
  apply preserves_bind; [apply _..|apply preserves_deref; apply _|].
  intros x. destruct (_extended x), (_parent x);
    first [apply preserves_evolving_end_child_with
          |apply preserves_evolving_end_base_with].
Qed.
End Step.

Lemma preserves_evolving_end fuel c :
  preserves (evolving (λ _, False)) (end_ reaction fuel c).
Proof.
  revert c. induction fuel as [|fuel IH]; intros c; simpl.
  - apply preserves_diverge; apply _.
  - by apply preserves_evolving_end_with.
Qed.

Lemma preserves_evolving_unwind fuel c :
  preserves (evolving (λ _, False)) (unwind reaction fuel c).
Proof. apply preserves_evolving_unwind_with, preserves_evolving_end. Qed.

Lemma preserves_evolving_end_base fuel c :
  preserves (evolving (λ _, False)) (end_base reaction fuel c).
Proof. apply preserves_evolving_end_base_with, preserves_evolving_end. Qed.
End LifecycleEvolves.

(** ** Invariants *)

Section Invariant.
Context (P : World → Prop).

Lemma invariant_ret {A} (a : A) : invariant P (ret a).
Proof. by intros w. Qed.

Lemma invariant_throw {A} e : invariant P (@throw A e).
Proof. by intros w. Qed.

Lemma invariant_diverge {A} : invariant P (@diverge A).
Proof. by intros w. Qed.

Lemma invariant_deref c : invariant P (deref c).
Proof. intros w. unfold deref. by destruct (lookupContext w c). Qed.

Lemma invariant_bind {A B} (m : M A) (k : A → M B) :
  invariant P m → (∀ a, invariant P (k a)) → invariant P (m ≫= k).
Proof.
  intros Hm Hk w Hw. rewrite bind_eq. specialize (Hm w Hw).
  destruct (m w) as [w1 [a|e|]]; simpl in *; try assumption.
  by apply Hk.
Qed.

Lemma invariant_forEach {A} (body : A → M unit) xs :
  (∀ x, invariant P (body x)) → invariant P (forEach body xs).
Proof.
  intros Hb. induction xs as [|x xs IH]; simpl.
  - apply invariant_ret.
  - apply invariant_bind; [apply Hb | intros _; exact IH].
Qed.

Lemma invariant_preserves (R : relation World) {A} (m : M A) :
  (∀ w w', R w w' → P w → P w') → preserves R m → invariant P m.
Proof. intros HR Hm w Hw. eapply HR; [apply Hm|done]. Qed.
End Invariant.

Lemma invariant_and (P Q : World → Prop) {A} (m : M A) :
  invariant P m → invariant Q m → invariant (λ w, P w ∧ Q w) m.
Proof. intros HP HQ w [??]. split; [by apply HP|by apply HQ]. Qed.

Lemma lookup_is_Some_length w w' c :
  length (heap w') = length (heap w) →
  is_Some (lookupContext w c) → is_Some (lookupContext w' c).
Proof.
  unfold lookupContext. intros L H. apply lookup_lt_is_Some.
  apply lookup_lt_is_Some in H. lia.
Qed.

Lemma wf_tree_kept w w' : tree_kept w w' → wf w → wf w'.
Proof.
  intros [L S Pa E C _] [N H Hp]. split.
  - intros p. rewrite C. apply N.
  - intros p k. rewrite C, S, Pa, E. apply H.
  - intros c. rewrite E. intros (p & ? & ?)%Hp. exists p. rewrite Pa.
    split; [done|]. by eapply lookup_is_Some_length.
Qed.

Lemma detached_shrinking w w' c : shrinking w w' → detached w c → detached w' c.
Proof. intros [_ _ C _] H p Hc. apply (H p). by apply C. Qed.

Lemma detached_tree_kept w w' c : tree_kept w w' → detached w c → detached w' c.
Proof. intros K H p. rewrite (tk_children _ _ K). apply H. Qed.

(** A [_state] assignment to a context that is in no list of children. *)
Lemma wf_setState c s w : wf w → detached w c → wf (setState c s w).1.
Proof.
  intros [N H Hp] Hc.
  destruct (lookupContext w c) as [x|] eqn:Hx.
  2: { unfold setState. rewrite bind_eq. unfold deref. rewrite Hx. by split. }
  rewrite (setState_Some _ _ _ _ Hx). simpl.
  apply (wf_tree_kept (updateContext (with_state s) c w)); [by split|].
  split.
  - intros p. rewrite children_update by done. apply N.
  - intros p k. rewrite children_update, parent_update, extended_update by done.
    intros Hk. rewrite state_with_state. case_decide; [subst|by apply H].
    by destruct (Hc p).
  - intros d. rewrite extended_update by done. intros (p & ? & ?)%Hp.
    exists p. rewrite parent_update by done. split; [done|].
    eapply lookup_is_Some_length; [|done]. simpl. apply length_alter.
Qed.

(** Taking a child out of its list. *)
Lemma wf_splice p index w :
  wf w → wf (updateContext (λ x, with_children (delete index (_children x)) x) p w).
Proof.
  intros [N H Hp].
  assert (∀ q, children (updateContext
             (λ x, with_children (delete index (_children x)) x) p w) q
           `sublist_of` children w q) as Hsub.
  { intros q. rewrite children_with_children. case_decide; [subst|done].
    destruct (lookupContext w q) eqn:E; [apply sublist_delete|apply sublist_nil_l]. }
  split.
  - intros q. eapply sublist_NoDup; [apply N|apply Hsub].
  - intros q k Hk. rewrite state_update, parent_update, extended_update by done.
    apply H. eapply sublist_subseteq; [apply Hsub|done].
  - intros d. rewrite extended_update by done. intros (q & ? & ?)%Hp.
    exists q. rewrite parent_update by done. split; [done|].
    eapply lookup_is_Some_length; [|done]. simpl. apply length_alter.
Qed.

Lemma indexOf_Some x l i : indexOf x l = Some i → l !! i = Some x ∧ x ∉ take i l.
Proof.
  revert i. induction l as [|y l IH]; intros i; simpl; [done|].
  case_decide as Hy.
  - intros [= <-]. subst. split; [done|]. simpl. apply not_elem_of_nil.
  - destruct (indexOf x l) as [j|]; [|done]. simpl. intros [= <-].
    destruct (IH j eq_refl) as [??]. split; [done|]. simpl.
    rewrite not_elem_of_cons. split; [congruence|done].
Qed.

Lemma indexOf_None x l : indexOf x l = None ↔ x ∉ l.
Proof.
  induction l as [|y l IH]; simpl.
  - split; [intros _; apply not_elem_of_nil|done].
  - case_decide as Hy.
    + subst. split; [done|]. intros []. left.
    + rewrite not_elem_of_cons. destruct (indexOf x l); simpl.
      * split; [done|]. intros [_ ?]. by apply IH in H.
      * split; [|done]. intros _. split; [congruence|]. by apply IH.
Qed.

Lemma delete_take_drop_nat (l : list nat) i : delete i l = take i l ++ drop (S i) l.
Proof. apply delete_take_drop. Qed.

Lemma NoDup_delete_lookup (l : list nat) i x :
  NoDup l → l !! i = Some x → x ∉ delete i l.
Proof.
  intros N Hi. rewrite <-(take_drop_middle l i x Hi) in N.
  rewrite delete_take_drop. apply NoDup_app in N as (N1 & N2 & N3).
  apply NoDup_cons in N3 as [N3 _].
  rewrite elem_of_app. intros [H1|H2]; [|done].
  apply (N2 x H1). left.
Qed.

Lemma elem_of_delete_ne (l : list nat) i x y :
  l !! i = Some x → y ≠ x → y ∈ l → y ∈ delete i l.
Proof.
  intros Hi Hne Hy. rewrite <-(take_drop_middle l i x Hi) in Hy.
  rewrite delete_take_drop. rewrite elem_of_app, elem_of_cons in Hy.
  rewrite elem_of_app. destruct Hy as [?|[?|?]]; [by left|done|by right].
Qed.

Lemma post_bind (Q : World → Prop) {A B} (m : M A) (k : A → M B) w :
  Q (m w).1 →
  (∀ a w1, m w = (w1, Returned a) → Q (k a w1).1) →
  Q ((m ≫= k) w).1.
Proof.
  intros Hm Hk. rewrite bind_eq.
  destruct (m w) as [w1 [a|e|]] eqn:E; simpl in *; try assumption.
  by apply Hk.
Qed.

Section LifecycleWf.
Variable reaction : Observer → Notification → list Unsubscribe.

Lemma invariant_wf_notify l n : invariant wf (notify reaction l n).
Proof.
  eapply invariant_preserves; [|apply preserves_tree_kept_notify].
  apply wf_tree_kept.
Qed.

Lemma invariant_detached_shrinking c {A} (m : M A) :
  preserves shrinking m → invariant (λ w, detached w c) m.
Proof. apply invariant_preserves. intros w w'. apply detached_shrinking. Qed.

Section Step.
Variable end_child : ContextId → M unit.
Hypothesis end_child_shrinks : ∀ k, preserves shrinking (end_child k).
Hypothesis end_child_wf : ∀ k, invariant wf (end_child k).

Lemma invariant_wf_unwind_with c : invariant wf (unwind_with end_child c).
Proof.
  unfold unwind_with. apply invariant_bind; [apply invariant_deref|].
  intros x. apply invariant_bind; [|intros _; apply invariant_ret].
  by apply invariant_forEach.
Qed.

Lemma invariant_wf_end_base_with c :
  invariant (λ w, wf w ∧ detached w c) (end_base_with reaction end_child c).
Proof.
  unfold end_base_with. apply invariant_bind; [apply invariant_deref|].
  intros x. case_decide; [|apply invariant_ret].
  assert (∀ s, invariant (λ w, wf w ∧ detached w c) (setState c s)) as Hset.
  { intros s w [Hw Hc]. split; [by apply wf_setState|].
    eapply detached_shrinking; [apply preserves_shrinking_setState|done]. }
  assert (∀ l n, invariant (λ w, wf w ∧ detached w c) (notify reaction l n)) as Hnot.
  { intros l n. apply invariant_and; [apply invariant_wf_notify|].
    apply invariant_detached_shrinking, preserves_shrinking_notify. }
  assert (invariant (λ w, wf w ∧ detached w c) (unwind_with end_child c)) as Hunw.
  { apply invariant_and; [apply invariant_wf_unwind_with|].
    by apply invariant_detached_shrinking, preserves_shrinking_unwind_with. }
  assert (invariant (λ w, wf w ∧ detached w c) (modify (with_observers None) c))
    as Hmod.
  { apply invariant_and.
    - eapply invariant_preserves; [apply wf_tree_kept|].
      by apply preserves_tree_kept_modify.
    - by apply invariant_detached_shrinking, preserves_shrinking_modify. }
  repeat first
    [apply Hset | apply Hnot | apply Hunw | apply Hmod
    |apply invariant_bind; [|intros ?]].
Qed.

Lemma wf_end_child_with p c w :
  wf w → parent w c = Some p →
  wf (end_child_with reaction end_child p c w).1.
Proof.
  intros Hw Hp. unfold end_child_with. rewrite bind_eq.
  destruct (deref p w) as [w0 [x|e|]] eqn:Hd; simpl;
    try (by unfold deref in Hd; destruct (lookupContext w p); simplify_eq).
  apply deref_returned in Hd as [-> Hx].
  destruct (indexOf c (_children x)) as [index|] eqn:Hi; [|done].
  apply indexOf_Some in Hi as [Hi _].
  apply (post_bind wf); [by apply invariant_wf_notify|intros [] w1 H1].
  apply tree_kept_notify in H1.
  assert (wf w1) as Hw1 by by eapply wf_tree_kept.
  assert (children w1 p = _children x) as Hc1.
  { rewrite (tk_children _ _ H1). unfold children. by rewrite Hx. }
  apply (post_bind wf); [by apply wf_splice|intros [] w2 [= <-]].
  set (w2 := updateContext _ p w1).
  assert (wf w2 ∧ detached w2 c) as Hw2.
  { split; [by apply wf_splice|]. intros q. unfold w2.
    rewrite children_with_children. case_decide; [subst q|].
    - destruct (lookupContext w1 p); [|apply not_elem_of_nil].
      rewrite Hc1. apply NoDup_delete_lookup; [|done].
      rewrite <-Hc1. apply Hw1.
    - intros Hq. apply (wf_child _ Hw1) in Hq as (_ & Hq & _).
      rewrite (tk_parent _ _ H1) in Hq. congruence. }
  apply (post_bind wf).
  { by apply (invariant_wf_end_base_with c w2). }
  intros [] w3 H3. apply invariant_wf_notify.
  pose proof (invariant_wf_end_base_with c w2 Hw2) as [? _].
  by rewrite H3 in H.
Qed.

Lemma invariant_wf_end_with c : invariant wf (end_with reaction end_child c).
Proof.
  intros w Hw. unfold end_with. rewrite bind_eq.
  destruct (deref c w) as [w0 [x|e|]] eqn:Hd; simpl;
    try (by unfold deref in Hd; destruct (lookupContext w c); simplify_eq).
  apply deref_returned in Hd as [-> Hx].
  assert (_extended x = false ∨ _parent x = None →
          wf (end_base_with reaction end_child c w).1) as Hbase.
  { intros Hx'. refine (proj1 (invariant_wf_end_base_with c w _)).
    split; [done|]. intros q Hq.
    apply (wf_child _ Hw) in Hq as (_ & Hq & Hq').
    unfold parent, extended in *. rewrite Hx in *. simpl in *.
    destruct Hx'; congruence. }
  destruct (_extended x) eqn:He; [|by apply Hbase; left].
  destruct (_parent x) as [p|] eqn:Hp; [|by apply Hbase; right].
  apply wf_end_child_with; [done|].
  unfold parent. by rewrite Hx.
Qed.
End Step.

Lemma invariant_wf_end fuel c : invariant wf (end_ reaction fuel c).
Proof.
  revert c. induction fuel as [|fuel IH]; intros c; simpl.
  - apply invariant_diverge.
  - apply invariant_wf_end_with; [apply preserves_shrinking_end|done].
Qed.

Lemma invariant_wf_unwind fuel c : invariant wf (unwind reaction fuel c).
Proof. apply invariant_wf_unwind_with, invariant_wf_end. Qed.
End LifecycleWf.

(** ** Runs that return *)

Lemma bind_returned_inv {A B} (m : M A) (k : A → M B) w w' b :
  (m ≫= k) w = (w', Returned b) →
  ∃ a w1, m w = (w1, Returned a) ∧ k a w1 = (w', Returned b).
Proof.
  rewrite bind_eq. destruct (m w) as [w1 [a|e|]]; [eauto|done..].
Qed.

Lemma ret_returned_inv {A} (a b : A) w w' :
  ret a w = (w', Returned b) → w' = w ∧ b = a.
Proof. by intros [= -> ->]. Qed.

(** [invert_run H as w1 a H1]: the first step of the returning run [H] ends
    in [w1] with [a], which is [H1]; [H] becomes the rest of the run. *)
Tactic Notation "invert_run" hyp(H) "as" ident(w1) simple_intropattern(a) ident(H1) :=
  apply bind_returned_inv in H as (a & w1 & H1 & H).

Lemma forEach_cons {A} (body : A → M unit) x xs :
  forEach body (x :: xs) = (body x ≫= λ _, forEach body xs).
Proof. done. Qed.

(** An unsubscribe function leaves the trace alone. *)
Lemma trace_unsubscribe u w : trace (unsubscribe u w).1 = trace w.
Proof.
  unfold unsubscribe. rewrite bind_eq. unfold deref.
  destruct (lookupContext w (sub_context u)) as [x|]; [|done].
  destruct (_observers x) as [l|]; [|done].
  by destruct (indexOf _ l).
Qed.

Lemma trace_forEach_unsubscribe us w : trace (forEach unsubscribe us w).1 = trace w.
Proof.
  revert w. induction us as [|u us IH]; intros w; [done|].
  rewrite forEach_cons, bind_eq.
  pose proof (trace_unsubscribe u w) as Hu.
  destruct (unsubscribe u w) as [w1 [[]|e|]]; simpl in *; try done.
  by rewrite IH.
Qed.

Section Notify.
Variable reaction : Observer → Notification → list Unsubscribe.

(** A notifier call that returns has invoked the method on every observer
    of the snapshot, in order. *)
Lemma notify_returned l n w w' :
  notify reaction l n w = (w', Returned tt) →
  trace w' = trace w ++ notifications l n.
Proof.
  unfold notify. revert w. induction l as [|o l IH]; intros w.
  - intros [= <-]. by rewrite app_nil_r.
  - rewrite forEach_cons. intros H. invert_run H as w1 [] H1.
    invert_run H1 as w0 [] H0. injection H0 as <-. apply IH in H.
    pose proof (trace_forEach_unsubscribe (reaction o n)
      {| heap := heap w; provided := provided w;
         trace := trace w ++ [Notified o n] |}) as Ht.
    rewrite H1 in Ht. simpl in Ht. rewrite H, Ht. simpl.
    by rewrite <-app_assoc.
Qed.

(** Whatever the outcome, a notifier call has invoked the method on the
    observers of a prefix of the snapshot. *)
Lemma notify_trace l n w :
  ∃ l', l' `prefix_of` l
      ∧ trace (notify reaction l n w).1 = trace w ++ notifications l' n.
Proof.
  unfold notify. revert w. induction l as [|o l IH]; intros w.
  - exists []. split; [done|]. simpl. by rewrite app_nil_r.
  - rewrite forEach_cons, bind_eq.
    destruct ((emit (Notified o n) ≫= λ _, forEach unsubscribe (reaction o n)) w)
      as [w1 o1] eqn:H1.
    assert (trace w1 = trace w ++ [Notified o n]) as Ht.
    { rewrite bind_eq in H1. simpl in H1.
      pose proof (trace_forEach_unsubscribe (reaction o n)
        {| heap := heap w; provided := provided w;
           trace := trace w ++ [Notified o n] |}) as Ht.
      destruct (forEach unsubscribe _ _) as [w2 [[]|e|]]; by simplify_eq. }
    destruct o1 as [[]|e|]; simpl.
    + destruct (IH w1) as (l' & Hl & ->). exists (o :: l').
      split; [by apply prefix_cons|]. rewrite Ht. simpl. by rewrite <-app_assoc.
    + exists [o]. split; [|done]. by apply prefix_cons, prefix_nil.
    + exists [o]. split; [|done]. by apply prefix_cons, prefix_nil.
Qed.
End Notify.

(** ** The end of a context *)

Lemma quiet_filter c t : quiet c t → filter (λ e, announces e = Some c) t = [].
Proof.
  induction 1 as [|e t He _ IH]; [done|].
  rewrite filter_cons. by case_decide.
Qed.

Lemma filter_notifications_announced c l n :
  announces (Notified 0 n) = Some c →
  filter (λ e, announces e = Some c) (notifications l n) = notifications l n.
Proof.
  intros Hn. induction l as [|o l IH]; [done|]. simpl.
  rewrite filter_cons. case_decide as H; [by rewrite IH|].
  by destruct n.
Qed.

Section EndSequence.
Variable reaction : Observer → Notification → list Unsubscribe.

Lemma end_base_with_inactive end_child c w x :
  lookupContext w c = Some x → _state x ≠ Active →
  end_base_with reaction end_child c w = (w, Returned tt).
Proof.
  intros Hx Hs. unfold end_base_with. rewrite (bind_returned _ _ _ _ _ (deref_Some _ _ _ Hx)).
  by case_decide.
Qed.

Lemma unwind_with_returned end_child c w w' r :
  unwind_with end_child c w = (w', Returned r) →
  r = c ∧ ∃ x, lookupContext w c = Some x
             ∧ forEach end_child (_children x) w = (w', Returned tt).
Proof.
  unfold unwind_with. intros H. invert_run H as w0 x Hx.
  apply deref_returned in Hx as [-> Hx]. invert_run H as w1 [] Hf.
  injection H as <- <-. eauto.
Qed.

(** The steps of a run of the class's [end] on an active context. *)
Lemma end_base_with_returned end_child c w x w' :
  lookupContext w c = Some x → _state x = Active →
  end_base_with reaction end_child c w = (w', Returned tt) →
  ∃ w2 w3 w5,
    notify reaction (makeNotifier x) (contextEnding c) (setState c Ending w).1
      = (w2, Returned tt)
    ∧ unwind_with end_child c w2 = (w3, Returned c)
    ∧ notify reaction (makeNotifier x) (contextEnded c) (setState c Ended w3).1
      = (w5, Returned tt)
    ∧ w' = updateContext (with_observers None) c w5.
Proof.
  intros Hx Hs. unfold end_base_with.
  rewrite (bind_returned _ _ _ _ _ (deref_Some _ _ _ Hx)).
  case_decide as Hact; [clear Hact|done]. intros H.
  invert_run H as w1 [] H1. invert_run H as w2 [] H2.
  invert_run H as w3 r H3. invert_run H as w4 [] H4. invert_run H as w5 [] H5.
  injection H as <-. exists w2, w3, w5.
  destruct (unwind_with_returned _ _ _ _ _ H3) as [-> _].
  by rewrite H1, H4.
Qed.
End EndSequence.

Section EndOfContext.
Variable reaction : Observer → Notification → list Unsubscribe.

Lemma state_after_setState c s w :
  is_Some (lookupContext w c) → state (setState c s w).1 c = Some s.
Proof.
  intros [x Hx]. rewrite (setState_Some _ _ _ _ Hx). simpl.
  change (state (updateContext (with_state s) c w) c = Some s).
  rewrite state_with_state. case_decide; [|done]. unfold state. by rewrite Hx.
Qed.

Lemma state_setState c s w d :
  state (setState c s w).1 d
  = if decide (c = d) then (λ _, s) <$> state w d else state w d.
Proof.
  destruct (lookupContext w c) as [x|] eqn:Hx.
  - rewrite (setState_Some _ _ _ _ Hx). apply state_with_state.
  - unfold setState. rewrite bind_eq. unfold deref. rewrite Hx. simpl.
    case_decide; [subst|done]. unfold state. by rewrite Hx.
Qed.

Lemma trace_after_setState c s w x :
  lookupContext w c = Some x →
  trace (setState c s w).1 = trace w ++ [StateSet c (_state x) s].
Proof. intros Hx. by rewrite (setState_Some _ _ _ _ Hx). Qed.

Lemma state_lookup w c x : lookupContext w c = Some x → state w c = Some (_state x).
Proof. unfold state. by intros ->. Qed.

(** The [end] of a context that did not come out of [newChild] is the
    [end] of the class. *)
Lemma end_not_extended fuel c w x :
  lookupContext w c = Some x → _extended x = false →
  end_ reaction (S fuel) c w = end_base reaction fuel c w.
Proof.
  intros Hx He. simpl. unfold end_with.
  rewrite (bind_returned _ _ _ _ _ (deref_Some _ _ _ Hx)). by rewrite He.
Qed.
End EndOfContext.

(** ** Termination of [end] *)

Lemma count_active_le (l l' : list Context) :
  length l' = length l →
  (∀ i x x', l !! i = Some x → l' !! i = Some x' →
             _state x' = Active → _state x = Active) →
  length (filter (λ x, _state x = Active) l')
  ≤ length (filter (λ x, _state x = Active) l).
Proof.
  revert l'. induction l as [|x l IH]; intros [|x' l'] L H; simplify_eq/=; [done|].
  rewrite !filter_cons.
  specialize (IH l' L (λ i, H (S i))).
  pose proof (H 0 x x' eq_refl eq_refl).
  repeat case_decide; simpl; try lia. naive_solver.
Qed.

Lemma count_active_lt (l l' : list Context) c x x' :
  length l' = length l →
  (∀ i x x', l !! i = Some x → l' !! i = Some x' →
             _state x' = Active → _state x = Active) →
  l !! c = Some x → l' !! c = Some x' → _state x = Active → _state x' ≠ Active →
  length (filter (λ x, _state x = Active) l')
  < length (filter (λ x, _state x = Active) l).
Proof.
  revert l' c. induction l as [|y l IH]; intros [|y' l'] c L H Hc Hc' Hx Hx';
    simplify_eq/=.
  rewrite !filter_cons. destruct c as [|c]; simplify_eq/=.
  - pose proof (count_active_le l l' L (λ i, H (S i))).
    repeat case_decide; simpl; try lia; done.
  - specialize (IH l' c L (λ i, H (S i)) Hc Hc' Hx Hx').
    pose proof (H 0 y y' eq_refl eq_refl).
    repeat case_decide; simpl; try lia. naive_solver.
Qed.

Lemma active_le w w' :
  length (heap w') = length (heap w) →
  (∀ d, state w' d = Some Active → state w d = Some Active) →
  active w' ≤ active w.
Proof.
  intros L H. apply count_active_le; [done|].
  intros i x x' Hx Hx' Hs. specialize (H i). unfold state, lookupContext in H.
  rewrite Hx, Hx' in H. simpl in H. rewrite Hs in H. by injection (H eq_refl).
Qed.

Lemma active_lt w w' c :
  length (heap w') = length (heap w) →
  (∀ d, state w' d = Some Active → state w d = Some Active) →
  state w c = Some Active → state w' c ≠ Some Active →
  active w' < active w.
Proof.
  intros L H Hc Hc'.
  apply state_is_Some in Hc as (x & Hx & Hs).
  destruct (lookup_is_Some_length w w' c L) as [x' Hx']; [by eexists|].
  apply (count_active_lt _ _ c x x'); try done.
  - intros i y y' Hy Hy' Hs'. specialize (H i). unfold state, lookupContext in H.
    rewrite Hy, Hy' in H. simpl in H. rewrite Hs' in H. by injection (H eq_refl).
  - intros Hs'. apply Hc'. unfold state. by rewrite Hx'; simpl; f_equal.
Qed.

Lemma active_tree_kept w w' : tree_kept w w' → active w' = active w.
Proof.
  intros K. apply Nat.le_antisymm; apply active_le;
    rewrite ?(tk_length _ _ K); try done; intros d; by rewrite (tk_state _ _ K).
Qed.

Lemma active_evolving w w' :
  length (heap w') = length (heap w) → evolving (λ _, False) w w' →
  active w' ≤ active w.
Proof.
  intros L [_ F _]. apply active_le; [done|]. intros d Hd.
  destruct (lookup_is_Some_length w' w d) as [x Hx]; [done|..].
  { apply state_is_Some in Hd as (? & ? & _). by eexists. }
  destruct (decide (_state x = Active)) as [Hs|Hs].
  - unfold state. by rewrite Hx; simpl; f_equal.
  - specialize (F d (_state x)). rewrite (state_lookup _ _ _ Hx) in F.
    rewrite F in Hd by tauto. by simplify_eq.
Qed.

Lemma closed_shrinking w w' : shrinking w w' → closed w → closed w'.
Proof.
  intros [L S C _] [Hc Hp]. split.
  - intros p k Hk%C. eapply lookup_is_Some_length; [done|]. by eapply Hc.
  - intros c p. destruct (S c) as [-> ->]. intros He Hpa.
    eapply lookup_is_Some_length; [done|]. by eapply Hp.
Qed.

Lemma closed_tree_kept w w' : tree_kept w w' → closed w → closed w'.
Proof.
  intros [L S Pa E C _] [Hc Hp]. split.
  - intros p k. rewrite C. intros Hk.
    eapply lookup_is_Some_length; [done|]. by eapply Hc.
  - intros c p. rewrite E, Pa. intros He Hpa.
    eapply lookup_is_Some_length; [done|]. by eapply Hp.
Qed.

Lemma wf_closed w : wf w → closed w.
Proof.
  intros [N H Hp]. split.
  - intros p k (Hs & _)%H. apply state_is_Some in Hs as (x & ? & _). by eexists.
  - intros c p (q & Hq & ?)%Hp Hpa. congruence.
Qed.

Lemma finishes_intro {A} (m : M A) w w' a : m w = (w', Returned a) → finishes m w.
Proof. intros H. exists a. by rewrite H. Qed.

Lemma finishes_elim {A} (m : M A) w : finishes m w → ∃ w' a, m w = (w', Returned a).
Proof. intros [a H]. exists (m w).1, a. rewrite <-H. by destruct (m w). Qed.

Lemma finishes_ret {A} (a : A) w : finishes (ret a) w.
Proof. by exists a. Qed.

Lemma finishes_bind {A B} (m : M A) (k : A → M B) w :
  finishes m w →
  (∀ a w1, m w = (w1, Returned a) → finishes (k a) w1) →
  finishes (m ≫= k) w.
Proof.
  intros (w1 & a & Hm)%finishes_elim Hk. unfold finishes.
  rewrite (bind_returned _ _ _ _ _ Hm). by eapply Hk.
Qed.

Lemma finishes_deref c w : is_Some (lookupContext w c) → finishes (deref c) w.
Proof. intros [x Hx]. eapply finishes_intro. by apply deref_Some. Qed.

Lemma finishes_setState c s w : is_Some (lookupContext w c) → finishes (setState c s) w.
Proof. intros [x Hx]. eapply finishes_intro. by apply setState_Some. Qed.

Lemma finishes_modify f c w : finishes (modify f c) w.
Proof. by exists tt. Qed.

Lemma finishes_forEach {A} (P : World → Prop) (body : A → M unit) xs w :
  P w → (∀ x, x ∈ xs → invariant P (body x)) →
  (∀ x w, x ∈ xs → P w → finishes (body x) w) →
  finishes (forEach body xs) w.
Proof.
  revert w. induction xs as [|x xs IH]; intros w Hw Hinv Hfin.
  - apply finishes_ret.
  - rewrite forEach_cons. apply finishes_bind.
    + apply Hfin; [left|done].
    + intros [] w1 H1. apply IH.
      * pose proof (Hinv x (list_elem_of_here _ _) w Hw) as H. by rewrite H1 in H.
      * intros y Hy. apply Hinv. by right.
      * intros y w' Hy. apply Hfin. by right.
Qed.

Section Termination.
Variable reaction : Observer → Notification → list Unsubscribe.
Hypothesis reaction_peaceful : peaceful reaction.

Lemma finishes_notify l n w : finishes (notify reaction l n) w.
Proof.
  unfold notify. apply (finishes_forEach (λ _, True)); [done|done|].
  intros o w' _ _. apply finishes_bind; [by exists tt|].
  intros [] w1 _. rewrite reaction_peaceful. apply finishes_ret.
Qed.

Lemma invariant_ready_end bound ks fuel c :
  invariant (ready bound ks) (end_ reaction fuel c).
Proof.
  intros w (Hc & Ha & Hk).
  pose proof (preserves_shrinking_end reaction fuel c w) as Hsh.
  pose proof (preserves_evolving_end reaction fuel c w) as Hev.
  split; [by eapply closed_shrinking|]. split.
  - eapply Nat.le_lt_trans; [|done].
    apply active_evolving; [apply Hsh|done].
  - intros k Hk'. eapply lookup_is_Some_length; [apply Hsh|by apply Hk].
Qed.

Section Step.
Variable fuel : nat.
Hypothesis end_finishes :
  ∀ c w, closed w → active w < fuel → is_Some (lookupContext w c) →
         finishes (end_ reaction fuel c) w.

Lemma finishes_end_base_with c w :
  closed w → active w ≤ fuel → is_Some (lookupContext w c) →
  finishes (end_base_with reaction (end_ reaction fuel) c) w.
Proof.
  intros Hcl Ha [x Hx]. unfold end_base_with.
  apply finishes_bind; [by apply finishes_deref|].
  intros x' w0 [-> Hx']%deref_returned. simplify_eq.
  case_decide as Hact; [|apply finishes_ret].
  apply finishes_bind; [by apply finishes_setState|]. intros [] w1 H1.
  assert (shrinking w w1) as S1.
  { pose proof (preserves_shrinking_setState c Ending w) as H. by rewrite H1 in H. }
  assert (state w1 c = Some Ending) as Hs1.
  { rewrite <-(result_fst _ _ _ _ H1). apply state_after_setState. by eexists. }
  assert (active w1 < active w) as Ha1.
  { apply (active_lt _ _ c);
      [apply S1| |by rewrite (state_lookup _ _ _ Hx), Hact|by rewrite Hs1].
    intros d. rewrite <-(result_fst _ _ _ _ H1), state_setState.
    case_decide; [|done]. by destruct (state w d). }
  apply finishes_bind; [apply finishes_notify|]. intros [] w2 H2.
  apply tree_kept_notify in H2 as K2.
  assert (closed w2) as Hcl2 by (eapply closed_tree_kept, closed_shrinking; done).
  assert (is_Some (lookupContext w2 c)) as Hx2.
  { eapply lookup_is_Some_length; [apply K2|].
    eapply lookup_is_Some_length; [apply S1|by eexists]. }
  apply finishes_bind.
  { unfold unwind_with. apply finishes_bind; [by apply finishes_deref|].
    intros x2 w2' [-> Hx2']%deref_returned.
    apply finishes_bind; [|intros; apply finishes_ret].
    apply (finishes_forEach (ready fuel (_children x2))).
    - split; [done|]. split; [rewrite (active_tree_kept _ _ K2); lia|].
      intros k Hk. apply (closed_children _ Hcl2 c).
      unfold children. by rewrite Hx2'.
    - intros k _. apply invariant_ready_end.
    - intros k w' Hk (? & ? & Hks). apply end_finishes; auto. }
  intros r w3 H3.
  assert (is_Some (lookupContext w3 c)) as Hx3.
  { pose proof (preserves_shrinking_unwind_with (end_ reaction fuel)
                  (preserves_shrinking_end reaction fuel) c w2) as H.
    rewrite H3 in H. eapply lookup_is_Some_length; [apply H|done]. }
  apply finishes_bind; [by apply finishes_setState|]. intros [] w4 H4.
  apply finishes_bind; [apply finishes_notify|]. intros [] w5 H5.
  apply finishes_modify.
Qed.

Lemma finishes_end_with c w :
  closed w → active w ≤ fuel → is_Some (lookupContext w c) →
  finishes (end_with reaction (end_ reaction fuel) c) w.
Proof.
  intros Hcl Ha [x Hx]. unfold end_with.
  apply finishes_bind; [by apply finishes_deref|].
  intros x' w0 [-> Hx']%deref_returned. simplify_eq.
  destruct (_extended x) eqn:He; [|by apply finishes_end_base_with].
  destruct (_parent x) as [p|] eqn:Hp; [|by apply finishes_end_base_with].
  unfold end_child_with. apply finishes_bind.
  { apply finishes_deref. apply (closed_parent _ Hcl c).
    - unfold extended. by rewrite Hx.
    - unfold parent. by rewrite Hx. }
  intros px w0 [-> Hpx]%deref_returned.
  destruct (indexOf c (_children px)); [|apply finishes_ret].
  apply finishes_bind; [apply finishes_notify|]. intros [] w1 H1.
  apply tree_kept_notify in H1 as K1.
  apply finishes_bind; [apply finishes_modify|]. intros [] w2 [= <-].
  set (w2 := updateContext _ p w1).
  assert (shrinking w1 w2) as S2.
  { apply shrinking_update; try done. intros y. simpl.
    apply sublist_subseteq, sublist_delete. }
  assert (active w2 = active w1) as Ha2.
  { apply Nat.le_antisymm; apply active_le; try apply S2; try (symmetry; apply S2).
    all: intros d; unfold w2; by rewrite state_update. }
  apply finishes_bind; [|intros [] w3 H3; apply finishes_notify].
  apply finishes_end_base_with.
  - eapply closed_shrinking, closed_tree_kept; done.
  - rewrite Ha2, (active_tree_kept _ _ K1). done.
  - eapply lookup_is_Some_length; [apply S2|].
    eapply lookup_is_Some_length; [apply K1|by eexists].
Qed.
End Step.

(** With more fuel than active contexts, with no dangling reference and
    with observers that unsubscribe nothing, [c.end()] returns. *)
Lemma finishes_end fuel c w :
  closed w → active w < fuel → is_Some (lookupContext w c) →
  finishes (end_ reaction fuel c) w.
Proof.
  revert c w. induction fuel as [|fuel IH]; intros c w Hcl Ha Hc; [lia|].
  simpl. apply finishes_end_with; [done..|lia|done].
Qed.

Lemma finishes_end_base fuel c w :
  closed w → active w ≤ fuel → is_Some (lookupContext w c) →
  finishes (end_base reaction fuel c) w.
Proof.
  intros. apply finishes_end_base_with; [|done..].
  intros. by apply finishes_end.
Qed.
End Termination.

(** ** The end of a child *)

Lemma indexOf_split x l i :
  indexOf x l = Some i →
  l = take i l ++ x :: drop (S i) l ∧ length (take i l) = i.
Proof.
  intros [Hi _]%indexOf_Some. split; [by rewrite take_drop_middle|].
  apply length_take_le. apply lookup_lt_Some in Hi. lia.
Qed.

Lemma delete_middle (l1 l2 : list nat) x : delete (length l1) (l1 ++ x :: l2) = l1 ++ l2.
Proof. induction l1 as [|y l1 IH]; simpl; [done|]. by rewrite IH. Qed.

(** ** Unwinding *)

Lemma ended_if_removed_refl w : ended_if_removed w w.
Proof. by intros p k ??. Qed.

Lemma ended_if_removed_trans w1 w2 w3 :
  ended_if_removed w1 w2 → ended_if_removed w2 w3 →
  evolving (λ _, False) w2 w3 → ended_if_removed w1 w3.
Proof.
  intros H12 H23 Hev p k Hk Hnk.
  destruct (decide (k ∈ children w2 p)) as [Hin|Hout]; [by eapply H23|].
  apply (ev_frozen _ _ _ Hev k Ended); [tauto| |done]. by eapply H12.
Qed.

Lemma ended_if_removed_children w1 w2 w1' w2' :
  (∀ p, children w1' p = children w1 p) → (∀ p, children w2' p = children w2 p) →
  (∀ k, state w2 k = Some Ended → state w2' k = Some Ended) →
  ended_if_removed w1 w2 → ended_if_removed w1' w2'.
Proof. intros C1 C2 S H p k. rewrite C1, C2. intros ??. apply S. by eapply H. Qed.

Lemma children_setState c s w p : children (setState c s w).1 p = children w p.
Proof.
  destruct (lookupContext w c) as [x|] eqn:Hx.
  - rewrite (setState_Some _ _ _ _ Hx). simpl.
    by apply (children_update (with_state s) c w p).
  - unfold setState. rewrite bind_eq. unfold deref. by rewrite Hx.
Qed.

Section Unwinding.
Variable reaction : Observer → Notification → list Unsubscribe.

Section Step.
Variable end_child : ContextId → M unit.
Hypothesis end_child_shrinks : ∀ k, preserves shrinking (end_child k).
Hypothesis end_child_wf : ∀ k, invariant wf (end_child k).
Hypothesis end_child_evolves :
  ∀ k, preserves (evolving (λ _, False)) (end_child k).
Hypothesis end_child_removes :
  ∀ k w w', wf w → end_child k w = (w', Returned tt) → ended_if_removed w w'.

Lemma forEach_end_removes ks w w' :
  wf w → forEach end_child ks w = (w', Returned tt) → ended_if_removed w w'.
Proof.
  revert w. induction ks as [|k ks IH]; intros w Hw.
  - intros [= <-]. apply ended_if_removed_refl.
  - rewrite forEach_cons. intros H. invert_run H as w1 [] H1.
    eapply ended_if_removed_trans.
    + by eapply end_child_removes.
    + apply IH; [|done]. pose proof (end_child_wf k w Hw) as Hw1.
      by rewrite H1 in Hw1.
    + pose proof (preserves_forEach (evolving (λ _, False)) end_child ks
                    end_child_evolves w1) as Hev.
      by rewrite H in Hev.
Qed.

Lemma end_base_with_ended c w x w' :
  lookupContext w c = Some x → _state x = Active →
  end_base_with reaction end_child c w = (w', Returned tt) →
  state w' c = Some Ended.
Proof.
  intros Hx Hact Hrun.
  destruct (end_base_with_returned _ _ _ _ _ _ Hx Hact Hrun)
    as (w2 & w3 & w5 & H2 & H3 & H5 & ->).
  pose proof (tree_kept_notify _ _ _ _ _ _ H2) as K2.
  pose proof (tree_kept_notify _ _ _ _ _ _ H5) as K5.
  pose proof (preserves_shrinking_setState c Ending w) as S1.
  pose proof (preserves_shrinking_unwind_with end_child end_child_shrinks c w2)
    as S3.
  rewrite H3 in S3. simpl in S3.
  rewrite state_update by done. rewrite (tk_state _ _ K5).
  apply state_after_setState.
  eapply lookup_is_Some_length; [apply S3|].
  eapply lookup_is_Some_length; [apply K2|].
  eapply lookup_is_Some_length; [apply S1|by eexists].
Qed.

Lemma end_base_with_removes c w w' :
  wf w → detached w c →
  end_base_with reaction end_child c w = (w', Returned tt) →
  ended_if_removed w w'.
Proof.
  intros Hw Hc Hrun.
  assert (is_Some (lookupContext w c)) as [x Hx].
  { unfold end_base_with in Hrun. invert_run Hrun as w0 x Hx.
    apply deref_returned in Hx as [_ Hx]. by eexists. }
  destruct (decide (_state x = Active)) as [Hact|Hact].
  2: { rewrite (end_base_with_inactive _ _ _ _ _ Hx Hact) in Hrun.
       injection Hrun as <-. apply ended_if_removed_refl. }
  destruct (end_base_with_returned _ _ _ _ _ _ Hx Hact Hrun)
    as (w2 & w3 & w5 & H2 & H3 & H5 & ->).
  pose proof (tree_kept_notify _ _ _ _ _ _ H2) as K2.
  pose proof (tree_kept_notify _ _ _ _ _ _ H5) as K5.
  assert (wf w2) as Hw2.
  { eapply wf_tree_kept; [done|]. by apply wf_setState. }
  apply unwind_with_returned in H3 as (_ & x2 & Hx2 & H3).
  apply forEach_end_removes in H3; [|done].
  eapply ended_if_removed_children; [| | |exact H3].
  - intros p. rewrite (tk_children _ _ K2). symmetry. apply children_setState.
  - intros p. rewrite children_update by done. rewrite (tk_children _ _ K5).
    apply children_setState.
  - intros k Hk. rewrite state_update by done. rewrite (tk_state _ _ K5).
    rewrite state_setState. case_decide; [|done]. by rewrite Hk.
Qed.

Lemma end_child_with_removes p c w w' :
  wf w → parent w c = Some p →
  end_child_with reaction end_child p c w = (w', Returned tt) →
  ended_if_removed w w'.
Proof.
  intros Hw Hp Hrun. unfold end_child_with in Hrun.
  invert_run Hrun as w0 px Hpx. apply deref_returned in Hpx as [-> Hpx].
  destruct (indexOf c (_children px)) as [index|] eqn:Hi.
  2: { injection Hrun as <-. apply ended_if_removed_refl. }
  apply indexOf_Some in Hi as [Hi _].
  invert_run Hrun as w1 [] H1. invert_run Hrun as w2' [] H2.
  invert_run Hrun as w3 [] H3. injection H2 as <-.
  set (w2 := updateContext _ p w1) in *.
  pose proof (tree_kept_notify _ _ _ _ _ _ H1) as K1.
  pose proof (tree_kept_notify _ _ _ _ _ _ Hrun) as K3.
  assert (wf w1) as Hw1 by by eapply wf_tree_kept.
  assert (children w1 p = _children px) as Hc1.
  { rewrite (tk_children _ _ K1). unfold children. by rewrite Hpx. }
  assert (is_Some (lookupContext w1 p)) as [px1 Hpx1].
  { eapply lookup_is_Some_length; [apply K1|by eexists]. }
  assert (children w2 p = delete index (_children px)) as Hc2.
  { unfold w2. rewrite children_with_children. case_decide; [|done].
    by rewrite Hpx1, Hc1. }
  assert (wf w2 ∧ detached w2 c) as [Hw2 Hd2].
  { split; [by apply wf_splice|]. intros q.
    destruct (decide (q = p)) as [->|Hq].
    - rewrite Hc2. apply NoDup_delete_lookup; [|done].
      rewrite <-Hc1. apply Hw1.
    - unfold w2. rewrite children_with_children. case_decide; [done|].
      intros Hin. apply (wf_child _ Hw1) in Hin as (_ & Hin & _).
      rewrite (tk_parent _ _ K1) in Hin. congruence. }
  assert (state w2 c = Some Active) as Hs2.
  { unfold w2. rewrite state_update by done.
    apply (wf_child _ Hw1 p). rewrite Hc1. by eapply list_elem_of_lookup_2. }
  assert (state w3 c = Some Ended) as Hs3.
  { apply state_is_Some in Hs2 as (x2 & Hx2 & Hst2).
    by eapply end_base_with_ended. }
  pose proof (end_base_with_removes c w2 w3 Hw2 Hd2 H3) as Hr.
  intros q k Hk Hnk. rewrite (tk_state _ _ K3).
  rewrite (tk_children _ _ K3) in Hnk. rewrite <-(tk_children _ _ K1) in Hk.
  destruct (decide (k = c)) as [->|Hkc]; [done|].
  apply (Hr q); [|done]. unfold w2. rewrite children_with_children.
  case_decide; [subst q|done]. rewrite Hpx1.
  rewrite Hc1 in Hk |- *. by eapply elem_of_delete_ne.
Qed.

Lemma end_child_with_ended p c w w' :
  wf w → c ∈ children w p →
  end_child_with reaction end_child p c w = (w', Returned tt) →
  state w' c = Some Ended.
Proof.
  intros Hw Hc Hrun. unfold end_child_with in Hrun.
  invert_run Hrun as w0 px Hpx. apply deref_returned in Hpx as [-> Hpx].
  assert (children w p = _children px) as Hcp.
  { unfold children. by rewrite Hpx. }
  destruct (indexOf c (_children px)) as [index|] eqn:Hi.
  2: { apply indexOf_None in Hi. by rewrite Hcp in Hc. }
  invert_run Hrun as w1 [] H1. invert_run Hrun as w2' [] H2.
  invert_run Hrun as w3 [] H3. injection H2 as <-.
  pose proof (tree_kept_notify _ _ _ _ _ _ H1) as K1.
  pose proof (tree_kept_notify _ _ _ _ _ _ Hrun) as K3.
  rewrite (tk_state _ _ K3).
  assert (state w c = Some Active) as Hs by by apply (wf_child _ Hw p).
  rewrite <-(tk_state _ _ K1) in Hs.
  rewrite <-(state_update (λ x, with_children (delete index (_children x)) x) p)
    in Hs by done.
  apply state_is_Some in Hs as (x2 & Hx2 & Hst2).
  by eapply end_base_with_ended.
Qed.

Lemma wf_detached w c x :
  wf w → lookupContext w c = Some x →
  _extended x = false ∨ _parent x = None → detached w c.
Proof.
  intros Hw Hx Hx' q Hq.
  apply (wf_child _ Hw) in Hq as (_ & Hq & Hq').
  unfold parent, extended in *. rewrite Hx in *. simpl in *.
  destruct Hx'; congruence.
Qed.

Lemma end_with_removes c w w' :
  wf w → end_with reaction end_child c w = (w', Returned tt) →
  ended_if_removed w w'.
Proof.
  intros Hw Hrun. unfold end_with in Hrun.
  invert_run Hrun as w0 x Hx. apply deref_returned in Hx as [-> Hx].
  destruct (_extended x) eqn:He.
  2: { eapply end_base_with_removes; [done| |done].
       eapply wf_detached; eauto. }
  destruct (_parent x) as [p|] eqn:Hp.
  2: { eapply end_base_with_removes; [done| |done].
       eapply wf_detached; eauto. }
  eapply end_child_with_removes; [done| |done].
  unfold parent. by rewrite Hx.
Qed.

Lemma end_with_ended p c w w' :
  wf w → c ∈ children w p →
  end_with reaction end_child c w = (w', Returned tt) →
  state w' c = Some Ended.
Proof.
  intros Hw Hc Hrun. unfold end_with in Hrun.
  invert_run Hrun as w0 x Hx. apply deref_returned in Hx as [-> Hx].
  destruct (wf_child _ Hw _ _ Hc) as (_ & Hp & He).
  unfold parent, extended in Hp, He. rewrite Hx in Hp, He. simpl in Hp, He.
  rewrite He, Hp in Hrun. by eapply end_child_with_ended.
Qed.
End Step.

Lemma end_removes fuel c w w' :
  wf w → end_ reaction fuel c w = (w', Returned tt) → ended_if_removed w w'.
Proof.
  revert c w w'. induction fuel as [|fuel IH]; intros c w w' Hw; [done|].
  simpl. apply end_with_removes; try done.
  - apply preserves_shrinking_end.
  - apply invariant_wf_end.
  - apply preserves_evolving_end.
Qed.

Lemma end_ended fuel p c w w' :
  wf w → c ∈ children w p →
  end_ reaction fuel c w = (w', Returned tt) → state w' c = Some Ended.
Proof.
  destruct fuel as [|fuel]; [done|]. simpl.
  apply end_with_ended. apply preserves_shrinking_end.
Qed.

(** Ending the children of a snapshot one after the other leaves each of
    them ended, whatever the earlier calls took out of the list. *)
Lemma forEach_end_ended fuel c ks w0 w w' :
  wf w0 → wf w → evolving (λ _, False) w0 w → ended_if_removed w0 w →
  (∀ k, k ∈ ks → k ∈ children w0 c) →
  forEach (end_ reaction fuel) ks w = (w', Returned tt) →
  ∀ k, k ∈ ks → state w' k = Some Ended.
Proof.
  intros Hw0. revert w. induction ks as [|k ks IH]; intros w Hw Hev Hr Hks Hrun.
  { by intros k ?%elem_of_nil. }
  rewrite forEach_cons in Hrun. invert_run Hrun as w1 [] H1.
  pose proof (preserves_evolving_end reaction fuel k w) as Hev1.
  pose proof (invariant_wf_end reaction fuel k w Hw) as Hw1.
  rewrite H1 in Hev1, Hw1. simpl in Hev1, Hw1.
  pose proof (end_removes _ _ _ _ Hw H1) as Hr1.
  assert (state w1 k = Some Ended) as Hk.
  { destruct (decide (k ∈ children w c)) as [Hin|Hout].
    - exact (end_ended fuel c k w w1 Hw Hin H1).
    - apply (ev_frozen _ _ _ Hev1 k Ended); [tauto| |done].
      apply (Hr c); [|done]. apply Hks. left. }
  intros k' [->|Hk']%elem_of_cons.
  - pose proof (preserves_forEach (evolving (λ _, False)) (end_ reaction fuel) ks
                  (preserves_evolving_end reaction fuel) w1) as Hev'.
    rewrite Hrun in Hev'. apply (ev_frozen _ _ _ Hev' k Ended); [tauto|done..].
  - apply (IH w1); try done.
    + by etransitivity.
    + by eapply ended_if_removed_trans.
    + intros k'' ?. apply Hks. by right.
Qed.
End Unwinding.

Section EndTheorem.
Variable reaction : Observer → Notification → list Unsubscribe.

(** In a tree as [newChild] and [end] keep it, [c.end()] on a context
    that is not active changes nothing, also through the [end] that
    [newChild] has put on a child. *)
Lemma end_inactive fuel c w x :
  wf w → lookupContext w c = Some x → _state x ≠ Active →
  end_ reaction (S fuel) c w = (w, Returned tt).
Proof.
  intros Hw Hx Hs. simpl. unfold end_with.
  rewrite (bind_returned _ _ _ _ _ (deref_Some _ _ _ Hx)).
  destruct (_extended x) eqn:He; [|by eapply end_base_with_inactive].
  destruct (_parent x) as [p|] eqn:Hp; [|by eapply end_base_with_inactive].
  destruct (wf_parent _ Hw c) as (p' & Hp' & [px Hpx]).
  { unfold extended. by rewrite Hx. }
  unfold parent in Hp'. rewrite Hx in Hp'. simpl in Hp'. simplify_eq.
  unfold end_child_with. rewrite (bind_returned _ _ _ _ _ (deref_Some _ _ _ Hpx)).
  destruct (indexOf c (_children px)) as [index|] eqn:Hi; [|done].
  apply indexOf_Some in Hi as [Hi _].
  assert (c ∈ children w p) as Hin.
  { unfold children. rewrite Hpx. simpl. by eapply list_elem_of_lookup_2. }
  apply (wf_child _ Hw) in Hin as (Hact & _).
  rewrite (state_lookup _ _ _ Hx) in Hact. by simplify_eq.
Qed.
End EndTheorem.

Lemma walk_assignments c s t s' :
  walk c s t = Some s' →
  assignments c t =
    match s, s' with
    | Active, Ending => [(Active, Ending)]
    | Active, Ended => [(Active, Ending); (Ending, Ended)]
    | Ending, Ended => [(Ending, Ended)]
    | _, _ => []
    end.
Proof.
  revert s. induction t as [|e t IH]; intros s; simpl.
  - intros [= <-]. by destruct s.
  - destruct e as [| d from to |]; try apply IH.
    case_decide; [subst d|apply IH].
    case_decide as Hs; [|done]. destruct Hs as [<- Hs].
    intros Hw. pose proof (walk_monotone _ _ _ _ Hw) as Hle.
    rewrite (IH _ Hw).
    destruct from, to, s'; simplify_eq/=; done || lia.
Qed.

Section UnwindTheorem.
Variable reaction : Observer → Notification → list Unsubscribe.

(** C8.  [unwind()] on a context [c] of a tree as [newChild] and [end]
    keep it.  It reads the children of [c] once and calls [end()] on each
    of them in order, whatever the calls take out of the list meanwhile.
    When it returns, it returns [c]; every child of the snapshot has been
    ended exactly once, its state having been set to [Ending] and then to
    [Ended] and never otherwise; and [c] has no children left.  With
    observers that unsubscribe nothing and with more fuel than active
    contexts it does return. *)
Theorem unwind_ends_snapshot fuel c w x :
  wf w → lookupContext w c = Some x →
  unwind reaction fuel c w
  = (forEach (end_ reaction fuel) (_children x) ≫= λ _, ret c) w
  ∧ (∀ w' r, unwind reaction fuel c w = (w', Returned r) →
     r = c
     ∧ children w' c = []
     ∧ ∃ t, trace w' = trace w ++ t
          ∧ ∀ k, k ∈ _children x →
              state w k = Some Active
              ∧ state w' k = Some Ended
              ∧ assignments k t = [(Active, Ending); (Ending, Ended)])
  ∧ (peaceful reaction → active w < fuel →
     finishes (unwind reaction fuel c) w).
Proof.
  intros Hw Hx.
  assert (children w c = _children x) as Hcx.
  { unfold children. by rewrite Hx. }
  split; [|split].
  - unfold unwind, unwind_with.
    by rewrite (bind_returned _ _ _ _ _ (deref_Some _ _ _ Hx)).
  - intros w' r Hrun.
    pose proof (preserves_evolving_unwind reaction fuel c w) as Hev.
    pose proof (preserves_shrinking_unwind reaction fuel c w) as Hsh.
    pose proof (invariant_wf_unwind reaction fuel c w Hw) as Hw'.
    rewrite Hrun in Hev, Hsh, Hw'. simpl in Hev, Hsh, Hw'.
    apply unwind_with_returned in Hrun as (-> & x' & Hx' & Hrun).
    simplify_eq. split; [done|].
    assert (∀ k, k ∈ _children x → state w' k = Some Ended) as Hended.
    { apply (forEach_end_ended reaction fuel c (_children x) w w w'); try done.
      - apply ended_if_removed_refl.
      - intros k. by rewrite Hcx. }
    split.
    + destruct (children w' c) as [|k ks] eqn:Hc'; [done|].
      assert (k ∈ children w' c) as Hk by (rewrite Hc'; left).
      apply (wf_child _ Hw') in Hk as Hk'. destruct Hk' as (Hact & _).
      apply (sh_children _ _ Hsh) in Hk. rewrite Hcx in Hk.
      rewrite (Hended k Hk) in Hact. done.
    + destruct Hev as [_ _ (t & Ht & Hwalk & _)]. exists t. split; [done|].
      intros k Hk.
      assert (state w k = Some Active) as Hact.
      { apply (wf_child _ Hw c). by rewrite Hcx. }
      split; [done|]. split; [by apply Hended|].
      specialize (Hwalk k). unfold known in Hwalk.
      rewrite Hact, (Hended k Hk) in Hwalk. simpl in Hwalk.
      by rewrite (walk_assignments _ _ _ _ Hwalk).
  - intros Hpe Ha. unfold unwind, unwind_with.
    apply finishes_bind; [apply finishes_deref; by eexists|].
    intros x' w0 [-> Hx']%deref_returned. simplify_eq.
    apply finishes_bind; [|intros; apply finishes_ret].
    apply (finishes_forEach (ready fuel (_children x))).
    + split; [by apply wf_closed|]. split; [done|].
      intros k Hk. apply (closed_children _ (wf_closed _ Hw) c). by rewrite Hcx.
    + intros k _. apply invariant_ready_end.
    + intros k w' Hk (? & ? & Hks). apply finishes_end; auto.
Qed.
End UnwindTheorem.

Section EndSequenceByReaction.
Variable reaction : Observer → Notification → list Unsubscribe.

(** The [end()] of the class under observers that only unsubscribe:
    its steps on an active context, and what they leave of the
    children in a tree as [newChild] and [end] keep it. *)
Lemma end_sequence_by_reaction fuel c w x :
  lookupContext w c = Some x →
  let snapshot := makeNotifier x in
  (_state x ≠ Active → end_base reaction fuel c w = (w, Returned tt))
  ∧ (_state x = Active →
     ∀ w', end_base reaction fuel c w = (w', Returned tt) →
     ∃ w2 w3 w5 t,
       notify reaction snapshot (contextEnding c) (setState c Ending w).1
         = (w2, Returned tt)
       ∧ state w2 c = Some Ending
       ∧ unwind reaction fuel c w2 = (w3, Returned c)
       ∧ children w2 c = _children x
       ∧ forEach (end_ reaction fuel) (_children x) w2 = (w3, Returned tt)
       ∧ trace w3 = trace w2 ++ t ∧ quiet c t
       ∧ state w3 c = Some Ending
       ∧ notify reaction snapshot (contextEnded c) (setState c Ended w3).1
         = (w5, Returned tt)
       ∧ w' = updateContext (with_observers None) c w5
       ∧ trace w' = trace w
           ++ [StateSet c Active Ending]
           ++ notifications snapshot (contextEnding c)
           ++ t
           ++ [StateSet c Ending Ended]
           ++ notifications snapshot (contextEnded c)
       ∧ state w' c = Some Ended
       ∧ observers w' c = None
       ∧ (∀ fuel', end_base reaction fuel' c w' = (w', Returned tt))
       ∧ filter (λ e, announces e = Some c)
           ([StateSet c Active Ending]
            ++ notifications snapshot (contextEnding c)
            ++ t
            ++ [StateSet c Ending Ended]
            ++ notifications snapshot (contextEnded c))
         = notifications snapshot (contextEnding c)
           ++ notifications snapshot (contextEnded c)
       ∧ (wf w → detached w c →
          children w' c = []
          ∧ ∀ k, k ∈ _children x →
              state w k = Some Active
              ∧ state w' k = Some Ended
              ∧ assignments k t = [(Active, Ending); (Ending, Ended)]))
  ∧ (peaceful reaction → closed w → active w ≤ fuel →
     finishes (end_base reaction fuel c) w)
  ∧ (wf w → _state x ≠ Active →
     ∀ fuel', end_ reaction (S fuel') c w = (w, Returned tt))
  ∧ (_extended x = false ∨ _parent x = None →
     end_ reaction (S fuel) c w = end_base reaction fuel c w)
  ∧ (∀ p px index,
       _extended x = true → _parent x = Some p →
       lookupContext w p = Some px → indexOf c (_children px) = Some index →
       end_ reaction (S fuel) c w
       = (notify reaction (makeNotifier px) (childContextEnding c) ≫= λ _,
          modify (λ y, with_children (delete index (_children y)) y) p ≫= λ _,
          end_base reaction fuel c ≫= λ _,
          notify reaction (makeNotifier px) (childContextEnded c)) w).
Proof.
  intros Hx snapshot. split; [by apply end_base_with_inactive|].
  split; [|split;
    [intros; apply finishes_end_base; by eauto
    |split; [intros; by eapply end_inactive|]]].
  2: { split.
       - intros Hroot. simpl. unfold end_with.
         rewrite (bind_returned _ _ _ _ _ (deref_Some _ _ _ Hx)).
         destruct Hroot as [-> | ->]; [done|]. by destruct (_extended x).
       - intros p px index He Hp Hpx Hi. simpl. unfold end_with.
         rewrite (bind_returned _ _ _ _ _ (deref_Some _ _ _ Hx)), He, Hp.
         unfold end_child_with.
         by rewrite (bind_returned _ _ _ _ _ (deref_Some _ _ _ Hpx)), Hi. }
  intros Hact w' Hrun.
  destruct (end_base_with_returned _ _ _ _ _ _ Hx Hact Hrun)
    as (w2 & w3 & w5 & H2 & H3 & H5 & ->).
  pose proof (tree_kept_notify _ _ _ _ _ _ H2) as K2.
  pose proof (tree_kept_notify _ _ _ _ _ _ H5) as K5.
  assert (state w2 c = Some Ending) as Hs2.
  { rewrite (tk_state _ _ K2). apply state_after_setState. by eexists. }
  assert (children w2 c = _children x) as Hc2.
  { rewrite (tk_children _ _ K2), children_setState. unfold children.
    by rewrite Hx. }
  assert (forEach (end_ reaction fuel) (_children x) w2 = (w3, Returned tt)) as Hfor.
  { destruct (unwind_with_returned _ _ _ _ _ H3) as (_ & x2 & Hx2 & Hfor).
    rewrite <-Hc2. unfold children. by rewrite Hx2. }
  pose proof (preserves_evolving_unwind reaction fuel c w2) as Hev.
  unfold unwind in Hev. rewrite H3 in Hev. simpl in Hev.
  destruct Hev as [L3 F3 (t & Ht & Hwalk & Q3)].
  assert (state w3 c = Some Ending) as Hs3.
  { apply (F3 c Ending); [tauto|done..]. }
  apply state_is_Some in Hs3 as Hx3. destruct Hx3 as (x3 & Hx3 & Hst3).
  assert (state w5 c = Some Ended) as Hs5.
  { rewrite (tk_state _ _ K5). apply state_after_setState. by eexists. }
  assert (quiet c t) as Hq by (apply (Q3 c Ending); [tauto|done..]).
  assert (∀ d, children (updateContext (with_observers None) c w5) d = children w3 d)
    as Hc5.
  { intros d. rewrite children_update by done. rewrite (tk_children _ _ K5).
    apply children_setState. }
  assert (∀ d, state w3 d = Some Ended →
               state (updateContext (with_observers None) c w5) d = Some Ended) as Hs53.
  { intros d Hd. rewrite state_update by done.
    rewrite (tk_state _ _ K5), state_setState. case_decide; [|done]. by rewrite Hd. }
  assert (wf w → detached w c →
          children (updateContext (with_observers None) c w5) c = []
          ∧ ∀ k, k ∈ _children x →
              state w k = Some Active
              ∧ state (updateContext (with_observers None) c w5) k = Some Ended
              ∧ assignments k t = [(Active, Ending); (Ending, Ended)]) as Hkids.
  { intros Hw Hdet.
    assert (wf w2) as Hw2.
    { eapply wf_tree_kept; [done|]. by apply wf_setState. }
    pose proof (invariant_wf_unwind reaction fuel c w2 Hw2) as Hw3.
    pose proof (preserves_shrinking_unwind reaction fuel c w2) as Hsh.
    unfold unwind in Hw3, Hsh. rewrite H3 in Hw3, Hsh. simpl in Hw3, Hsh.
    assert (∀ k, k ∈ _children x → state w3 k = Some Ended) as Hended.
    { apply (forEach_end_ended reaction fuel c (_children x) w2 w2 w3); try done.
      - apply ended_if_removed_refl.
      - intros k. by rewrite Hc2. }
    split.
    - rewrite Hc5. destruct (children w3 c) as [|k ks] eqn:Hc3; [done|].
      assert (k ∈ children w3 c) as Hk by (rewrite Hc3; left).
      apply (wf_child _ Hw3) in Hk as Hk'. destruct Hk' as (Hka & _).
      apply (sh_children _ _ Hsh) in Hk. rewrite Hc2 in Hk.
      rewrite (Hended k Hk) in Hka. done.
    - intros k Hkx.
      assert (k ∈ children w c) as Hk by (unfold children; by rewrite Hx).
      assert (k ≠ c) as Hkc by (intros ->; by apply (Hdet c)).
      destruct (wf_child _ Hw _ _ Hk) as (Hka & _).
      split; [done|]. split; [by apply Hs53, Hended|].
      assert (state w2 k = Some Active) as Hk2.
      { rewrite (tk_state _ _ K2), state_setState. by case_decide. }
      specialize (Hwalk k). unfold known in Hwalk.
      rewrite Hk2, (Hended k Hkx) in Hwalk. simpl in Hwalk.
      by rewrite (walk_assignments _ _ _ _ Hwalk). }
  exists w2, w3, w5, t. split_and!; try done.
  - simpl. rewrite (notify_returned _ _ _ _ _ H5).
    rewrite (trace_after_setState _ _ _ _ Hx3), Ht.
    rewrite (notify_returned _ _ _ _ _ H2).
    rewrite (trace_after_setState _ _ _ _ Hx), Hact, Hst3.
    by rewrite <-!app_assoc.
  - by rewrite state_update.
  - unfold observers. rewrite lookup_update_eq.
    by destruct (lookupContext w5 c).
  - intros fuel'. apply state_is_Some in Hs5 as (x5 & Hx5 & Hst5).
    eapply end_base_with_inactive.
    + rewrite lookup_update_eq, Hx5. done.
    + simpl. by rewrite Hst5.
  - rewrite !filter_app, (quiet_filter _ _ Hq).
    rewrite !filter_notifications_announced by done.
    rewrite !filter_cons, filter_nil. simpl. done.
Qed.
End EndSequenceByReaction.

Section EndOfChild.
Variable reaction : Observer → Notification → list Unsubscribe.

Lemma end_base_returned_evolving fuel c w w' o :
  end_base reaction fuel c w = (w', o) →
  evolving (λ _, False) w w' ∧ shrinking w w'.
Proof.
  intros H. split.
  - pose proof (preserves_evolving_end_base reaction fuel c w) as He.
    by rewrite H in He.
  - pose proof (preserves_shrinking_end_base_with reaction (end_ reaction fuel)
                  (preserves_shrinking_end reaction fuel) c w) as Hs.
    unfold end_base in H. by rewrite H in Hs.
Qed.

(** With observers that only unsubscribe: the [end()] of a child [c]
    that came out of [p.newChild()], in a tree as [newChild] and [end]
    keep it.  When [c] is not among the
    children of [p] the call returns and changes nothing.  When it is, a
    call that returns has, in this order: invoked [childContextEnding(c)]
    on every observer of the snapshot of the observers of [p]; taken [c],
    still active, out of the children of [p]; run the [end()] of the
    class on [c], which leaves [c] ended; invoked [childContextEnded(c)]
    on every observer of the same snapshot.  With observers that
    unsubscribe nothing and with more fuel than active contexts the call
    does return. *)
Lemma child_end_sequence fuel p c w x px :
  wf w →
  lookupContext w c = Some x → _extended x = true → _parent x = Some p →
  lookupContext w p = Some px →
  let snapshot := makeNotifier px in
  (c ∉ _children px → end_ reaction (S fuel) c w = (w, Returned tt))
  ∧ (c ∈ _children px →
     ∀ w', end_ reaction (S fuel) c w = (w', Returned tt) →
     ∃ w1 w3 l1 l2 t,
       notify reaction snapshot (childContextEnding c) w = (w1, Returned tt)
       ∧ children w1 p = l1 ++ c :: l2
       ∧ (let w2 := updateContext
                      (λ y, with_children (delete (length l1) (_children y)) y) p w1 in
          children w2 p = l1 ++ l2
          ∧ (c ∉ l1 ++ l2)
          ∧ state w2 c = Some Active
          ∧ end_base reaction fuel c w2 = (w3, Returned tt)
          ∧ trace w3 = trace w2 ++ t
          ∧ state w3 c = Some Ended
          ∧ notify reaction snapshot (childContextEnded c) w3 = (w', Returned tt)
          ∧ trace w' = trace w
              ++ notifications snapshot (childContextEnding c)
              ++ t
              ++ notifications snapshot (childContextEnded c)
          ∧ state w' c = Some Ended
          ∧ c ∉ children w' p))
  ∧ (peaceful reaction → active w ≤ fuel →
     finishes (end_ reaction (S fuel) c) w).
Proof.
  intros Hw Hx He Hp Hpx snapshot.
  assert (end_ reaction (S fuel) c w
          = end_child_with reaction (end_ reaction fuel) p c w) as Hend.
  { simpl. unfold end_with.
    rewrite (bind_returned _ _ _ _ _ (deref_Some _ _ _ Hx)). by rewrite He, Hp. }
  split; [|split].
  - intros Hc%indexOf_None. rewrite Hend. unfold end_child_with.
    rewrite (bind_returned _ _ _ _ _ (deref_Some _ _ _ Hpx)). by rewrite Hc.
  - intros Hc w' Hrun. rewrite Hend in Hrun. unfold end_child_with in Hrun.
    rewrite (bind_returned _ _ _ _ _ (deref_Some _ _ _ Hpx)) in Hrun.
    destruct (indexOf c (_children px)) as [index|] eqn:Hi;
      [|by apply indexOf_None in Hi].
    apply indexOf_split in Hi as [Hl Hlen].
    set (l1 := take index (_children px)) in *.
    set (l2 := drop (S index) (_children px)) in *.
    invert_run Hrun as w1 [] H1. invert_run Hrun as w2' [] H2.
    invert_run Hrun as w3 [] H3.
    injection H2 as <-.
    pose proof (tree_kept_notify _ _ _ _ _ _ H1) as K1.
    pose proof (tree_kept_notify _ _ _ _ _ _ Hrun) as K3.
    assert (children w p = l1 ++ c :: l2) as Hcw.
    { unfold children. by rewrite Hpx. }
    assert (children w1 p = l1 ++ c :: l2) as Hc1.
    { by rewrite (tk_children _ _ K1). }
    assert (NoDup (l1 ++ c :: l2)) as Hnd.
    { rewrite <-Hcw. apply Hw. }
    assert (c ∉ l1 ++ l2) as Hnin.
    { apply NoDup_app in Hnd as (_ & Hd & [? _]%NoDup_cons).
      rewrite elem_of_app. intros [Hin|Hin]; [|done]. apply (Hd c Hin). left. }
    assert (state w c = Some Active) as Hact.
    { apply (wf_child _ Hw p). rewrite Hcw, elem_of_app, elem_of_cons. auto. }
    destruct (lookup_is_Some_length w w1 p (tk_length _ _ K1))
      as [px1 Hpx1]; [by eexists|].
    exists w1, w3, l1, l2.
    destruct (end_base_returned_evolving _ _ _ _ _ H3) as [[_ _ (t & Ht & _)] S3].
    exists t. split; [done|]. split; [done|]. simpl.
    rewrite Hlen.
    set (w2 := updateContext _ p w1) in *.
    assert (children w2 p = l1 ++ l2) as Hc2.
    { unfold w2. rewrite children_with_children. case_decide; [|done].
      rewrite Hpx1, Hc1, <-Hlen. apply delete_middle. }
    assert (state w2 c = Some Active) as Hs2.
    { unfold w2. rewrite state_update by done. by rewrite (tk_state _ _ K1). }
    assert (state w3 c = Some Ended) as Hs3.
    { apply state_is_Some in Hs2 as (x2 & Hx2 & Hst2).
      eapply end_base_with_ended; [apply preserves_shrinking_end|done..]. }
    repeat split; try done.
    + rewrite (notify_returned _ _ _ _ _ Hrun), Ht. unfold w2. simpl.
      rewrite (notify_returned _ _ _ _ _ H1). by rewrite <-!app_assoc.
    + by rewrite (tk_state _ _ K3).
    + rewrite (tk_children _ _ K3). intros Hin. apply Hnin.
      rewrite <-Hc2. by apply (sh_children _ _ S3).
  - intros Hpe Ha. apply finishes_end; [done|by apply wf_closed|lia|by eexists].
Qed.
End EndOfChild.

(** ** Callback dispatch *)

Lemma tree_of_update f c w :
  (∀ x, _parent (f x) = _parent x) → (∀ x, _children (f x) = _children x) →
  tree_of (updateContext f c w) = tree_of w.
Proof.
  intros Hp Hc. unfold tree_of. simpl. apply list_eq. intros i.
  rewrite !list_lookup_fmap, list_lookup_alter.
  case_decide; [subst|done]. destruct (heap w !! i); simpl; [|done].
  by rewrite Hp, Hc.
Qed.

Lemma lookup_update_is_Some f c w n :
  is_Some (lookupContext (updateContext f c w) n) ↔ is_Some (lookupContext w n).
Proof.
  rewrite lookup_update. case_decide; [subst|done].
  destruct (lookupContext w n); simpl; split; intros [? ?]; by eauto.
Qed.

Lemma through_split {A} (f : A → bool) l1 h l2 :
  Forall (λ n, f n = false) l1 → f h = true → through f (l1 ++ h :: l2) = l1 ++ [h].
Proof.
  induction 1 as [|x l1 Hx _ IH]; intros Hh; simpl.
  - by rewrite Hh.
  - by rewrite Hx, IH.
Qed.

Lemma through_none {A} (f : A → bool) l :
  Forall (λ n, f n = false) l → through f l = l.
Proof. induction 1 as [|x l Hx _ IH]; simpl; [done|]. by rewrite Hx, IH. Qed.

Lemma existsb_none {A} (f : A → bool) l :
  Forall (λ n, f n = false) l → existsb f l = false.
Proof. induction 1 as [|x l Hx _ IH]; simpl; [done|]. by rewrite Hx, IH. Qed.

Lemma existsb_through {A} (f : A → bool) l : existsb f (through f l) = existsb f l.
Proof.
  induction l as [|x l IH]; simpl; [done|].
  destruct (f x) eqn:Hx; simpl; rewrite Hx; [done|]. by rewrite IH.
Qed.

#[local] Instance dispatching_refl : Reflexive dispatching.
Proof.
  intros w. split; [done|done|]. exists []. by rewrite app_nil_r.
Qed.

#[local] Instance dispatching_trans : Transitive dispatching.
Proof.
  intros w1 w2 w3 [K1 T1 (t1 & E1 & F1)] [K2 T2 (t2 & E2 & F2)]. split.
  - by etransitivity.
  - congruence.
  - exists (t1 ++ t2). split; [by rewrite E2, E1, app_assoc|]. by apply Forall_app.
Qed.

Lemma preserves_dispatching_modify_axis a c :
  preserves dispatching (modify (with_axis a) c).
Proof.
  intros w. split.
  - by apply preserves_tree_kept_modify.
  - by apply tree_of_update.
  - exists []. simpl. by rewrite app_nil_r.
Qed.

Section DispatchProperties.
Variable baseHandler :
  list (ContextId * JsValue) → ContextId → Callback → bool → Composer → bool.
Variable traversal : Tree → TraversingAxis → ContextId → list ContextId.

Lemma base_run this callback greedy composer w :
  base baseHandler this callback greedy composer w
  = ({| heap := heap w; provided := provided w;
        trace := trace w ++ [BaseHandled this callback greedy] |},
     Returned (baseHandler (provided w) this callback greedy composer)).
Proof. done. Qed.

Lemma preserves_dispatching_base this callback greedy composer :
  preserves dispatching (base baseHandler this callback greedy composer).
Proof.
  intros w. rewrite base_run. simpl. split; [done|done|].
  eexists. split; [done|]. by apply Forall_singleton.
Qed.

Lemma preserves_dispatching_traverse {A} (visitor : A → ContextId → M (A * bool))
    acc nodes :
  (∀ a n, preserves dispatching (visitor a n)) →
  preserves dispatching (traverse visitor acc nodes).
Proof.
  intros Hv. revert acc. induction nodes as [|n nodes IH]; intros acc; simpl.
  - apply preserves_ret; apply _.
  - apply preserves_bind; [apply _..|apply Hv|].
    intros [acc' []]; [apply preserves_ret; apply _|apply IH].
Qed.

Section Step.
Variable handle' : ContextId → Callback → bool → Composer → M bool.
Hypothesis handle_dispatches :
  ∀ c callback greedy composer,
    preserves dispatching (handle' c callback greedy composer).

Lemma preserves_dispatching_handleAxis_with c axis callback greedy composer :
  preserves dispatching (handleAxis_with handle' c axis callback greedy composer).
Proof.
  unfold handleAxis_with. destruct axis; [|apply preserves_throw; apply _].
  apply preserves_bind; [apply _..|apply preserves_dispatching_modify_axis|].
  intros _. apply handle_dispatches.
Qed.

Lemma preserves_dispatching_handleCallback_with c callback greedy composer :
  preserves dispatching
    (handleCallback_with baseHandler traversal handle' c callback greedy composer).
Proof.
  unfold handleCallback_with.
  apply preserves_bind; [apply _..|apply preserves_deref; apply _|].
  intros x. destruct (_axis x) as [a|].
  - apply preserves_bind; [apply _..|apply preserves_dispatching_modify_axis|].
    intros _. case_decide; [apply preserves_dispatching_base|].
    apply preserves_bind; [apply _..|apply preserves_gets; apply _|].
    intros nodes. apply preserves_dispatching_traverse. intros acc n.
    apply preserves_bind; [apply _..| |intros ?; apply preserves_ret; apply _].
    case_decide; [apply preserves_dispatching_base|].
    apply preserves_dispatching_handleAxis_with.
  - apply preserves_bind; [apply _..|apply preserves_dispatching_base|].
    intros handled. destruct (handled && negb greedy); [apply preserves_ret; apply _|].
    destruct (_parent x); [|apply preserves_ret; apply _].
    apply preserves_bind; [apply _..|apply handle_dispatches|].
    intros ?. apply preserves_ret; apply _.
Qed.
End Step.

Lemma preserves_dispatching_handle fuel c callback greedy composer :
  preserves dispatching
    (handle baseHandler traversal fuel c callback greedy composer).
Proof.
  revert c callback greedy composer.
  induction fuel as [|fuel IH]; intros c callback greedy composer; simpl.
  - apply preserves_diverge; apply _.
  - apply preserves_dispatching_handleCallback_with. intros. apply IH.
Qed.

Lemma preserves_dispatching_handleAxis fuel c axis callback greedy composer :
  preserves dispatching
    (handleAxis baseHandler traversal fuel c axis callback greedy composer).
Proof.
  apply preserves_dispatching_handleAxis_with. intros.
  apply preserves_dispatching_handle.
Qed.
End DispatchProperties.

Lemma dispatching_evolving X w w' : dispatching w w' → evolving X w w'.
Proof.
  intros [K _ (t & Ht & Hf)]. apply (evolving_same_states _ _ _ t);
    [apply K|apply K|done|..].
  - intros e He. rewrite Forall_forall in Hf. specialize (Hf e He). by destruct e.
  - intros e d He. rewrite Forall_forall in Hf. specialize (Hf e He). by destruct e.
Qed.

Section Route.
Variable baseHandler :
  list (ContextId * JsValue) → ContextId → Callback → bool → Composer → bool.
Variable traversal : Tree → TraversingAxis → ContextId → list ContextId.
Variables (callback : Callback) (composer : Composer).

Local Abbreviation handles greedy prov :=
  (λ n, baseHandler prov n callback greedy composer).
Local Abbreviation handle_ := (handle baseHandler traversal).

(** Under a pending [Self] the dispatch asks the base handler of the
    receiver and clears the pending axis. *)
Lemma handle_self greedy fuel c w x :
  lookupContext w c = Some x → _axis x = Some Self →
  handle_ (S fuel) c callback greedy composer w
  = ({| heap := alter (with_axis None) c (heap w); provided := provided w;
        trace := trace w ++ [BaseHandled c callback greedy] |},
     Returned (baseHandler (provided w) c callback greedy composer)).
Proof.
  intros Hx Ha. simpl. unfold handleCallback_with.
  rewrite (bind_returned _ _ _ _ _ (deref_Some _ _ _ Hx)), Ha.
  rewrite bind_eq. simpl. done.
Qed.

(** What the visitor of the traversal does at one node. *)
Lemma visit_node greedy fuel this n w :
  is_Some (lookupContext w n) →
  ∃ w', (if decide (n = this)
         then base baseHandler this callback greedy composer
         else handleAxis_with (handle_ (S fuel)) n (Some Self)
                callback greedy composer) w
        = (w', Returned (baseHandler (provided w) n callback greedy composer))
      ∧ trace w' = trace w ++ [BaseHandled n callback greedy]
      ∧ provided w' = provided w
      ∧ ∀ m, is_Some (lookupContext w' m) ↔ is_Some (lookupContext w m).
Proof.
  intros [x Hx]. case_decide as Hn.
  - subst. eexists. rewrite base_run. split; [done|]. by repeat split.
  - unfold handleAxis_with. rewrite bind_eq. simpl.
    set (w1 := updateContext (with_axis (Some Self)) n w).
    assert (lookupContext w1 n = Some (with_axis (Some Self) x)) as Hx1.
    { unfold w1. by rewrite lookup_update_eq, Hx. }
    change (handleCallback_with _ _ _ n callback greedy composer w1)
      with (handle_ (S fuel) n callback greedy composer w1).
    rewrite (handle_self _ _ _ _ _ Hx1 eq_refl). eexists. split; [done|].
    split; [done|]. split; [done|]. intros m.
    change (lookupContext _ m)
      with (lookupContext (updateContext (with_axis None) n w1) m) at 1.
    rewrite lookup_update_is_Some. unfold w1. apply lookup_update_is_Some.
Qed.

Lemma traverse_cons {A} (visitor : A → ContextId → M (A * bool)) acc n nodes w :
  traverse visitor acc (n :: nodes) w
  = match visitor acc n w with
    | (w1, Returned (acc', true)) => (w1, Returned acc')
    | (w1, Returned (acc', false)) => traverse visitor acc' nodes w1
    | (w1, Thrown e) => (w1, Thrown e)
    | (w1, OutOfFuel) => (w1, OutOfFuel)
    end.
Proof.
  simpl. rewrite bind_eq. by destruct (visitor acc n w) as [w1 [[acc' []]|e|]].
Qed.

Lemma asked_nil {A} greedy (f : A → bool) : asked greedy f [] = [].
Proof. by destruct greedy. Qed.

Lemma traverse_asks greedy fuel this nodes w acc :
  greedy = true ∨ acc = false →
  Forall (λ n, is_Some (lookupContext w n)) nodes →
  ∃ w',
    traverse
      (λ handled node,
         r ← (if decide (node = this)
              then base baseHandler this callback greedy composer
              else handleAxis_with (handle_ (S fuel)) node (Some Self)
                     callback greedy composer);
         ret (handled || r, (handled || r) && negb greedy))
      acc nodes w
    = (w', Returned (acc || existsb (handles greedy (provided w))
                               (asked greedy (handles greedy (provided w)) nodes)))
    ∧ trace w' = trace w
        ++ queries callback greedy (asked greedy (handles greedy (provided w)) nodes).
Proof.
  revert w acc. induction nodes as [|n nodes IH]; intros w acc Hacc Hex.
  - exists w. rewrite asked_nil. simpl. by rewrite orb_false_r, app_nil_r.
  - apply Forall_cons in Hex as [Hn Hex].
    destruct (visit_node greedy fuel this n w Hn) as (w1 & H1 & Ht1 & Hp1 & Hl1).
    rewrite traverse_cons, bind_eq, H1. cbv beta iota. unfold ret at 1.
    assert (Forall (λ m, is_Some (lookupContext w1 m)) nodes) as Hex1.
    { eapply Forall_impl; [exact Hex|]. intros m. by rewrite Hl1. }
    destruct greedy; simpl in *.
    + rewrite andb_false_r.
      destruct (IH w1 (acc || baseHandler (provided w) n callback true composer))
        as (w' & H' & Ht'); [by left|done|].
      rewrite Hp1 in H'. rewrite ?Hp1 in Ht'. rewrite Ht1 in Ht'.
      exists w'. rewrite H', Ht'. by rewrite orb_assoc, <-app_assoc.
    + rewrite andb_true_r. destruct Hacc as [|Hacc]; [done|]. subst acc. simpl.
      destruct (baseHandler (provided w) n callback false composer) eqn:Hr; simpl.
      * exists w1. by rewrite Hr.
      * destruct (IH w1 false) as (w' & H' & Ht'); [by right|done|].
        rewrite Hp1 in H'. rewrite ?Hp1 in Ht'. rewrite Ht1 in Ht'.
        exists w'. rewrite H', Ht', Hr. by rewrite <-app_assoc.
Qed.

Lemma existsb_asked {A} greedy (f : A → bool) l :
  existsb f (asked greedy f l) = existsb f l.
Proof. destruct greedy; [done|apply existsb_through]. Qed.

Lemma asked_cons_continue {A} greedy (f : A → bool) x l :
  f x && negb greedy = false → asked greedy f (x :: l) = x :: asked greedy f l.
Proof.
  destruct greedy; simpl; [done|]. rewrite andb_true_r. by intros ->.
Qed.

Lemma asked_cons_stop {A} greedy (f : A → bool) x l :
  f x && negb greedy = true → asked greedy f (x :: l) = [x].
Proof.
  destruct greedy; simpl; [by rewrite andb_false_r|].
  rewrite andb_true_r. by intros ->.
Qed.

Lemma asked_singleton {A} greedy (f : A → bool) x : asked greedy f [x] = [x].
Proof. destruct greedy; simpl; [done|]. by destruct (f x). Qed.

(** A dispatch asks the handlers along its route, from any world with the
    same store and the same registrations. *)
Lemma handle_follows_route greedy c w l :
  route traversal w c l →
  ∀ fuel w0, heap w0 = heap w → provided w0 = provided w →
  length l + 2 ≤ fuel →
  ∃ w', handle_ fuel c callback greedy composer w0
        = (w', Returned (existsb (handles greedy (provided w)) l))
      ∧ trace w' = trace w0
          ++ queries callback greedy (asked greedy (handles greedy (provided w)) l).
Proof.
  induction 1 as [c x Hx Ha|c x a Hx Ha Hns Hex|c x Hx Ha Hp|c x p l Hx Ha Hp Hr IH];
    intros fuel w0 Hh Hpr Hfuel.
  - destruct fuel as [|fuel]; [simpl in *; lia|].
    assert (lookupContext w0 c = Some x) as Hx0 by (unfold lookupContext; by rewrite Hh).
    rewrite (handle_self _ _ _ _ _ Hx0 Ha). eexists. split; [|simpl].
    + simpl. by rewrite orb_false_r, Hpr.
    + by rewrite asked_singleton.
  - destruct fuel as [|[|fuel]]; [lia..|].
    assert (lookupContext w0 c = Some x) as Hx0 by (unfold lookupContext; by rewrite Hh).
    change (handle_ (S (S fuel)) c callback greedy composer w0)
      with (handleCallback_with baseHandler traversal (handle_ (S fuel))
              c callback greedy composer w0).
    unfold handleCallback_with.
    rewrite (bind_returned _ _ _ _ _ (deref_Some _ _ _ Hx0)), Ha.
    rewrite bind_eq. simpl. case_decide; [done|].
    rewrite bind_eq. unfold gets at 1. cbv beta iota.
    set (w1 := updateContext (with_axis None) c w0).
    assert (tree_of w1 = tree_of w) as Ht.
    { unfold w1. rewrite tree_of_update by done. unfold tree_of. by rewrite Hh. }
    rewrite Ht.
    destruct (traverse_asks greedy fuel c (traversal (tree_of w) a c) w1 false)
      as (w' & H' & Ht'); [by right| |].
    { eapply Forall_impl; [exact Hex|]. intros m. unfold w1.
      rewrite lookup_update_is_Some. unfold lookupContext. by rewrite Hh. }
    exists w'. change (provided w1) with (provided w0) in H', Ht'.
    rewrite Hpr in H', Ht'. split; [|by rewrite Ht'].
    etransitivity; [exact H'|]. simpl. by rewrite existsb_asked.
  - destruct fuel as [|fuel]; [simpl in *; lia|].
    assert (lookupContext w0 c = Some x) as Hx0 by (unfold lookupContext; by rewrite Hh).
    simpl. unfold handleCallback_with.
    rewrite (bind_returned _ _ _ _ _ (deref_Some _ _ _ Hx0)), Ha.
    rewrite bind_eq, base_run. cbv beta iota. rewrite Hpr, Hp.
    rewrite asked_singleton. eexists.
    destruct (_ && negb greedy) eqn:Hstop;
      [apply andb_prop in Hstop as [Hb _]; rewrite Hb|rewrite orb_false_r];
      (split; [reflexivity|done]).
  - destruct fuel as [|fuel]; [simpl in *; lia|].
    assert (lookupContext w0 c = Some x) as Hx0 by (unfold lookupContext; by rewrite Hh).
    simpl. unfold handleCallback_with.
    rewrite (bind_returned _ _ _ _ _ (deref_Some _ _ _ Hx0)), Ha.
    rewrite bind_eq, base_run. cbv beta iota. rewrite Hpr, Hp.
    destruct (_ && negb greedy) eqn:Hstop.
    + rewrite (asked_cons_stop greedy (handles greedy (provided w)) c l Hstop).
      apply andb_prop in Hstop as [Hb _]. simpl. rewrite Hb. eexists.
      split; [reflexivity|done].
    + rewrite (asked_cons_continue greedy (handles greedy (provided w)) c l Hstop).
      set (w1 := {| heap := heap w0; provided := provided w;
                    trace := trace w0 ++ [BaseHandled c callback greedy] |}).
      destruct (IH fuel w1) as (w' & H' & Ht'); [done|done|simpl in Hfuel; lia|].
      exists w'. rewrite bind_eq, H'. split; [done|].
      rewrite Ht'. simpl. by rewrite <-app_assoc.
Qed.

(** C5.  A dispatch on [c] whose active axis leads along the handlers [l]
    returns true if and only if one of them handles the callback.  When it
    is not greedy it asks the handlers in order and stops at the first
    that handles: it asks those before it and it, and no further one.
    When it is greedy it asks every one of them. *)
Theorem handle_greedy_or_first greedy fuel c w l :
  route traversal w c l → length l + 2 ≤ fuel →
  ∃ w',
    handle_ fuel c callback greedy composer w
    = (w', Returned (existsb (handles greedy (provided w)) l))
    ∧ trace w' = trace w
        ++ queries callback greedy (asked greedy (handles greedy (provided w)) l)
    ∧ (greedy = true → asked greedy (handles greedy (provided w)) l = l)
    ∧ (greedy = false →
       ∀ l1 h l2, l = l1 ++ h :: l2 →
         Forall (λ n, handles greedy (provided w) n = false) l1 →
         handles greedy (provided w) h = true →
         existsb (handles greedy (provided w)) l = true
         ∧ asked greedy (handles greedy (provided w)) l = l1 ++ [h])
    ∧ (greedy = false →
       Forall (λ n, handles greedy (provided w) n = false) l →
       existsb (handles greedy (provided w)) l = false
       ∧ asked greedy (handles greedy (provided w)) l = l).
Proof.
  intros Hr Hfuel.
  destruct (handle_follows_route greedy c w l Hr fuel w eq_refl eq_refl Hfuel)
    as (w' & H & Ht).
  exists w'. split; [done|]. split; [done|]. split; [by intros ->|]. split.
  - intros -> l1 h l2 -> Hl1 Hh. split.
    + rewrite existsb_app. simpl. rewrite Hh. by rewrite orb_true_r.
    + by apply through_split.
  - intros -> Hl. split; [by apply existsb_none|by apply through_none].
Qed.
End Route.

(** ** Programs *)

Lemma preserves_evolving_allocate X x :
  _state x = Active → preserves (evolving X) (allocate x).
Proof. intros Hx w. by apply evolving_allocate. Qed.

Lemma preserves_evolving_ensureActive X c : preserves (evolving X) (ensureActive c).
Proof.
  unfold ensureActive. apply preserves_bind; [apply _..|apply preserves_deref; apply _|].
  intros x. case_decide; [apply preserves_ret|apply preserves_throw]; apply _.
Qed.

Lemma preserves_evolving_newChild X c : preserves (evolving X) (newChild c).
Proof.
  unfold newChild.
  apply preserves_bind; [apply _..|apply preserves_evolving_ensureActive|intros _].
  apply preserves_bind; [apply _..|by apply preserves_evolving_allocate|intros k].
  apply preserves_bind; [apply _..|by apply preserves_evolving_modify|intros _].
  apply preserves_ret; apply _.
Qed.

Lemma preserves_evolving_provide X c v : preserves (evolving X) (provide c v).
Proof.
  intros w. apply (evolving_same_states _ _ _ []); try done.
  - simpl. by rewrite app_nil_r.
  - by intros e ?%elem_of_nil.
  - by intros e d ?%elem_of_nil.
Qed.

Lemma preserves_evolving_store X c v : preserves (evolving X) (store c v).
Proof.
  unfold store. apply preserves_bind; [apply _..| |intros _; apply preserves_ret; apply _].
  destruct (isSomething v); [apply preserves_evolving_provide|apply preserves_ret; apply _].
Qed.

Lemma preserves_evolving_observe X c o : preserves (evolving X) (observe c o).
Proof.
  unfold observe.
  apply preserves_bind; [apply _..|apply preserves_evolving_ensureActive|intros _].
  destruct o; [|apply preserves_ret; apply _].
  apply preserves_bind; [apply _..|by apply preserves_evolving_modify|intros _].
  apply preserves_ret; apply _.
Qed.

Section Programs.
Variable reaction : Observer → Notification → list Unsubscribe.
Variable baseHandler :
  list (ContextId * JsValue) → ContextId → Callback → bool → Composer → bool.
Variable traversal : Tree → TraversingAxis → ContextId → list ContextId.

Lemma preserves_evolving_unwindToRootContext fuel steps c :
  preserves (evolving (λ _, False)) (unwindToRootContext reaction fuel steps c).
Proof.
  revert c. induction steps as [|steps IH]; intros c; simpl.
  - apply preserves_diverge; apply _.
  - apply preserves_bind; [apply _..|apply preserves_deref; apply _|intros x].
    destruct (_parent x); [apply IH|].
    apply preserves_bind; [apply _..|apply preserves_evolving_unwind|intros _].
    apply preserves_ret; apply _.
Qed.

Lemma preserves_evolving_perform fuel op :
  preserves (evolving (λ _, False)) (perform reaction baseHandler traversal fuel op).
Proof.
  destruct op; simpl;
    try (apply preserves_bind;
         [apply _..| |intros ?; apply preserves_ret; apply _]).
  - by apply preserves_evolving_allocate.
  - apply preserves_evolving_newChild.
  - apply preserves_evolving_store.
  - apply preserves_evolving_observe.
  - apply preserves_evolving_unsubscribe.
  - apply preserves_evolving_unwind.
  - apply preserves_evolving_unwindToRootContext.
  - apply preserves_evolving_end.
  - apply preserves_evolving_end.
  - intros w. apply dispatching_evolving, preserves_dispatching_handle.
  - intros w. apply dispatching_evolving, preserves_dispatching_handleAxis.
Qed.

Lemma evolving_run fuel ops w :
  evolving (λ _, False) w (run reaction baseHandler traversal fuel ops w).
Proof.
  revert w. induction ops as [|op ops IH]; intros w; simpl; [reflexivity|].
  etransitivity; [apply preserves_evolving_perform|apply IH].
Qed.

(** C2.  Whatever is called on whatever contexts, in whatever order and
    with whatever bound on the recursion: the [_state] assignments to a
    context [c] during the calls, replayed from the state [c] had before
    them, each start from the state reached so far and move it one step
    forward along Active, Ending, Ended, and they end in the state [c]
    has afterwards.  So the state of [c] never moves back, and the
    assignments are at most the one to [Ending] followed by the one to
    [Ended]. *)
Theorem state_only_moves_forward fuel ops w c :
  let w' := run reaction baseHandler traversal fuel ops w in
  ∃ t, trace w' = trace w ++ t
     ∧ walk c (known w c) t = Some (known w' c)
     ∧ ordinal (known w c) ≤ ordinal (known w' c)
     ∧ (∀ s, state w c = Some s → ∃ s', state w' c = Some s' ∧ ordinal s ≤ ordinal s')
     ∧ assignments c t =
         match known w c, known w' c with
         | Active, Ending => [(Active, Ending)]
         | Active, Ended => [(Active, Ending); (Ending, Ended)]
         | Ending, Ended => [(Ending, Ended)]
         | _, _ => []
         end.
Proof.
  intros w'. destruct (evolving_run fuel ops w) as [L F (t & Ht & Hw & _)].
  fold w' in L, F, Ht, Hw. exists t. split; [done|]. split; [done|].
  pose proof (walk_monotone _ _ _ _ (Hw c)) as Hle. split; [done|].
  split; [|by apply walk_assignments].
  intros s Hs. unfold known in Hle. rewrite Hs in Hle. simpl in Hle.
  apply state_is_Some in Hs as (x & Hx & _).
  destruct (lookupContext w' c) as [x'|] eqn:Hx'.
  - exists (_state x'). unfold state in *. rewrite Hx' in *. done.
  - unfold lookupContext in *. apply lookup_ge_None in Hx'.
    apply lookup_lt_Some in Hx. lia.
Qed.
End Programs.

(** ** Creating children, observing, storing *)

Lemma ensureActive_active c w x :
  lookupContext w c = Some x → _state x = Active → ensureActive c w = (w, Returned tt).
Proof.
  intros Hx Hs. unfold ensureActive.
  rewrite (bind_returned _ _ _ _ _ (deref_Some _ _ _ Hx)). by case_decide.
Qed.

Lemma ensureActive_not_active c w x :
  lookupContext w c = Some x → _state x ≠ Active →
  ensureActive c w = (w, Thrown alreadyEnded).
Proof.
  intros Hx Hs. unfold ensureActive.
  rewrite (bind_returned _ _ _ _ _ (deref_Some _ _ _ Hx)). by case_decide.
Qed.

(** The world and the result of [newChild()] on an active context. *)
Lemma newChild_run p w x :
  lookupContext w p = Some x → _state x = Active →
  newChild p w
  = (updateContext (λ y, with_children (_children y ++ [length (heap w)]) y) p
       {| heap := heap w ++ [newContext (Some p) true];
          provided := provided w; trace := trace w |},
     Returned (length (heap w))).
Proof.
  intros Hx Hs. unfold newChild.
  by rewrite (bind_returned _ _ _ _ _ (ensureActive_active _ _ _ Hx Hs)).
Qed.

Lemma lookup_allocated w x d :
  lookupContext {| heap := heap w ++ [x]; provided := provided w; trace := trace w |} d
  = if decide (d = length (heap w)) then Some x else lookupContext w d.
Proof.
  unfold lookupContext. simpl. case_decide as Hd.
  - subst. by rewrite lookup_app_r, Nat.sub_diag by done.
  - destruct (decide (d < length (heap w))) as [Hlt|Hge].
    + by rewrite lookup_app_l.
    + rewrite !lookup_ge_None_2; [done|lia|]. rewrite length_app. simpl. lia.
Qed.

(** C3.  [newChild()] on an active context [p] returns a context [c] that
    did not exist before, whose parent is [p], which is active, and which
    is the last of the children of [p], those from before keeping their
    order in front of it.  Nothing else changes. *)
Theorem newChild_appends p w x :
  lookupContext w p = Some x → _state x = Active →
  ∃ w' c,
    newChild p w = (w', Returned c)
    ∧ lookupContext w c = None
    ∧ lookupContext w' c = Some (newContext (Some p) true)
    ∧ parent w' c = Some p
    ∧ state w' c = Some Active
    ∧ children w' p = children w p ++ [c]
    ∧ c ∈ children w' p
    ∧ last (children w' p) = Some c
    ∧ (∀ d, d ≠ p → d ≠ c → lookupContext w' d = lookupContext w d)
    ∧ trace w' = trace w ∧ provided w' = provided w.
Proof.
  intros Hx Hs. rewrite (newChild_run _ _ _ Hx Hs).
  set (c := length (heap w)).
  set (w1 := {| heap := heap w ++ [newContext (Some p) true];
                provided := provided w; trace := trace w |}).
  assert (p < c) as Hpc by (apply lookup_lt_Some in Hx; done).
  assert (lookupContext w1 c = Some (newContext (Some p) true)) as Hc1.
  { unfold w1. rewrite lookup_allocated. by case_decide. }
  assert (lookupContext w1 p = Some x) as Hp1.
  { unfold w1. rewrite lookup_allocated. case_decide; [lia|done]. }
  assert (children w p = _children x) as Hcp by (unfold children; by rewrite Hx).
  eexists _, c. split; [done|].
  assert (children (updateContext (λ y, with_children (_children y ++ [c]) y) p w1) p
          = children w p ++ [c]) as Hch.
  { rewrite (children_with_children (λ l, l ++ [c])). case_decide; [|done].
    rewrite Hp1. unfold children at 1. by rewrite Hp1, Hcp. }
  repeat split.
  - unfold lookupContext, c. by apply lookup_ge_None.
  - rewrite lookup_update_ne by lia. done.
  - unfold parent. rewrite lookup_update_ne by lia. by rewrite Hc1.
  - unfold state. rewrite lookup_update_ne by lia. by rewrite Hc1.
  - done.
  - rewrite Hch, elem_of_app, list_elem_of_singleton. by right.
  - rewrite Hch. apply last_snoc.
  - intros d Hdp Hdc. rewrite lookup_update_ne by done.
    unfold w1. rewrite lookup_allocated. by case_decide.
Qed.

(** C7.  On a context that is not active, [newChild()] throws the error
    of [ensureActive] and creates nothing, and [observe(observer)] throws
    it and registers nothing, whatever the observer. *)
Theorem not_active_refuses c w x :
  lookupContext w c = Some x → _state x ≠ Active →
  newChild c w = (w, Thrown alreadyEnded)
  ∧ ∀ observer, observe c observer w = (w, Thrown alreadyEnded).
Proof.
  intros Hx Hs. split; [|intros observer].
  - unfold newChild.
    by rewrite (bind_thrown _ _ _ _ _ (ensureActive_not_active _ _ _ Hx Hs)).
  - unfold observe.
    by rewrite (bind_thrown _ _ _ _ _ (ensureActive_not_active _ _ _ Hx Hs)).
Qed.

(** C10.  [store(object)] reads nothing of the context: whatever the state
    of [c], and even its existence, the call returns [c]; it registers
    [object] for [c] when [object] is neither [null] nor [undefined], and
    changes nothing when it is. *)
Theorem store_ignores_state c object w :
  store c object w
  = (if isSomething object
     then {| heap := heap w; provided := provided w ++ [(c, object)];
             trace := trace w |}
     else w,
     Returned c)
  ∧ (isSomething object = false ↔ object = null ∨ object = undefined).
Proof.
  split.
  - unfold store. by destruct (isSomething object).
  - destruct object; simpl; split; try done; auto; by intros [|].
Qed.

(** ** Unsubscribing *)

Lemma unsubscribe_registered c o w x l index :
  lookupContext w c = Some x → _observers x = Some l → indexOf o l = Some index →
  unsubscribe {| sub_context := c; sub_observer := o |} w
  = (updateContext (with_observers (Some (delete index l))) c w, Returned tt).
Proof.
  intros Hx Hl Hi. unfold unsubscribe. simpl.
  rewrite (bind_returned _ _ _ _ _ (deref_Some _ _ _ Hx)). by rewrite Hl, Hi.
Qed.

Lemma unsubscribe_not_registered c o w x l :
  lookupContext w c = Some x → _observers x = Some l → o ∉ l →
  unsubscribe {| sub_context := c; sub_observer := o |} w = (w, Returned tt).
Proof.
  intros Hx Hl Hi%indexOf_None. unfold unsubscribe. simpl.
  rewrite (bind_returned _ _ _ _ _ (deref_Some _ _ _ Hx)). by rewrite Hl, Hi.
Qed.

Lemma unsubscribe_null c o w x :
  lookupContext w c = Some x → _observers x = None →
  unsubscribe {| sub_context := c; sub_observer := o |} w
  = (w, Thrown (TypeError "Cannot read properties of null (reading 'indexOf')")).
Proof.
  intros Hx Hl. unfold unsubscribe. simpl.
  rewrite (bind_returned _ _ _ _ _ (deref_Some _ _ _ Hx)). by rewrite Hl.
Qed.

(** Called once on a context that has not ended, the function returned by
    [observe] takes the observer out; called again, it changes nothing. *)
Lemma unsubscribe_twice c o w x :
  lookupContext w c = Some x → _state x = Active → o ∉ default [] (_observers x) →
  ∃ w1 u w2,
    observe c (Some o) w = (w1, Returned (Some u))
    ∧ observers w1 c = Some (default [] (_observers x) ++ [o])
    ∧ unsubscribe u w1 = (w2, Returned tt)
    ∧ observers w2 c = Some (default [] (_observers x))
    ∧ unsubscribe u w2 = (w2, Returned tt).
Proof.
  intros Hx Hs Ho. unfold observe.
  rewrite (bind_returned _ _ _ _ _ (ensureActive_active _ _ _ Hx Hs)).
  rewrite bind_eq. unfold modify at 1. cbv beta iota. unfold ret at 1.
  set (l := default [] (_observers x)) in *.
  set (w1 := updateContext _ c w).
  assert (lookupContext w1 c = Some (with_observers (Some (l ++ [o])) x)) as Hx1.
  { unfold w1. by rewrite lookup_update_eq, Hx. }
  assert (indexOf o (l ++ [o]) = Some (length l)) as Hi.
  { clear -Ho. induction l as [|y l IH]; simpl.
    - by case_decide.
    - apply not_elem_of_cons in Ho as [Hne Ho]. case_decide; [done|].
      by rewrite (IH Ho). }
  eexists w1, _, _. split; [done|]. split.
  { unfold observers. by rewrite Hx1. }
  rewrite (unsubscribe_registered _ _ _ _ _ _ Hx1 eq_refl Hi).
  split; [done|].
  replace (delete (length l) (l ++ [o])) with l.
  2: { clear. induction l as [|y l IH]; simpl; [done|]. by rewrite <-IH. }
  set (w2 := updateContext _ c w1).
  assert (lookupContext w2 c
          = Some (with_observers (Some l) (with_observers (Some (l ++ [o])) x))) as Hx2.
  { unfold w2. by rewrite lookup_update_eq, Hx1. }
  split.
  { unfold observers. by rewrite Hx2. }
  by apply (unsubscribe_not_registered _ _ _ _ l Hx2).
Qed.

Section UnsubscribeAfterEnd.
Variable reaction : Observer → Notification → list Unsubscribe.

(** C9, as the code has it.  The function returned by [observe] on a
    context that has then ended throws a [TypeError]: [end()] has set
    [_observers] to [null], and the function reads [_observers.indexOf]. *)
Theorem unsubscribe_after_end_throws fuel c o w w1 u w2 :
  observe c (Some o) w = (w1, Returned (Some u)) →
  end_base reaction fuel c w1 = (w2, Returned tt) →
  state w2 c = Some Ended
  ∧ observers w2 c = None
  ∧ unsubscribe u w2
    = (w2, Thrown (TypeError "Cannot read properties of null (reading 'indexOf')")).
Proof.
  intros Hobs Hend. unfold observe in Hobs.
  invert_run Hobs as w0 [] Hact. unfold ensureActive in Hact.
  invert_run Hact as w0' x Hx. apply deref_returned in Hx as [-> Hx].
  case_decide as Hs; [|done]. injection Hact as <-.
  invert_run Hobs as w1' [] Hmod. injection Hmod as <-. injection Hobs as <- <-.
  set (w1 := updateContext _ c w) in *.
  assert (lookupContext w1 c
          = Some (with_observers (Some (default [] (_observers x) ++ [o])) x)) as Hx1.
  { unfold w1. by rewrite lookup_update_eq, Hx. }
  destruct (end_base_with_returned _ _ _ _ _ _ Hx1 Hs Hend)
    as (v2 & v3 & v5 & H2 & H3 & H5 & ->).
  pose proof (end_base_with_ended reaction (end_ reaction fuel)
                (preserves_shrinking_end reaction fuel) c w1 _ _ Hx1 Hs Hend) as He.
  apply state_is_Some in He as (x2 & Hx2 & Hs2).
  split; [by rewrite (state_lookup _ _ _ Hx2), Hs2|].
  assert (_observers x2 = None) as Ho2.
  { rewrite lookup_update_eq in Hx2. destruct (lookupContext v5 c); by simplify_eq/=. }
  split; [unfold observers; by rewrite Hx2|].
  by apply (unsubscribe_null c o _ x2).
Qed.
End UnsubscribeAfterEnd.

(** ** The pending axis [Self] *)

Section SelfAxis.
Variable baseHandler :
  list (ContextId * JsValue) → ContextId → Callback → bool → Composer → bool.
Variable traversal : Tree → TraversingAxis → ContextId → list ContextId.

(** C6, amended.  A dispatch on [c] with the pending axis [Self] clears
    the pending axis, asks the base handler of [c] and nothing else, and
    returns its answer: it does not go on to the parent.  It gives the
    result of the dispatch with no pending axis, and asks the same
    handlers, when [c] has no parent, and when the base handler of [c]
    handles the callback and the dispatch is not greedy. *)
Theorem self_axis_one_shot fuel c callback greedy composer w x :
  lookupContext w c = Some x →
  let answer := baseHandler (provided w) c callback greedy composer in
  (∃ w',
     handleAxis baseHandler traversal (S fuel) c (Some Self)
       callback greedy composer w
     = (w', Returned answer)
     ∧ trace w' = trace w ++ [BaseHandled c callback greedy]
     ∧ lookupContext w' c = Some (with_axis None x))
  ∧ (_axis x = None →
     _parent x = None ∨ (answer = true ∧ greedy = false) →
     self_as_no_axis baseHandler traversal (S fuel) c callback greedy composer w).
Proof.
  intros Hx answer.
  set (w1 := updateContext (with_axis (Some Self)) c w).
  assert (lookupContext w1 c = Some (with_axis (Some Self) x)) as Hx1.
  { unfold w1. by rewrite lookup_update_eq, Hx. }
  assert (handleAxis baseHandler traversal (S fuel) c (Some Self)
            callback greedy composer w
          = ({| heap := alter (with_axis None) c (heap w1); provided := provided w;
                trace := trace w ++ [BaseHandled c callback greedy] |},
             Returned answer)) as Htag.
  { unfold handleAxis, handleAxis_with. rewrite bind_eq. unfold modify at 1.
    cbv beta iota. fold w1.
    by rewrite (handle_self baseHandler traversal callback composer greedy fuel
                  c w1 _ Hx1 eq_refl). }
  split.
  - eexists. split; [exact Htag|]. split; [done|].
    change (lookupContext (updateContext (with_axis None) c w1) c
            = Some (with_axis None x)).
    by rewrite lookup_update_eq, Hx1.
  - intros Ha Hstop. unfold self_as_no_axis. rewrite Htag. simpl.
    unfold handleCallback_with.
    rewrite (bind_returned _ _ _ _ _ (deref_Some _ _ _ Hx)), Ha.
    rewrite bind_eq, base_run. cbv beta iota. fold answer.
    destruct Hstop as [Hp|[Hans ->]].
    + rewrite Hp. by destruct (answer && negb greedy) eqn:Hs;
        [apply andb_prop in Hs as [-> _]|].
    + by rewrite Hans.
Qed.
End SelfAxis.

(** C6, as stated, fails: on the child of [parent_and_child], whose base
    handler does not handle while that of the root does, the dispatch with
    no pending axis goes on to the root and returns true, and the dispatch
    with the pending axis [Self] asks the child alone and returns false. *)
Lemma self_is_not_no_axis :
  ¬ self_as_no_axis only_root_handles children_traversal 3 1 0 false 0
      parent_and_child.
Proof. unfold self_as_no_axis. vm_compute. intros [H _]. discriminate H. Qed.

(** ** The tree of every program *)

Lemma wf_empty : wf empty_world.
Proof.
  split.
  - intros p. apply NoDup_nil_2.
  - by intros p k ?%elem_of_nil.
  - by intros c ?.
Qed.

Lemma wf_allocate w x :
  wf w → _children x = [] →
  (_extended x = true → ∃ p, _parent x = Some p ∧ is_Some (lookupContext w p)) →
  wf (allocate x w).1.
Proof.
  intros [N H Hp] Hc He. simpl.
  set (w1 := {| heap := heap w ++ [x]; provided := provided w; trace := trace w |}).
  assert (∀ d, is_Some (lookupContext w d) → lookupContext w1 d = lookupContext w d)
    as Hold.
  { intros d [y Hy]. unfold w1. rewrite lookup_allocated. case_decide; [|done].
    subst. apply lookup_lt_Some in Hy. lia. }
  assert (∀ q, children w1 q = children w q) as Hch.
  { intros q. unfold children, w1. rewrite lookup_allocated.
    case_decide as Hq; [|done]. subst. simpl. rewrite Hc.
    unfold lookupContext. by rewrite lookup_ge_None_2. }
  split.
  - intros q. rewrite Hch. apply N.
  - intros q k. rewrite Hch. intros (Hs & Hpa & Hex)%H.
    assert (is_Some (lookupContext w k)) as Hk.
    { apply state_is_Some in Hs as (? & ? & _). by eexists. }
    unfold state, parent, extended in *. by rewrite (Hold k Hk).
  - intros d. unfold extended, parent, w1. rewrite lookup_allocated.
    case_decide as Hd.
    + simpl. intros (p & -> & Hpx)%He. exists p. split; [done|].
      rewrite lookup_allocated. case_decide; [by eexists|done].
    + intros (p & Hpa & Hpx)%Hp. exists p. split; [done|].
      rewrite lookup_allocated. case_decide; [by eexists|done].
Qed.

Lemma wf_newChild c w : wf w → wf (newChild c w).1.
Proof.
  intros Hw. destruct (lookupContext w c) as [x|] eqn:Hx.
  2: { unfold newChild, ensureActive. rewrite !bind_eq. unfold deref. by rewrite Hx. }
  destruct (decide (_state x = Active)) as [Hs|Hs].
  2: { unfold newChild.
       by rewrite (bind_thrown _ _ _ _ _ (ensureActive_not_active _ _ _ Hx Hs)). }
  rewrite (newChild_run _ _ _ Hx Hs). simpl.
  set (k := length (heap w)).
  set (w1 := {| heap := heap w ++ [newContext (Some c) true];
                provided := provided w; trace := trace w |}).
  assert (wf w1) as Hw1.
  { apply (wf_allocate w (newContext (Some c) true)); [done|done|].
    intros _. exists c. split; [done|by eexists]. }
  assert (c < k) as Hck by (apply lookup_lt_Some in Hx; done).
  assert (lookupContext w1 k = Some (newContext (Some c) true)) as Hk1.
  { unfold w1. rewrite lookup_allocated. by case_decide. }
  assert (lookupContext w1 c = Some x) as Hc1.
  { unfold w1. rewrite lookup_allocated. case_decide; [lia|done]. }
  assert (k ∉ children w1 c) as Hnew.
  { unfold children. rewrite Hc1. simpl. intros Hin.
    assert (k ∈ children w c) as Hin' by (unfold children; by rewrite Hx).
    apply (wf_child _ Hw) in Hin' as (Hj & _).
    apply state_is_Some in Hj as (? & Hj & _). apply lookup_lt_Some in Hj.
    unfold k in Hj. lia. }
  split.
  - intros q. rewrite (children_with_children (λ l, l ++ [k])).
    case_decide; [subst q|apply Hw1]. rewrite Hc1.
    apply NoDup_app. split; [apply Hw1|]. split; [|apply NoDup_singleton].
    intros j Hj ->%list_elem_of_singleton. done.
  - intros q j. rewrite (children_with_children (λ l, l ++ [k])).
    rewrite state_update, parent_update, extended_update by done.
    case_decide; [subst q|apply Hw1]. rewrite Hc1.
    intros [Hj| ->%list_elem_of_singleton]%elem_of_app; [by apply Hw1|].
    unfold state, parent, extended. by rewrite Hk1.
  - intros d. rewrite extended_update, parent_update by done.
    intros (p & ? & ?)%(wf_parent _ Hw1). exists p. split; [done|].
    by apply lookup_update_is_Some.
Qed.

Lemma wf_heap w w' : heap w' = heap w → wf w → wf w'.
Proof.
  intros Hh [N H Hp].
  assert (∀ d, lookupContext w' d = lookupContext w d) as Hl.
  { intros d. unfold lookupContext. by rewrite Hh. }
  split.
  - intros p. unfold children. rewrite Hl. apply N.
  - intros p k. unfold children, state, parent, extended. rewrite !Hl. apply H.
  - intros c. unfold extended, parent. rewrite Hl. intros (p & ? & ?)%Hp.
    exists p. by rewrite Hl.
Qed.

Lemma invariant_wf_ensureActive c : invariant wf (ensureActive c).
Proof.
  unfold ensureActive. apply invariant_bind; [apply invariant_deref|].
  intros x. case_decide; [apply invariant_ret|apply invariant_throw].
Qed.

Lemma invariant_wf_observe c o : invariant wf (observe c o).
Proof.
  unfold observe. apply invariant_bind; [apply invariant_wf_ensureActive|intros _].
  destruct o; [|apply invariant_ret].
  apply invariant_bind; [|intros _; apply invariant_ret].
  eapply invariant_preserves; [apply wf_tree_kept|].
  by apply preserves_tree_kept_modify.
Qed.

Lemma invariant_wf_unsubscribe u : invariant wf (unsubscribe u).
Proof.
  eapply invariant_preserves; [apply wf_tree_kept|].
  apply preserves_tree_kept_unsubscribe.
Qed.

Lemma invariant_wf_store c v : invariant wf (store c v).
Proof.
  unfold store. apply invariant_bind; [|intros _; apply invariant_ret].
  destruct (isSomething v); [|apply invariant_ret].
  intros w. by apply wf_heap.
Qed.

Section ProgramsWf.
Variable reaction : Observer → Notification → list Unsubscribe.
Variable baseHandler :
  list (ContextId * JsValue) → ContextId → Callback → bool → Composer → bool.
Variable traversal : Tree → TraversingAxis → ContextId → list ContextId.

Lemma invariant_wf_unwindToRootContext fuel steps c :
  invariant wf (unwindToRootContext reaction fuel steps c).
Proof.
  revert c. induction steps as [|steps IH]; intros c; simpl.
  - apply invariant_diverge.
  - apply invariant_bind; [apply invariant_deref|intros x].
    destruct (_parent x); [apply IH|].
    apply invariant_bind; [apply invariant_wf_unwind|intros _; apply invariant_ret].
Qed.

Lemma invariant_wf_perform fuel op :
  invariant wf (perform reaction baseHandler traversal fuel op).
Proof.
  destruct op; simpl;
    try (apply invariant_bind; [|intros ?; apply invariant_ret]).
  - intros w Hw. apply wf_allocate; [done|done|]. by intros [=].
  - intros w. apply wf_newChild.
  - apply invariant_wf_store.
  - apply invariant_wf_observe.
  - apply invariant_wf_unsubscribe.
  - apply invariant_wf_unwind.
  - apply invariant_wf_unwindToRootContext.
  - apply invariant_wf_end.
  - apply invariant_wf_end.
  - eapply invariant_preserves; [|apply preserves_dispatching_handle].
    intros w w' [K _ _]. by apply wf_tree_kept.
  - eapply invariant_preserves; [|apply preserves_dispatching_handleAxis].
    intros w w' [K _ _]. by apply wf_tree_kept.
Qed.

(** Every world that a program reaches from a well-formed one, and so
    from the empty one, is well formed. *)
Lemma wf_run fuel ops w :
  wf w → wf (run reaction baseHandler traversal fuel ops w).
Proof.
  revert w. induction ops as [|op ops IH]; intros w Hw; simpl; [done|].
  apply IH. by apply invariant_wf_perform.
Qed.
End ProgramsWf.

(** ** The root *)

Lemma grounded_exists w c p :
  grounded w → parent w c = Some p → is_Some (lookupContext w p).
Proof.
  intros Hg Hp. pose proof (Hg c p Hp) as Hlt.
  unfold parent in Hp. destruct (lookupContext w c) as [x|] eqn:Hx; [|done].
  unfold lookupContext in *. apply lookup_lt_Some in Hx.
  apply lookup_lt_is_Some. lia.
Qed.

Lemma root_unfold steps c w x :
  lookupContext w c = Some x →
  root (S steps) c w
  = match _parent x with None => (w, Returned c) | Some p => root steps p w end.
Proof.
  intros Hx. simpl. rewrite (bind_returned _ _ _ _ _ (deref_Some _ _ _ Hx)).
  by destruct (_parent x).
Qed.

Lemma root_more_steps steps steps' c w r :
  root steps c w = (w, Returned r) → steps ≤ steps' →
  root steps' c w = (w, Returned r).
Proof.
  revert steps' c. induction steps as [|steps IH]; intros steps' c;
    [intros Hr; discriminate Hr|].
  intros Hr Hle. destruct steps' as [|steps']; [lia|].
  destruct (lookupContext w c) as [x|] eqn:Hx.
  - rewrite (root_unfold _ _ _ _ Hx) in Hr. rewrite (root_unfold _ _ _ _ Hx).
    destruct (_parent x); [|done].
    apply IH; [done|lia].
  - simpl in Hr. rewrite bind_eq in Hr. unfold deref in Hr. by rewrite Hx in Hr.
Qed.

Lemma root_grounded w c :
  grounded w → is_Some (lookupContext w c) →
  ∃ r, root (S c) c w = (w, Returned r)
     ∧ r ≤ c ∧ is_Some (lookupContext w r) ∧ parent w r = None
     ∧ descends w r c.
Proof.
  intros Hg. induction c as [c IH] using lt_wf_ind. intros [x Hx].
  rewrite (root_unfold _ _ _ _ Hx).
  destruct (_parent x) as [p|] eqn:Hp.
  - assert (parent w c = Some p) as Hpc by (unfold parent; by rewrite Hx).
    pose proof (Hg c p Hpc) as Hlt.
    destruct (IH p Hlt (grounded_exists _ _ _ Hg Hpc))
      as (r & Hr & Hle & Hex & Hnone & Hd).
    exists r. split; [eapply root_more_steps; [exact Hr|lia]|].
    split; [lia|]. split; [done|]. split; [done|].
    by apply (descends_parent _ _ _ p).
  - exists c. split; [done|]. split; [done|]. split; [by eexists|].
    split; [unfold parent; by rewrite Hx|constructor].
Qed.

(** X1.  The [root] of a context: in a world where every parent was constructed
    before its children, the getter returns, without changing anything, an
    ancestor that has no parent; it is its own root; a context with no
    parent is its own root, and a context with a parent has the root of
    its parent.  More steps than the identity of the context are enough,
    and more steps than enough change nothing. *)
Theorem root_is_top w c :
  grounded w → is_Some (lookupContext w c) →
  ∃ r, root (S c) c w = (w, Returned r)
     ∧ descends w r c
     ∧ parent w r = None
     ∧ root (S r) r w = (w, Returned r)
     ∧ (parent w c = None → r = c)
     ∧ (∀ p, parent w c = Some p → root (S p) p w = (w, Returned r))
     ∧ (∀ steps, c < steps → root steps c w = (w, Returned r)).
Proof.
  intros Hg Hc.
  destruct (root_grounded w c Hg Hc) as (r & Hr & Hle & [y Hy] & Hnone & Hd).
  exists r. split; [done|]. split; [done|]. split; [done|].
  split; [|split; [|split]].
  - rewrite (root_unfold _ _ _ _ Hy). unfold parent in Hnone.
    rewrite Hy in Hnone. simpl in Hnone. by rewrite Hnone.
  - intros Hp. destruct Hc as [x Hx]. rewrite (root_unfold _ _ _ _ Hx) in Hr.
    unfold parent in Hp. rewrite Hx in Hp. simpl in Hp. rewrite Hp in Hr.
    by injection Hr.
  - intros p Hp. destruct Hc as [x Hx]. rewrite (root_unfold _ _ _ _ Hx) in Hr.
    pose proof (Hg c p Hp) as Hlt.
    destruct (root_grounded w p Hg) as (r' & Hr' & _);
      [by apply (grounded_exists w c)|].
    unfold parent in Hp. rewrite Hx in Hp. simpl in Hp. rewrite Hp in Hr.
    rewrite (root_more_steps _ c _ _ _ Hr') in Hr by lia. by simplify_eq.
  - intros steps Hs. eapply root_more_steps; [exact Hr|lia].
Qed.

(** ** Parents come first *)

Lemma grounded_static w w' :
  (∀ d, parent w' d = parent w d) → grounded w → grounded w'.
Proof. intros Hp Hg c p. rewrite Hp. apply Hg. Qed.

Lemma grounded_empty : grounded empty_world.
Proof. intros c p. unfold parent, lookupContext. simpl. by destruct c. Qed.

Lemma parent_allocated w x d :
  parent {| heap := heap w ++ [x]; provided := provided w; trace := trace w |} d
  = if decide (d = length (heap w)) then _parent x else parent w d.
Proof. unfold parent. rewrite lookup_allocated. by case_decide. Qed.

Lemma grounded_allocate w x :
  grounded w → (∀ p, _parent x = Some p → p < length (heap w)) →
  grounded (allocate x w).1.
Proof.
  intros Hg Hx c p. simpl. rewrite parent_allocated. case_decide; [subst|apply Hg].
  apply Hx.
Qed.

Lemma preserves_parent_static (R : relation World) {A} (m : M A) w :
  (∀ w w', R w w' → ∀ d, parent w' d = parent w d) →
  preserves R m → grounded w → grounded (m w).1.
Proof. intros HR Hm. apply grounded_static, (HR w), Hm. Qed.

Lemma grounded_newChild c w : grounded w → grounded (newChild c w).1.
Proof.
  intros Hg. destruct (lookupContext w c) as [x|] eqn:Hx.
  2: { unfold newChild, ensureActive. rewrite !bind_eq. unfold deref. by rewrite Hx. }
  destruct (decide (_state x = Active)) as [Hs|Hs].
  2: { unfold newChild.
       by rewrite (bind_thrown _ _ _ _ _ (ensureActive_not_active _ _ _ Hx Hs)). }
  rewrite (newChild_run _ _ _ Hx Hs). simpl. intros d p.
  rewrite parent_update by done. rewrite parent_allocated.
  case_decide; [subst|apply Hg]. simpl. intros [= <-].
  unfold lookupContext in Hx. by apply lookup_lt_Some in Hx.
Qed.

Section ProgramsGrounded.
Variable reaction : Observer → Notification → list Unsubscribe.
Variable baseHandler :
  list (ContextId * JsValue) → ContextId → Callback → bool → Composer → bool.
Variable traversal : Tree → TraversingAxis → ContextId → list ContextId.

Lemma shrinking_parent w w' : shrinking w w' → ∀ d, parent w' d = parent w d.
Proof. intros [_ S _ _] d. apply S. Qed.

Lemma tree_kept_parent w w' : tree_kept w w' → ∀ d, parent w' d = parent w d.
Proof. intros K. apply K. Qed.

Lemma preserves_shrinking_unwindToRootContext fuel steps c :
  preserves shrinking (unwindToRootContext reaction fuel steps c).
Proof.
  revert c. induction steps as [|steps IH]; intros c; simpl.
  - apply preserves_diverge; apply _.
  - apply preserves_bind; [apply _..|apply preserves_deref; apply _|intros x].
    destruct (_parent x); [apply IH|].
    apply preserves_bind; [apply _..|apply preserves_shrinking_unwind|intros _].
    apply preserves_ret; apply _.
Qed.

Lemma grounded_perform fuel op w :
  grounded w → constructible w op →
  grounded (perform reaction baseHandler traversal fuel op w).1.
Proof.
  intros Hg Hop. destruct op as [p|c|c v|c o|u|c|c|c|c|c cb g co|c a cb g co]; simpl.
  - apply (grounded_allocate w (newContext p false)); [done|].
    simpl. intros q ->. exact Hop.
  - rewrite bind_eq. pose proof (grounded_newChild c w Hg) as H.
    by destruct (newChild c w) as [w1 [?|?|]].
  - unfold store. destruct (isSomething v); simpl; by apply (grounded_static w).
  - rewrite bind_eq.
    assert (grounded (observe c o w).1) as H.
    { unfold observe. apply (preserves_parent_static tree_kept);
        [apply tree_kept_parent| |done].
      apply preserves_bind; [apply _..| |intros _].
      - unfold ensureActive.
        apply preserves_bind; [apply _..|apply preserves_deref; apply _|].
        intros x. case_decide; [apply preserves_ret|apply preserves_throw]; apply _.
      - destruct o; [|apply preserves_ret; apply _].
        apply preserves_bind; [apply _..| |intros _; apply preserves_ret; apply _].
        by apply preserves_tree_kept_modify. }
    by destruct (observe c o w) as [w1 [?|?|]].
  - apply (preserves_parent_static tree_kept); [apply tree_kept_parent| |done].
    apply preserves_tree_kept_unsubscribe.
  - rewrite bind_eq.
    pose proof (preserves_parent_static shrinking _ w shrinking_parent
                  (preserves_shrinking_unwind reaction fuel c) Hg) as H.
    by destruct (unwind reaction fuel c w) as [w1 [?|?|]].
  - rewrite bind_eq.
    pose proof (preserves_parent_static shrinking _ w shrinking_parent
                  (preserves_shrinking_unwindToRootContext fuel fuel c) Hg) as H.
    by destruct (unwindToRootContext reaction fuel fuel c w) as [w1 [?|?|]].
  - apply (preserves_parent_static shrinking); [apply shrinking_parent| |done].
    apply preserves_shrinking_end.
  - apply (preserves_parent_static shrinking); [apply shrinking_parent| |done].
    apply preserves_shrinking_end.
  - rewrite bind_eq.
    pose proof (preserves_dispatching_handle baseHandler traversal fuel c cb g co w)
      as [K _ _].
    pose proof (grounded_static _ _ (tree_kept_parent _ _ K) Hg) as H.
    by destruct (handle baseHandler traversal fuel c cb g co w) as [w1 [?|?|]].
  - rewrite bind_eq.
    pose proof (preserves_dispatching_handleAxis baseHandler traversal fuel c a
                  cb g co w) as [K _ _].
    pose proof (grounded_static _ _ (tree_kept_parent _ _ K) Hg) as H.
    by destruct (handleAxis baseHandler traversal fuel c a cb g co w) as [w1 [?|?|]].
Qed.

Lemma grounded_run fuel ops w :
  grounded w → constructible_run reaction baseHandler traversal fuel ops w →
  grounded (run reaction baseHandler traversal fuel ops w).
Proof.
  revert w. induction ops as [|op ops IH]; intros w Hg Hc; simpl; [done|].
  destruct Hc as [Hop Hc]. apply IH; [by apply grounded_perform|done].
Qed.

Lemma programs_keep_the_tree_by_reaction fuel ops :
  let w := run reaction baseHandler traversal fuel ops empty_world in
  (∀ p, NoDup (children w p))
  ∧ (∀ p k, k ∈ children w p →
       state w k = Some Active ∧ parent w k = Some p ∧ extended w k = true)
  ∧ (∀ c, extended w c = true →
       ∃ p, parent w c = Some p ∧ is_Some (lookupContext w p)).
Proof.
  intros w.
  by destruct (wf_run reaction baseHandler traversal fuel ops empty_world wf_empty).
Qed.

Lemma descends_le w k x : grounded w → descends w k x → k ≤ x.
Proof.
  intros Hg Hd. induction Hd as [|x q Hq Hd IH]; [done|].
  pose proof (Hg x q Hq). lia.
Qed.

(** X3.  No cycle of parents.  In a program from the empty world in which
    every [new Context(parent)] is given a context that exists, every
    parent has been constructed before its children: following the
    parents from a context never comes back to it, and the children of
    a context were all constructed after it. *)
Theorem parents_come_first fuel ops :
  constructible_run reaction baseHandler traversal fuel ops empty_world →
  let w := run reaction baseHandler traversal fuel ops empty_world in
  (∀ c p, parent w c = Some p → p < c ∧ ¬ descends w c p)
  ∧ (∀ c k, k ∈ children w c → c < k).
Proof.
  intros Hc w.
  pose proof (grounded_run fuel ops empty_world grounded_empty Hc) as Hg.
  fold w in Hg. split.
  - intros c p Hcp. split; [by apply Hg|]. intros Hd.
    pose proof (descends_le _ _ _ Hg Hd). pose proof (Hg c p Hcp). lia.
  - intros c k Hk.
    destruct (wf_run reaction baseHandler traversal fuel ops empty_world wf_empty)
      as [_ H _].
    apply Hg. by apply H.
Qed.
End ProgramsGrounded.

(** ** What an end leaves alone *)

Lemma descends_static w w' k x :
  (∀ d, parent w' d = parent w d) → descends w k x → descends w' k x.
Proof.
  intros Hp Hd. induction Hd as [|x p Hx Hd IH]; [constructor|].
  econstructor; [|exact IH]. by rewrite Hp.
Qed.

Lemma descends_trans w a b x : descends w a b → descends w b x → descends w a x.
Proof.
  intros Hab Hbx. induction Hbx as [|x p Hx Hd IH]; [done|].
  econstructor; [exact Hx|exact IH].
Qed.

Lemma descends_child w c k x : parent w k = Some c → descends w k x → descends w c x.
Proof. intros Hp. apply descends_trans. econstructor; [exact Hp|constructor]. Qed.

#[local] Instance confined_refl X Y : Reflexive (confined X Y).
Proof. by intros w. Qed.

#[local] Instance confined_trans X Y : Transitive (confined X Y).
Proof.
  intros w1 w2 w3 [S12 C12] [S23 C23]. split; intros x Hx.
  - by rewrite S23, S12.
  - by rewrite C23, C12.
Qed.

Lemma confined_weaken (X Y X' Y' : ContextId → Prop) w w' :
  (∀ x, X x → X' x) → (∀ x, Y x → Y' x) → confined X Y w w' → confined X' Y' w w'.
Proof. intros HX HY [HS HC]. split; intros x Hx; [apply HS|apply HC]; auto. Qed.

Lemma confined_tree_kept X Y w w' : tree_kept w w' → confined X Y w w'.
Proof. intros K. split; intros x _; apply K. Qed.

Lemma confined_setState (X Y : ContextId → Prop) c s w :
  X c → confined X Y w (setState c s w).1.
Proof.
  intros Hc. split; intros x Hx.
  - rewrite state_setState. case_decide; [by subst|done].
  - apply children_setState.
Qed.

Lemma confined_splice (X Y : ContextId → Prop) g p w :
  Y p → confined X Y w (updateContext (λ x, with_children (g (_children x)) x) p w).
Proof.
  intros Hp. split; intros x Hx.
  - by apply state_update.
  - rewrite children_with_children. case_decide; [by subst|done].
Qed.

Section Keeps.
Context (P : World → Prop) (R : relation World) `{!Reflexive R, !Transitive R}.

Lemma keeps_intro {A} (m : M A) :
  invariant P m → preserves R m → keeps P R m.
Proof. intros Hi Hr w Hw. split; [by apply Hi|apply Hr]. Qed.

Lemma keeps_ret {A} (a : A) : keeps P R (ret a).
Proof. by intros w Hw. Qed.

Lemma keeps_bind {A B} (m : M A) (k : A → M B) :
  keeps P R m → (∀ a, keeps P R (k a)) → keeps P R (m ≫= k).
Proof.
  intros Hm Hk w Hw. rewrite bind_eq. destruct (Hm w Hw) as [HP HR].
  destruct (m w) as [w1 [a|e|]]; simpl in *; try done.
  destruct (Hk a w1 HP) as [HP' HR']. split; [done|by etransitivity].
Qed.

Lemma keeps_forEach {A} (body : A → M unit) xs :
  (∀ x, x ∈ xs → keeps P R (body x)) → keeps P R (forEach body xs).
Proof.
  induction xs as [|x xs IH]; intros Hb; simpl.
  - apply keeps_ret.
  - apply keeps_bind; [apply Hb; left|intros _; apply IH].
    intros y Hy. apply Hb. by right.
Qed.

Lemma keeps_deref {B} c (k : Context → M B) :
  (∀ x w, lookupContext w c = Some x → P w → P (k x w).1 ∧ R w (k x w).1) →
  keeps P R (deref c ≫= k).
Proof.
  intros Hk w Hw. rewrite bind_eq. unfold deref.
  destruct (lookupContext w c) as [x|] eqn:Hx; [by apply Hk|done].
Qed.
End Keeps.

Section Frame.
Variable reaction : Observer → Notification → list Unsubscribe.

Section Step.
Variable end_child : ContextId → M unit.
Hypothesis end_child_shrinks : ∀ k, preserves shrinking (end_child k).
Hypothesis end_child_wf : ∀ k, invariant wf (end_child k).
Hypothesis end_child_confined :
  ∀ k w, wf w →
    confined (descends w k) (λ x, descends w k x ∨ parent w k = Some x)
      w (end_child k w).1.

Lemma end_base_with_confined c w0 :
  wf w0 → detached w0 c →
  confined (descends w0 c) (descends w0 c) w0
    (end_base_with reaction end_child c w0).1.
Proof.
  intros Hw0 Hd0.
  set (P := λ w, wf w ∧ detached w c ∧ shrinking w0 w).
  set (R := confined (descends w0 c) (descends w0 c)).
  assert (∀ {A} (m : M A),
            (∀ w, wf w ∧ detached w c → wf (m w).1) → preserves shrinking m →
            invariant P m) as HP.
  { intros A m Hm Hs w (Hw & Hd & Hsh). split; [by apply Hm|]. split.
    - eapply detached_shrinking; [apply Hs|done].
    - etransitivity; [exact Hsh|apply Hs]. }
  assert (∀ s, keeps P R (setState c s)) as Hset.
  { intros s. apply keeps_intro.
    - apply HP; [|apply preserves_shrinking_setState].
      intros w [Hw Hd]. by apply wf_setState.
    - intros w. apply confined_setState. constructor. }
  assert (∀ l n, keeps P R (notify reaction l n)) as Hnot.
  { intros l n. apply keeps_intro.
    - apply HP; [|apply preserves_shrinking_notify].
      intros w [Hw _]. by apply invariant_wf_notify.
    - intros w. apply confined_tree_kept, preserves_tree_kept_notify. }
  assert (keeps P R (modify (with_observers None) c)) as Hmod.
  { apply keeps_intro.
    - apply HP; [|by apply preserves_shrinking_modify].
      intros w [Hw _]. eapply wf_tree_kept; [|done].
      by apply preserves_tree_kept_modify.
    - intros w. apply confined_tree_kept. by apply preserves_tree_kept_modify. }
  assert (keeps P R (unwind_with end_child c)) as Hunw.
  { unfold unwind_with. apply keeps_deref; [apply _..|]. intros x w Hx HPw.
    revert w HPw Hx. 
    assert (∀ k, k ∈ children w0 c → keeps P R (end_child k)) as Hk.
    { intros k Hk. apply (wf_child _ Hw0) in Hk as (_ & Hk & _).
      intros w (Hw & Hd & Hsh). split.
      - apply HP; [by intros ? [? _]; apply end_child_wf|apply end_child_shrinks|done].
      - eapply confined_weaken; [| |by apply end_child_confined].
        + intros y Hy. apply (descends_child _ _ k); [done|].
          eapply descends_static; [|exact Hy]. intros d. symmetry.
          apply (sh_static _ _ Hsh).
        + intros y [Hy|Hy].
          * apply (descends_child _ _ k); [done|].
            eapply descends_static; [|exact Hy]. intros d. symmetry.
            apply (sh_static _ _ Hsh).
          * destruct (sh_static _ _ Hsh k) as [Hpk _]. rewrite Hpk, Hk in Hy.
            injection Hy as <-. constructor. }
    intros w HPw Hx.
    assert (keeps P R (forEach end_child (_children x) ≫= λ _, ret c)) as H.
    { apply keeps_bind; [apply _| |intros _; by apply keeps_ret].
      apply keeps_forEach; [apply _..|]. intros k Hin. apply Hk.
      destruct HPw as (_ & _ & Hsh). apply (sh_children _ _ Hsh).
      unfold children. by rewrite Hx. }
    by apply H. }
  assert (keeps P R (end_base_with reaction end_child c)) as H.
  { unfold end_base_with. apply keeps_deref; [apply _..|]. intros x w Hx HPw.
    case_decide as Hact; [|done].
    assert (keeps P R
      (setState c Ending ≫= λ _,
       notify reaction (makeNotifier x) (contextEnding c) ≫= λ _,
       unwind_with end_child c ≫= λ _,
       setState c Ended ≫= λ _,
       notify reaction (makeNotifier x) (contextEnded c) ≫= λ _,
       modify (with_observers None) c)) as H; [|by apply H].
    repeat first
      [apply Hset | apply Hnot | apply Hunw | apply Hmod
      |apply keeps_bind; [apply _| |intros ?]]. }
  by apply H.
Qed.

Lemma end_child_with_confined p c w :
  wf w → parent w c = Some p →
  confined (descends w c) (λ x, descends w c x ∨ x = p) w
    (end_child_with reaction end_child p c w).1.
Proof.
  intros Hw Hp. unfold end_child_with. rewrite bind_eq.
  destruct (deref p w) as [w0 [x|e|]] eqn:Hd; simpl;
    try (by unfold deref in Hd; destruct (lookupContext w p); simplify_eq).
  apply deref_returned in Hd as [-> Hx].
  destruct (indexOf c (_children x)) as [index|] eqn:Hi; [|done].
  apply indexOf_Some in Hi as [Hi _].
  set (X := descends w c). set (Y := λ y, descends w c y ∨ y = p).
  apply (rel_bind (confined X Y)); [|intros [] w1 H1].
  { apply confined_tree_kept, preserves_tree_kept_notify. }
  apply tree_kept_notify in H1.
  assert (wf w1) as Hw1 by by eapply wf_tree_kept.
  assert (children w1 p = _children x) as Hc1.
  { rewrite (tk_children _ _ H1). unfold children. by rewrite Hx. }
  apply (rel_bind (confined X Y)); [|intros [] w2 [= <-]].
  { apply confined_splice. by right. }
  set (w2 := updateContext _ p w1).
  assert (wf w2 ∧ detached w2 c) as [Hw2 Hd2].
  { split; [by apply wf_splice|]. intros q. unfold w2.
    rewrite children_with_children. case_decide; [subst q|].
    - destruct (lookupContext w1 p); [|apply not_elem_of_nil].
      rewrite Hc1. apply NoDup_delete_lookup; [|done].
      rewrite <-Hc1. apply Hw1.
    - intros Hq. apply (wf_child _ Hw1) in Hq as (_ & Hq & _).
      rewrite (tk_parent _ _ H1) in Hq. congruence. }
  assert (∀ y, descends w2 c y → X y) as Hd2w.
  { intros y Hy. apply (descends_static w2); [|done]. intros d.
    unfold w2. rewrite parent_update by done. symmetry. apply (tk_parent _ _ H1). }
  apply (rel_bind (confined X Y)); [|intros [] w3 H3].
  { eapply confined_weaken; [| |by apply end_base_with_confined].
    - apply Hd2w.
    - intros y Hy. left. by apply Hd2w. }
  apply confined_tree_kept, preserves_tree_kept_notify.
Qed.

Lemma end_with_confined c w :
  wf w →
  confined (descends w c) (λ x, descends w c x ∨ parent w c = Some x) w
    (end_with reaction end_child c w).1.
Proof.
  intros Hw. unfold end_with. rewrite bind_eq.
  destruct (deref c w) as [w0 [x|e|]] eqn:Hd; simpl;
    try (by unfold deref in Hd; destruct (lookupContext w c); simplify_eq).
  apply deref_returned in Hd as [-> Hx].
  assert (_extended x = false ∨ _parent x = None →
          confined (descends w c) (λ x, descends w c x ∨ parent w c = Some x) w
            (end_base_with reaction end_child c w).1) as Hbase.
  { intros Hx'. eapply confined_weaken; [| |apply end_base_with_confined].
    - done.
    - intros y Hy. by left.
    - done.
    - intros q Hq.
      apply (wf_child _ Hw) in Hq as (_ & Hq & Hq').
      unfold parent, extended in *. rewrite Hx in *. simpl in *.
      destruct Hx'; congruence. }
  destruct (_extended x) eqn:He; [|by apply Hbase; left].
  destruct (_parent x) as [p|] eqn:Hp; [|by apply Hbase; right].
  assert (parent w c = Some p) as Hpc by (unfold parent; by rewrite Hx).
  eapply confined_weaken; [| |by apply end_child_with_confined].
  - done.
  - intros y [Hy | ->]; [by left|by right].
Qed.
End Step.

Lemma end_confined fuel c w :
  wf w →
  confined (descends w c) (λ x, descends w c x ∨ parent w c = Some x) w
    (end_ reaction fuel c w).1.
Proof.
  revert c w. induction fuel as [|fuel IH]; intros c w Hw; simpl; [done|].
  apply end_with_confined; [apply preserves_shrinking_end|apply invariant_wf_end|
                            apply IH|done].
Qed.
End Frame.

(** ** What an end that returns leaves behind *)

Lemma settled_refl w : no_new_ending w w ∧ emptied w w.
Proof. split; [by intros x|]. intros q H1 H2. congruence. Qed.

Lemma settled_trans w1 w2 w3 :
  shrinking w1 w2 → shrinking w2 w3 →
  no_new_ending w1 w2 ∧ emptied w1 w2 →
  no_new_ending w2 w3 ∧ emptied w2 w3 →
  no_new_ending w1 w3 ∧ emptied w1 w3.
Proof.
  intros S12 S23 [N12 E12] [N23 E23]. split; [intros x Hx; by apply N12, N23|].
  intros q Hq1 Hq3.
  assert (is_Some (state w2 q)) as [s Hq2].
  { apply state_is_Some in Hq1 as (x & Hx & _).
    destruct (lookup_is_Some_length w1 w2 q (sh_length _ _ S12)) as [x2 Hx2];
      [by eexists|].
    unfold state. rewrite Hx2. by eexists. }
  destruct s.
  - by apply E23.
  - apply N12 in Hq2. congruence.
  - pose proof (E12 q Hq1 Hq2) as H2. pose proof (sh_children _ _ S23 q) as Hsub.
    rewrite H2 in Hsub. destruct (children w3 q) as [|k l]; [done|].
    exfalso. apply (not_elem_of_nil k), Hsub. left.
Qed.

(** Taking a child out of the list it is in leaves it in no list. *)
Lemma wf_detached_splice w p c index :
  wf w → children w p !! index = Some c →
  wf (updateContext (λ x, with_children (delete index (_children x)) x) p w)
  ∧ detached (updateContext (λ x, with_children (delete index (_children x)) x) p w) c.
Proof.
  intros Hw Hi. split; [by apply wf_splice|]. intros q.
  rewrite children_with_children. case_decide; [subst q|].
  - destruct (lookupContext w p); [|apply not_elem_of_nil].
    apply NoDup_delete_lookup; [apply Hw|done].
  - intros Hq. apply (wf_child _ Hw) in Hq as (_ & Hq & _).
    apply list_elem_of_lookup_2 in Hi. apply (wf_child _ Hw) in Hi as (_ & Hi & _).
    congruence.
Qed.

(** An ended context is in no list of children. *)
Lemma wf_ended_detached w c : wf w → state w c = Some Ended → detached w c.
Proof.
  intros Hw Hc p Hp. apply (wf_child _ Hw) in Hp as (Hp & _). congruence.
Qed.

Section Settles.
Variable reaction : Observer → Notification → list Unsubscribe.
Variable fuel : nat.
Hypothesis end_settles_before :
  ∀ k w w', wf w → end_ reaction fuel k w = (w', Returned tt) →
            no_new_ending w w' ∧ emptied w w'.

Lemma forEach_end_settles ks w w' :
  wf w → forEach (end_ reaction fuel) ks w = (w', Returned tt) →
  no_new_ending w w' ∧ emptied w w'.
Proof.
  revert w. induction ks as [|k ks IH]; intros w Hw.
  - intros [= <-]. apply settled_refl.
  - rewrite forEach_cons. intros H. invert_run H as w1 [] H1.
    pose proof (invariant_wf_end reaction fuel k w Hw) as Hw1.
    pose proof (preserves_shrinking_end reaction fuel k w) as S1.
    pose proof (preserves_forEach shrinking (end_ reaction fuel) ks
                  (preserves_shrinking_end reaction fuel) w1) as S2.
    rewrite H1 in Hw1, S1. rewrite H in S2.
    eapply settled_trans; [exact S1|exact S2| |].
    + by apply (end_settles_before k).
    + by apply IH.
Qed.

(** An [unwind] that returns leaves the context without children. *)
Lemma unwind_empties c w w' r :
  wf w → unwind reaction fuel c w = (w', Returned r) →
  children w' c = [] ∧ ∀ k, k ∈ children w c → state w' k = Some Ended.
Proof.
  intros Hw Hrun.
  pose proof (invariant_wf_unwind reaction fuel c w Hw) as Hw'.
  pose proof (preserves_shrinking_unwind reaction fuel c w) as Hs.
  rewrite Hrun in Hw', Hs. simpl in Hw', Hs.
  apply unwind_with_returned in Hrun as (_ & x & Hx & Hrun).
  assert (children w c = _children x) as Hc by (unfold children; by rewrite Hx).
  assert (∀ k, k ∈ children w c → state w' k = Some Ended) as Hended.
  { rewrite Hc. eapply (forEach_end_ended reaction fuel c _ w w); try done.
    - apply ended_if_removed_refl.
    - intros k. by rewrite Hc. }
  split; [|done].
  destruct (children w' c) as [|k l] eqn:Hl; [done|]. exfalso.
  assert (k ∈ children w' c) as Hk by (rewrite Hl; left).
  pose proof (Hended k (sh_children _ _ Hs c k Hk)) as He.
  apply (wf_child _ Hw') in Hk as (Hk & _). congruence.
Qed.

Lemma end_base_settles c w w' :
  wf w → detached w c →
  end_base_with reaction (end_ reaction fuel) c w = (w', Returned tt) →
  no_new_ending w w' ∧ emptied w w'.
Proof.
  intros Hw Hc Hrun.
  assert (is_Some (lookupContext w c)) as [x Hx].
  { unfold end_base_with in Hrun. invert_run Hrun as w0 x Hx.
    apply deref_returned in Hx as [_ Hx]. by eexists. }
  destruct (decide (_state x = Active)) as [Hact|Hact].
  2: { rewrite (end_base_with_inactive _ _ _ _ _ Hx Hact) in Hrun.
       injection Hrun as <-. apply settled_refl. }
  destruct (end_base_with_returned _ _ _ _ _ _ Hx Hact Hrun)
    as (w2 & w3 & w5 & H2 & H3 & H5 & ->).
  pose proof (tree_kept_notify _ _ _ _ _ _ H2) as K2.
  pose proof (tree_kept_notify _ _ _ _ _ _ H5) as K5.
  assert (wf w2) as Hw2.
  { eapply wf_tree_kept; [done|]. by apply wf_setState. }
  assert (∀ d, state w2 d = if decide (c = d) then Some Ending else state w d) as S2.
  { intros d. rewrite (tk_state _ _ K2), state_setState.
    case_decide; [subst d|done]. by rewrite (state_lookup _ _ _ Hx). }
  assert (is_Some (lookupContext w3 c)) as [x3 Hx3].
  { pose proof (preserves_shrinking_unwind reaction fuel c w2) as S3.
    change (unwind_with (end_ reaction fuel) c w2) with (unwind reaction fuel c w2) in H3.
    rewrite H3 in S3.
    eapply lookup_is_Some_length; [apply S3|].
    eapply lookup_is_Some_length; [apply K2|].
    eapply lookup_is_Some_length; [apply (preserves_shrinking_setState c Ending w)|].
    by eexists. }
  assert (∀ d, state (updateContext (with_observers None) c w5) d
               = if decide (c = d) then Some Ended else state w3 d) as S5.
  { intros d. rewrite state_update by done. rewrite (tk_state _ _ K5), state_setState.
    case_decide; [subst d|done]. by rewrite (state_lookup _ _ _ Hx3). }
  assert (∀ d, children (updateContext (with_observers None) c w5) d = children w3 d)
    as C5.
  { intros d. rewrite children_update by done. rewrite (tk_children _ _ K5).
    apply children_setState. }
  destruct (unwind_empties c w2 w3 c Hw2 H3) as [He3 _].
  apply unwind_with_returned in H3 as (_ & x2 & Hx2 & H3).
  destruct (forEach_end_settles _ _ _ Hw2 H3) as [N3 E3].
  split.
  - intros d. rewrite S5. case_decide as Hd; [done|]. intros Hd3%N3.
    rewrite S2 in Hd3. by case_decide.
  - intros q Hq. rewrite S5, C5. case_decide as Hd; [by subst q|].
    intros Hq3. apply E3; [|done]. rewrite S2. by case_decide.
Qed.

Lemma end_child_settles p c w w' :
  wf w →
  end_child_with reaction (end_ reaction fuel) p c w = (w', Returned tt) →
  no_new_ending w w' ∧ emptied w w'.
Proof.
  intros Hw Hrun. unfold end_child_with in Hrun.
  invert_run Hrun as w0 px Hpx. apply deref_returned in Hpx as [-> Hpx].
  destruct (indexOf c (_children px)) as [index|] eqn:Hi.
  2: { injection Hrun as <-. apply settled_refl. }
  apply indexOf_Some in Hi as [Hi _].
  invert_run Hrun as w1 [] H1. invert_run Hrun as w2' [] H2.
  invert_run Hrun as w3 [] H3. injection H2 as <-.
  set (w2 := updateContext _ p w1) in *.
  pose proof (tree_kept_notify _ _ _ _ _ _ H1) as K1.
  pose proof (tree_kept_notify _ _ _ _ _ _ Hrun) as K3.
  assert (wf w1) as Hw1 by by eapply wf_tree_kept.
  assert (children w1 p !! index = Some c) as Hc1.
  { rewrite (tk_children _ _ K1). unfold children. by rewrite Hpx. }
  destruct (wf_detached_splice w1 p c index Hw1 Hc1) as [Hw2 Hd2].
  destruct (end_base_settles c w2 w3 Hw2 Hd2 H3) as [N3 E3].
  assert (∀ d, state w2 d = state w d) as S2.
  { intros d. unfold w2. rewrite state_update by done. apply K1. }
  split.
  - intros d. rewrite (tk_state _ _ K3). intros Hd%N3. by rewrite <-S2.
  - intros q Hq. rewrite (tk_state _ _ K3), (tk_children _ _ K3). intros Hq3.
    apply E3; [by rewrite S2|done].
Qed.

Lemma end_with_settles c w w' :
  wf w → end_with reaction (end_ reaction fuel) c w = (w', Returned tt) →
  no_new_ending w w' ∧ emptied w w'.
Proof.
  intros Hw Hrun. unfold end_with in Hrun.
  invert_run Hrun as w0 x Hx. apply deref_returned in Hx as [-> Hx].
  destruct (_extended x) eqn:He.
  2: { eapply end_base_settles; [done| |done]. eapply wf_detached; eauto. }
  destruct (_parent x) as [p|] eqn:Hp.
  2: { eapply end_base_settles; [done| |done]. eapply wf_detached; eauto. }
  by eapply end_child_settles.
Qed.
End Settles.

Section Subtree.
Variable reaction : Observer → Notification → list Unsubscribe.

Lemma end_settles fuel c w w' :
  wf w → end_ reaction fuel c w = (w', Returned tt) →
  no_new_ending w w' ∧ emptied w w'.
Proof.
  revert c w w'. induction fuel as [|fuel IH]; intros c w w' Hw; [done|].
  simpl. by apply end_with_settles.
Qed.

Lemma below_active w c y : wf w → below w c y → state w y = Some Active.
Proof. intros Hw Hy. destruct Hy as [k Hk|y' k _ Hk]; by apply (wf_child _ Hw) in Hk as (? & _). Qed.

(** What a run that settles has ended, it has ended with everything
    below. *)
Lemma settled_below w w' q y :
  wf w → wf w' → shrinking w w' → ended_if_removed w w' → emptied w w' →
  state w q = Some Active → state w' q = Some Ended →
  below w q y → state w' y = Some Ended ∧ children w' y = [] ∧ detached w' y.
Proof.
  intros Hw Hw' Hs Hr He Hq Hq' Hy.
  assert (state w' y = Some Ended) as Hy'.
  { induction Hy as [k Hk|y k Hy IH Hk].
    - apply (Hr q); [done|]. rewrite (He q Hq Hq'). apply not_elem_of_nil.
    - apply (Hr y); [done|]. rewrite (He y); [apply not_elem_of_nil| |done].
      by eapply below_active. }
  split; [done|]. split; [|by apply wf_ended_detached].
  apply He; [by eapply below_active|done].
Qed.
End Subtree.

(** ** The subtree of an end *)

Lemma grounded_not_descends w c p : grounded w → parent w c = Some p → ¬ descends w c p.
Proof.
  intros Hg Hp Hd. pose proof (descends_le _ _ _ Hg Hd). pose proof (Hg c p Hp). lia.
Qed.

Lemma grounded_sibling w c p s :
  grounded w → parent w c = Some p → parent w s = Some p → s ≠ c → ¬ descends w c s.
Proof.
  intros Hg Hc Hs Hne Hd. destruct Hd as [|x q Hq Hd']; [done|].
  assert (q = p) as -> by congruence.
  exact (grounded_not_descends w c p Hg Hc Hd').
Qed.

Section LifecycleSubtree.
Variable reaction : Observer → Notification → list Unsubscribe.

Lemma end_keeps_siblings fuel c w p s :
  wf w → grounded w → parent w c = Some p → s ∈ children w p → s ≠ c →
  s ∈ children (end_ reaction fuel c w).1 p.
Proof.
  intros Hw Hg Hp Hs Hne. destruct fuel as [|fuel]; [done|]. simpl.
  pose proof (grounded_not_descends _ _ _ Hg Hp) as Hnd.
  unfold end_with. rewrite bind_eq.
  destruct (deref c w) as [w0 [x|e|]] eqn:Hd; simpl;
    try (by unfold deref in Hd; destruct (lookupContext w c); simplify_eq).
  apply deref_returned in Hd as [-> Hx].
  assert (parent w c = _parent x) as Hpx by (unfold parent; by rewrite Hx).
  assert (∀ w1, wf w1 → detached w1 c → (∀ d, parent w1 d = parent w d) →
            s ∈ children w1 p →
            s ∈ children
                  (end_base_with reaction (end_ reaction fuel) c w1).1 p) as Hbase.
  { intros w1 Hw1 Hd1 Hp1 Hs1.
    destruct (end_base_with_confined reaction (end_ reaction fuel)
                (preserves_shrinking_end reaction fuel)
                (invariant_wf_end reaction fuel)
                (λ k w, end_confined reaction fuel k w) c w1 Hw1 Hd1) as [_ HC].
    rewrite HC; [done|]. intros Hd. apply Hnd. by apply (descends_static w1). }
  destruct (_extended x) eqn:He.
  2: { apply Hbase; try done. eapply wf_detached; eauto. }
  destruct (_parent x) as [p'|] eqn:Hp'.
  2: { apply Hbase; try done. eapply wf_detached; eauto. }
  rewrite Hp in Hpx. injection Hpx as <-.
  unfold end_child_with. rewrite bind_eq.
  destruct (deref p w) as [w0 [px|e|]] eqn:Hd; simpl;
    try (by unfold deref in Hd; destruct (lookupContext w p); simplify_eq).
  apply deref_returned in Hd as [-> Hpx].
  destruct (indexOf c (_children px)) as [index|] eqn:Hi; [|done].
  apply indexOf_Some in Hi as [Hi _].
  apply (post_bind (λ w', s ∈ children w' p)).
  { by rewrite (tk_children _ _ (preserves_tree_kept_notify reaction _ _ w)). }
  intros [] w1 H1. apply tree_kept_notify in H1.
  assert (wf w1) as Hw1 by by eapply wf_tree_kept.
  assert (children w1 p !! index = Some c) as Hc1.
  { rewrite (tk_children _ _ H1). unfold children. by rewrite Hpx. }
  destruct (wf_detached_splice w1 p c index Hw1 Hc1) as [Hw2 Hd2].
  set (w2 := updateContext _ p w1) in *.
  assert (s ∈ children w2 p) as Hs2.
  { unfold w2. rewrite children_with_children. case_decide; [|done].
    assert (is_Some (lookupContext w1 p)) as [px1 Hpx1].
    { eapply lookup_is_Some_length; [apply H1|by eexists]. }
    rewrite Hpx1. eapply elem_of_delete_ne; [exact Hc1|done|].
    by rewrite (tk_children _ _ H1). }
  assert (∀ d, parent w2 d = parent w d) as Hp2.
  { intros d. unfold w2. rewrite parent_update by done. apply H1. }
  apply (post_bind (λ w', s ∈ children w' p)); [done|]. intros [] ? [= <-].
  apply (post_bind (λ w', s ∈ children w' p)); [by apply Hbase|].
  intros [] w3 H3.
  rewrite (tk_children _ _ (preserves_tree_kept_notify reaction _ _ w3)).
  pose proof (Hbase w2 Hw2 Hd2 Hp2 Hs2) as H. unfold w2 in H. by rewrite H3 in H.
Qed.

Lemma end_stays_in_its_subtree_by_reaction fuel c w :
  wf w → grounded w →
  let w' := (end_ reaction fuel c w).1 in
  (∀ x, ¬ descends w c x →
     state w' x = state w x
     ∧ (parent w c ≠ Some x → children w' x = children w x))
  ∧ (∀ x, x < c → state w' x = state w x)
  ∧ (∀ p, parent w c = Some p →
       state w' p = state w p
       ∧ ∀ s, s ∈ children w p → s ≠ c →
           s ∈ children w' p ∧ state w' s = state w s
           ∧ children w' s = children w s).
Proof.
  intros Hw Hg w'. destruct (end_confined reaction fuel c w Hw) as [HS HC].
  fold w' in HS, HC. split; [|split].
  - intros x Hx. split; [by apply HS|]. intros Hp. apply HC. tauto.
  - intros x Hx. apply HS. intros Hd%(descends_le _ _ _ Hg). lia.
  - intros p Hp. split; [by apply HS, grounded_not_descends|].
    intros s Hs Hne. destruct (wf_child _ Hw _ _ Hs) as (_ & Hsp & _).
    pose proof (grounded_sibling _ _ _ _ Hg Hp Hsp Hne) as Hnd.
    split; [by apply end_keeps_siblings|]. split; [by apply HS|].
    apply HC. intros [?|Hcs]; [done|]. rewrite Hp in Hcs. injection Hcs as ->.
    pose proof (Hg _ _ Hsp). lia.
Qed.

Lemma end_active_ended fuel c w w' :
  wf w → state w c = Some Active → (extended w c = true → ∃ p, c ∈ children w p) →
  end_ reaction fuel c w = (w', Returned tt) → state w' c = Some Ended.
Proof.
  intros Hw Hs He Hrun. destruct (extended w c) eqn:Hext.
  - destruct (He eq_refl) as [p Hp]. by eapply end_ended.
  - destruct fuel as [|fuel]; [done|].
    apply state_is_Some in Hs as (x & Hx & Hs).
    rewrite (end_not_extended reaction fuel c w x Hx) in Hrun.
    + eapply end_base_with_ended; [apply preserves_shrinking_end|done..].
    + unfold extended in Hext. by rewrite Hx in Hext.
Qed.

Lemma settled_children w w' q k :
  ended_if_removed w w' → emptied w w' →
  state w q = Some Active → state w' q = Some Ended →
  k ∈ children w q → state w' k = Some Ended.
Proof.
  intros Hr He Hq Hq' Hk. apply (Hr q); [done|].
  rewrite (He q Hq Hq'). apply not_elem_of_nil.
Qed.

Lemma ended_below w w' c y :
  wf w → wf w' → ended_if_removed w w' → emptied w w' →
  (∀ k, k ∈ children w c → state w' k = Some Ended) →
  below w c y → state w' y = Some Ended ∧ children w' y = [] ∧ detached w' y.
Proof.
  intros Hw Hw' Hr He Hc Hy.
  assert (state w' y = Some Ended) as Hy'.
  { induction Hy as [k Hk|y k Hy IH Hk]; [by apply Hc|].
    eapply settled_children; [done..| |exact IH|done]. by eapply below_active. }
  split; [done|]. split; [|by apply wf_ended_detached].
  apply He; [by eapply below_active|done].
Qed.

Lemma end_ends_the_subtree_by_reaction fuel c w w' :
  wf w → end_ reaction fuel c w = (w', Returned tt) →
  (∀ x, state w' x = Some Ending → state w x = Some Ending)
  ∧ (∀ q, state w q = Some Active → state w' q = Some Ended →
       children w' q = []
       ∧ ∀ y, below w q y →
           state w' y = Some Ended ∧ children w' y = [] ∧ detached w' y)
  ∧ (state w c = Some Active → (extended w c = true → ∃ p, c ∈ children w p) →
     state w' c = Some Ended ∧ detached w' c).
Proof.
  intros Hw Hrun.
  destruct (end_settles reaction fuel c w w' Hw Hrun) as [Hn He].
  pose proof (end_removes reaction fuel c w w' Hw Hrun) as Hr.
  pose proof (invariant_wf_end reaction fuel c w Hw) as Hw'.
  rewrite Hrun in Hw'. simpl in Hw'.
  split; [exact Hn|]. split.
  - intros q Hq Hq'. split; [by apply He|]. intros y Hy.
    apply (ended_below w w' q y Hw Hw' Hr He); [|done].
    intros k Hk. by eapply settled_children.
  - intros Hs Hext.
    pose proof (end_active_ended fuel c w w' Hw Hs Hext Hrun) as Hc.
    split; [done|by apply wf_ended_detached].
Qed.

Lemma unwind_confined fuel c w :
  wf w → grounded w →
  confined (λ x, descends w c x ∧ x ≠ c) (descends w c) w
    (unwind reaction fuel c w).1.
Proof.
  intros Hw Hg. unfold unwind, unwind_with. rewrite bind_eq.
  destruct (deref c w) as [w0 [x|e|]] eqn:Hd; simpl;
    try (by unfold deref in Hd; destruct (lookupContext w c); simplify_eq).
  apply deref_returned in Hd as [-> Hx].
  set (P := λ w1, wf w1 ∧ shrinking w w1).
  set (R := confined (λ x, descends w c x ∧ x ≠ c) (descends w c)).
  assert (keeps P R (forEach (end_ reaction fuel) (_children x) ≫= λ _, ret c)) as H.
  { apply keeps_bind; [apply _| |intros _; by apply keeps_ret].
    apply keeps_forEach; [apply _..|]. intros k Hk.
    assert (k ∈ children w c) as Hkc by (unfold children; by rewrite Hx).
    apply (wf_child _ Hw) in Hkc as (_ & Hkp & _).
    intros w1 [Hw1 Hs1]. split.
    - split; [by apply invariant_wf_end|].
      etransitivity; [exact Hs1|apply preserves_shrinking_end].
    - assert (∀ y, descends w1 k y → descends w c y ∧ y ≠ c) as Hsub.
      { intros y Hy.
        assert (descends w k y) as Hy'.
        { eapply descends_static; [|exact Hy]. intros d. symmetry.
          apply (sh_static _ _ Hs1). }
        split; [by eapply descends_child|].
        pose proof (descends_le _ _ _ Hg Hy'). pose proof (Hg _ _ Hkp). lia. }
      eapply confined_weaken; [| |by apply end_confined].
      + apply Hsub.
      + intros y [Hy|Hy]; [by apply Hsub|].
        destruct (sh_static _ _ Hs1 k) as [Hpk _]. rewrite Hpk, Hkp in Hy.
        injection Hy as <-. constructor. }
  apply H. by split.
Qed.

Lemma unwind_ends_below fuel c w w' r :
  wf w → unwind reaction fuel c w = (w', Returned r) →
  r = c ∧ children w' c = []
  ∧ ∀ y, below w c y →
      state w' y = Some Ended ∧ children w' y = [] ∧ detached w' y.
Proof.
  intros Hw Hrun.
  pose proof (invariant_wf_unwind reaction fuel c w Hw) as Hw'.
  rewrite Hrun in Hw'. simpl in Hw'.
  destruct (unwind_empties reaction fuel c w w' r Hw Hrun) as [Hemp Hkids].
  destruct (unwind_with_returned _ _ _ _ _ Hrun) as (-> & x & Hx & Hfor).
  split; [done|]. split; [done|]. intros y Hy.
  apply (ended_below w w' c y Hw Hw'); [| |done..].
  + eapply (forEach_end_removes (end_ reaction fuel)); [..|exact Hw|exact Hfor];
      first [apply invariant_wf_end | apply preserves_evolving_end
            |intros k w1 w2; apply end_removes].
  + by eapply (forEach_end_settles reaction fuel (end_settles reaction fuel)).
Qed.

Lemma unwind_spares_the_context_by_reaction fuel c w :
  wf w → grounded w →
  let w' := (unwind reaction fuel c w).1 in
  state w' c = state w c
  ∧ (∀ x, ¬ descends w c x →
       state w' x = state w x ∧ children w' x = children w x)
  ∧ (∀ r, (unwind reaction fuel c w).2 = Returned r →
       r = c ∧ children w' c = []
       ∧ ∀ y, below w c y →
           state w' y = Some Ended ∧ children w' y = [] ∧ detached w' y).
Proof.
  intros Hw Hg w'. destruct (unwind_confined fuel c w Hw Hg) as [HS HC].
  fold w' in HS, HC. split; [apply HS; tauto|]. split.
  - intros x Hx. split; [apply HS; tauto|by apply HC].
  - intros r Hr. apply (unwind_ends_below fuel); [done|].
    unfold w'. destruct (unwind reaction fuel c w) as [w1 o]. simpl in *. by subst.
Qed.

Lemma unwindToRootContext_root fuel steps c w :
  unwindToRootContext reaction fuel steps c w
  = (r ← root steps c; unwind reaction fuel r ;; ret r) w.
Proof.
  revert c w. induction steps as [|steps IH]; intros c w; [done|].
  simpl. rewrite !bind_eq. unfold deref.
  destruct (lookupContext w c) as [x|] eqn:Hx; [|done].
  destruct (_parent x) as [p|] eqn:Hp; [|done].
  by rewrite IH, bind_eq.
Qed.

(** X7.  The loop of [unwindToRootContext] is [root] followed by [unwind],
    with any bound on the loop and from any world, also where one of
    them throws or does not come back. *)
Theorem unwindToRootContext_is_unwind_of_root fuel steps c w :
  unwindToRootContext reaction fuel steps c w
  = (r ← root steps c; unwind reaction fuel r ;; ret r) w.
Proof. apply unwindToRootContext_root. Qed.

Lemma finishes_unwind fuel c w :
  peaceful reaction → wf w → active w < fuel → is_Some (lookupContext w c) →
  finishes (unwind reaction fuel c) w.
Proof.
  intros Hpe Hw Ha [x Hx]. unfold unwind, unwind_with.
  apply finishes_bind; [apply finishes_deref; by eexists|].
  intros x' w0 [-> Hx']%deref_returned. simplify_eq.
  apply finishes_bind; [|intros; apply finishes_ret].
  apply (finishes_forEach (ready fuel (_children x))).
  + split; [by apply wf_closed|]. split; [done|].
    intros k Hk. apply (closed_children _ (wf_closed _ Hw) c).
    unfold children. by rewrite Hx.
  + intros k _. by apply invariant_ready_end.
  + intros k w' Hk (? & ? & Hks). apply finishes_end; auto.
Qed.

Lemma unwindToRootContext_returns_the_root_by_reaction fuel steps c w :
  wf w → grounded w → is_Some (lookupContext w c) → c < steps →
  ∃ r, root steps c w = (w, Returned r)
     ∧ descends w r c ∧ parent w r = None
     ∧ (let w' := (unwindToRootContext reaction fuel steps c w).1 in
        state w' r = state w r
        ∧ ∀ a, (unwindToRootContext reaction fuel steps c w).2 = Returned a →
            a = r ∧ children w' r = []
            ∧ (∀ y, below w r y → state w' y = Some Ended)
            ∧ (below w r c → state w' c = Some Ended))
     ∧ (peaceful reaction → active w < fuel →
        finishes (unwindToRootContext reaction fuel steps c) w).
Proof.
  intros Hw Hg Hc Hsteps.
  destruct (root_grounded w c Hg Hc) as (r & Hr & _ & Hex & Hnone & Hd).
  apply (root_more_steps _ steps) in Hr; [|lia].
  exists r. split; [done|]. split; [done|]. split; [done|].
  unfold finishes.
  rewrite unwindToRootContext_root, (bind_returned _ _ _ _ _ Hr), bind_eq.
  destruct (unwind_confined fuel r w Hw Hg) as [HS _]. split.
  - destruct (unwind reaction fuel r w) as [w1 [a|e|]] eqn:Hrun; simpl in *;
      (split; [apply HS; tauto|]); intros a' Ha; [|done..].
    injection Ha as <-.
    destruct (unwind_ends_below fuel r w w1 a Hw Hrun) as (-> & Hemp & Hbelow).
    split; [done|]. split; [done|]. split; intros; by apply Hbelow.
  - intros Hpe Ha.
    destruct (finishes_elim _ _ (finishes_unwind fuel r w Hpe Hw Ha Hex))
      as (w1 & a & ->).
    by eexists.
Qed.
End LifecycleSubtree.

(** ** The pending axis *)

Lemma axis_update_axis a c w d :
  axis (updateContext (with_axis a) c w) d
  = if decide (c = d) then lookupContext w c ≫= λ _, a else axis w d.
Proof.
  unfold axis. rewrite lookup_update. case_decide; [subst|done].
  by destruct (lookupContext w d).
Qed.

#[local] Instance axes_consumed_refl : Reflexive axes_consumed.
Proof. intros w d. by right. Qed.

#[local] Instance axes_consumed_trans : Transitive axes_consumed.
Proof.
  intros w1 w2 w3 H12 H23 d. destruct (H23 d) as [?|E]; [by left|].
  rewrite E. apply H12.
Qed.

Lemma axes_consumed_same w w' : (∀ d, axis w' d = axis w d) → axes_consumed w w'.
Proof. intros H d. by right. Qed.

Lemma axes_consumed_clear c w : axes_consumed w (updateContext (with_axis None) c w).
Proof.
  intros d. rewrite axis_update_axis. case_decide; [left|by right].
  by destruct (lookupContext w c).
Qed.

Section Completion.
Context (R : relation World) `{!Reflexive R, !Transitive R}.

Lemma on_completion_preserves {A} (m : M A) : preserves R m → on_completion R m.
Proof. intros H w _. apply H. Qed.

Lemma on_completion_ret {A} (a : A) : on_completion R (ret a).
Proof. by intros w _. Qed.

Lemma on_completion_bind {A B} (m : M A) (k : A → M B) :
  on_completion R m → (∀ a, on_completion R (k a)) → on_completion R (m ≫= k).
Proof.
  intros Hm Hk w. rewrite bind_eq. specialize (Hm w).
  destruct (m w) as [w1 [a|e|]]; simpl in *; intros Hne.
  - etransitivity; [by apply Hm|by apply Hk].
  - by apply Hm.
  - done.
Qed.
End Completion.

Section AxisConsumed.
Variable baseHandler :
  list (ContextId * JsValue) → ContextId → Callback → bool → Composer → bool.
Variable traversal : Tree → TraversingAxis → ContextId → list ContextId.

Lemma on_completion_base this callback greedy composer :
  on_completion axes_consumed (base baseHandler this callback greedy composer).
Proof. intros w _. rewrite base_run. by apply axes_consumed_same. Qed.

Lemma on_completion_traverse {A} (visitor : A → ContextId → M (A * bool)) acc nodes :
  (∀ a n, on_completion axes_consumed (visitor a n)) →
  on_completion axes_consumed (traverse visitor acc nodes).
Proof.
  intros Hv. revert acc. induction nodes as [|n nodes IH]; intros acc; simpl.
  - apply on_completion_ret; apply _.
  - apply on_completion_bind; [apply _|apply Hv|].
    intros [acc' []]; [apply on_completion_ret; apply _|apply IH].
Qed.

Section Step.
Variable handle' : ContextId → Callback → bool → Composer → M bool.
Hypothesis handle_consumes :
  ∀ c callback greedy composer,
    on_completion axes_consumed (handle' c callback greedy composer).
Hypothesis handle_clears :
  ∀ c callback greedy composer w,
    (handle' c callback greedy composer w).2 ≠ OutOfFuel →
    axis (handle' c callback greedy composer w).1 c = None.

Lemma handleAxis_with_run c a callback greedy composer w :
  handleAxis_with handle' c (Some a) callback greedy composer w
  = handle' c callback greedy composer (updateContext (with_axis (Some a)) c w).
Proof. done. Qed.

Lemma handleAxis_with_clears c a callback greedy composer w :
  (handleAxis_with handle' c (Some a) callback greedy composer w).2 ≠ OutOfFuel →
  axis (handleAxis_with handle' c (Some a) callback greedy composer w).1 c = None.
Proof. rewrite handleAxis_with_run. apply handle_clears. Qed.

Lemma on_completion_handleAxis_with c a callback greedy composer :
  on_completion axes_consumed (handleAxis_with handle' c a callback greedy composer).
Proof.
  destruct a as [a|]; [|by intros w _].
  intros w. rewrite handleAxis_with_run. intros Hne.
  pose proof (handle_clears c callback greedy composer _ Hne) as Hc.
  pose proof (handle_consumes c callback greedy composer _ Hne) as H.
  intros d. destruct (decide (d = c)) as [->|Hd]; [by left|].
  destruct (H d) as [?|E]; [by left|right]. rewrite E, axis_update_axis.
  by case_decide.
Qed.

Lemma on_completion_handleCallback_with c callback greedy composer :
  on_completion axes_consumed
    (handleCallback_with baseHandler traversal handle' c callback greedy composer).
Proof.
  unfold handleCallback_with.
  apply on_completion_bind;
    [apply _|apply on_completion_preserves, preserves_deref; apply _|].
  intros x. destruct (_axis x) as [a|].
  - apply on_completion_bind; [apply _|intros w _; apply axes_consumed_clear|].
    intros _. case_decide; [apply on_completion_base|].
    apply on_completion_bind; [apply _|by intros w _|].
    intros nodes. apply on_completion_traverse. intros acc n.
    apply on_completion_bind;
      [apply _| |intros ?; apply on_completion_ret; apply _].
    case_decide; [apply on_completion_base|].
    apply on_completion_handleAxis_with.
  - apply on_completion_bind; [apply _|apply on_completion_base|].
    intros handled.
    destruct (handled && negb greedy); [apply on_completion_ret; apply _|].
    destruct (_parent x); [|apply on_completion_ret; apply _].
    apply on_completion_bind; [apply _|apply handle_consumes|].
    intros ?. apply on_completion_ret; apply _.
Qed.

Lemma handleCallback_with_clears c callback greedy composer w :
  (handleCallback_with baseHandler traversal handle' c callback greedy composer w).2
    ≠ OutOfFuel →
  axis (handleCallback_with baseHandler traversal handle' c callback greedy
          composer w).1 c = None.
Proof.
  intros Hne.
  pose proof (on_completion_handleCallback_with c callback greedy composer w Hne)
    as Hall.
  destruct (lookupContext w c) as [x|] eqn:Hx.
  2: { revert Hne Hall. unfold handleCallback_with. rewrite bind_eq. unfold deref.
       rewrite Hx. simpl. intros _ _. unfold axis. by rewrite Hx. }
  destruct (_axis x) as [a|] eqn:Ha.
  2: { destruct (Hall c) as [?|E]; [done|]. rewrite E. unfold axis.
       by rewrite Hx. }
  revert Hne. clear Hall. unfold handleCallback_with.
  rewrite (bind_returned _ _ _ _ _ (deref_Some _ _ _ Hx)), Ha.
  rewrite bind_eq. unfold modify. cbv beta iota.
  set (w1 := updateContext (with_axis None) c w).
  set (m := if decide (a = Self) then _ else _).
  assert (on_completion axes_consumed m) as Hm.
  { unfold m. case_decide; [apply on_completion_base|].
    apply on_completion_bind; [apply _|by intros ? _|].
    intros nodes. apply on_completion_traverse. intros acc n.
    apply on_completion_bind;
      [apply _| |intros ?; apply on_completion_ret; apply _].
    case_decide; [apply on_completion_base|].
    apply on_completion_handleAxis_with. }
  intros Hne. destruct (Hm w1 Hne c) as [?|E]; [done|]. rewrite E.
  unfold w1. rewrite axis_update_axis. case_decide; [|done]. by rewrite Hx.
Qed.
End Step.

Lemma handle_consumes_axes fuel c callback greedy composer :
  on_completion axes_consumed
    (handle baseHandler traversal fuel c callback greedy composer)
  ∧ ∀ w, (handle baseHandler traversal fuel c callback greedy composer w).2
           ≠ OutOfFuel →
         axis (handle baseHandler traversal fuel c callback greedy composer w).1 c
         = None.
Proof.
  revert c callback greedy composer.
  induction fuel as [|fuel IH]; intros c callback greedy composer; simpl.
  - split; by intros w.
  - split.
    + apply on_completion_handleCallback_with; intros; by apply IH.
    + apply handleCallback_with_clears; intros; by apply IH.
Qed.

(** X9.  A dispatch of a callback consumes the pending axis.  When
    [handle] or [handleAxis] is given a callback, not [null] or
    [undefined], and comes back, by returning or by throwing, the
    receiver has no pending axis, and no context has a pending axis
    that it did not have before: the axis set by [handleAxis], also on
    the nodes of a traversal, serves one dispatch.  With an absent
    callback, [handle] returns false before [handleCallback] is
    reached, so that [handleAxis] returns false and leaves the axis it
    has set pending on the receiver, for the next dispatch.
    [handleAxis] with something that is no axis throws and changes
    nothing. *)
Theorem dispatch_consumes_the_axis fuel c callback greedy composer w :
  ((handle baseHandler traversal fuel c callback greedy composer w).2 ≠ OutOfFuel →
     axis (handle baseHandler traversal fuel c callback greedy composer w).1 c = None
     ∧ axes_consumed w
         (handle baseHandler traversal fuel c callback greedy composer w).1)
  ∧ (∀ a,
       (handleAxis baseHandler traversal fuel c (Some a) callback greedy composer w).2
         ≠ OutOfFuel →
       axis (handleAxis baseHandler traversal fuel c (Some a) callback greedy
               composer w).1 c = None
       ∧ axes_consumed w
           (handleAxis baseHandler traversal fuel c (Some a) callback greedy
              composer w).1)
  ∧ handleAxis baseHandler traversal fuel c None callback greedy composer w
    = (w, Thrown (TypeError "Invalid axis type supplied"))
  ∧ handle_nullable baseHandler traversal fuel c (Some callback) greedy composer w
    = handle baseHandler traversal fuel c callback greedy composer w
  ∧ (∀ a, handleAxis_nullable baseHandler traversal fuel c a (Some callback) greedy
            composer w
          = handleAxis baseHandler traversal fuel c a callback greedy composer w)
  ∧ handle_nullable baseHandler traversal fuel c None greedy composer w
    = (w, Returned false)
  ∧ (∀ a, handleAxis_nullable baseHandler traversal fuel c (Some a) None greedy
            composer w
          = (updateContext (with_axis (Some a)) c w, Returned false)
          ∧ (is_Some (lookupContext w c) →
             axis (handleAxis_nullable baseHandler traversal fuel c (Some a) None
                     greedy composer w).1 c = Some a)).
Proof.
  split; [|split; [|split; [done|]]].
  - intros Hne. destruct (handle_consumes_axes fuel c callback greedy composer)
      as [H1 H2].
    split; [by apply H2|by apply H1].
  - intros a Hne. split.
    + apply handleAxis_with_clears; [|done]. intros. by apply handle_consumes_axes.
    + apply on_completion_handleAxis_with; [| |done];
        intros; by apply handle_consumes_axes.
  - split; [done|]. split; [by intros [a|]|]. split; [done|].
    intros a. split; [done|]. intros [x Hx]. simpl.
    rewrite axis_update_axis. case_decide; [|done]. by rewrite Hx.
Qed.
End AxisConsumed.

(** ** Observers that are not registered *)

#[local] Instance ignoring_refl o : Reflexive (ignoring o).
Proof. intros w. exists []. split; [by rewrite app_nil_r|constructor]. Qed.

#[local] Instance ignoring_trans o : Transitive (ignoring o).
Proof.
  intros w1 w2 w3 (t1 & E1 & S1) (t2 & E2 & S2). exists (t1 ++ t2).
  split; [by rewrite E2, E1, app_assoc|by apply Forall_app].
Qed.

Lemma ignoring_same_trace o w w' : trace w' = trace w → ignoring o w w'.
Proof. intros E. exists []. split; [by rewrite app_nil_r|constructor]. Qed.

Lemma observers_with_observers v c w d :
  observers (updateContext (with_observers v) c w) d
  = if decide (c = d) then lookupContext w c ≫= λ _, v else observers w d.
Proof.
  unfold observers. rewrite lookup_update. case_decide; [subst|done].
  by destruct (lookupContext w d).
Qed.

Lemma unheard_same o w w' :
  (∀ d, observers w' d = observers w d) → unheard o w → unheard o w'.
Proof. intros H Hw d l. rewrite H. apply Hw. Qed.

Lemma unheard_update o f c w :
  (∀ x, _observers (f x) = _observers x) → unheard o w → unheard o (updateContext f c w).
Proof. intros Hf. apply unheard_same. intros d. by apply observers_update. Qed.

Lemma unheard_with_observers o v c w :
  (∀ l, v = Some l → o ∉ l) → unheard o w →
  unheard o (updateContext (with_observers v) c w).
Proof.
  intros Hv Hw d l. rewrite observers_with_observers. case_decide; [|apply Hw].
  destruct (lookupContext w c); [apply Hv|done].
Qed.

Lemma keeps_unheard_unsubscribe o u : keeps (unheard o) (ignoring o) (unsubscribe u).
Proof.
  intros w Hw. split; [|apply ignoring_same_trace, trace_unsubscribe].
  unfold unsubscribe. rewrite bind_eq. unfold deref.
  destruct (lookupContext w (sub_context u)) as [x|] eqn:Hx; [|done].
  destruct (_observers x) as [l|] eqn:Hl; [|done].
  destruct (indexOf (sub_observer u) l) as [index|]; [|done].
  apply unheard_with_observers; [|done]. intros ? [= <-] Hin.
  apply (Hw (sub_context u) l); [unfold observers; by rewrite Hx|].
  eapply sublist_subseteq; [apply sublist_delete|done].
Qed.

Lemma keeps_unheard_setState o c s : keeps (unheard o) (ignoring o) (setState c s).
Proof.
  intros w Hw. destruct (lookupContext w c) as [x|] eqn:Hx.
  - rewrite (setState_Some _ _ _ _ Hx). simpl. split.
    + by apply (unheard_update o (with_state s) c w).
    + eexists. split; [done|]. by apply Forall_singleton.
  - unfold setState. rewrite bind_eq. unfold deref. rewrite Hx. simpl.
    split; [done|reflexivity].
Qed.

Lemma keeps_unheard_modify o f c :
  (∀ x, _observers (f x) = _observers x ∨ _observers (f x) = None) →
  keeps (unheard o) (ignoring o) (modify f c).
Proof.
  intros Hf w Hw. split; [|by apply ignoring_same_trace].
  intros d l. unfold modify. simpl. unfold observers. rewrite lookup_update.
  case_decide; [subst d|apply Hw].
  destruct (lookupContext w c) as [x|] eqn:Hx; [|done]. simpl.
  destruct (Hf x) as [E|E]; rewrite E; [|done].
  intros Hl. apply (Hw c). unfold observers. by rewrite Hx.
Qed.

Section Unheard.
Variable reaction : Observer → Notification → list Unsubscribe.
Variable o : Observer.

Lemma keeps_unheard_notify l n :
  o ∉ l → keeps (unheard o) (ignoring o) (notify reaction l n).
Proof.
  intros Hl. unfold notify. apply keeps_forEach; [apply _..|]. intros o' Ho'.
  apply keeps_bind; [apply _| |intros _].
  - intros w Hw. split; [done|]. eexists. split; [done|].
    apply Forall_singleton. by intros ->.
  - apply keeps_forEach; [apply _..|]. intros u _. apply keeps_unheard_unsubscribe.
Qed.

Lemma unheard_notifier w c x :
  unheard o w → lookupContext w c = Some x → o ∉ makeNotifier x.
Proof.
  intros Hw Hx. unfold makeNotifier. destruct (_observers x) as [l|] eqn:Hl.
  - apply (Hw c). unfold observers. by rewrite Hx.
  - apply not_elem_of_nil.
Qed.

Section Step.
Variable end_child : ContextId → M unit.
Hypothesis end_child_keeps : ∀ k, keeps (unheard o) (ignoring o) (end_child k).

Lemma keeps_unheard_unwind_with c :
  keeps (unheard o) (ignoring o) (unwind_with end_child c).
Proof.
  unfold unwind_with. apply keeps_deref; [apply _..|]. intros x w Hx Hw.
  assert (keeps (unheard o) (ignoring o)
            (forEach end_child (_children x) ≫= λ _, ret c)) as H; [|by apply H].
  apply keeps_bind; [apply _| |intros _; apply keeps_ret; apply _].
  apply keeps_forEach; [apply _..|]. intros k _. apply end_child_keeps.
Qed.

Lemma keeps_unheard_end_base_with c :
  keeps (unheard o) (ignoring o) (end_base_with reaction end_child c).
Proof.
  unfold end_base_with. apply keeps_deref; [apply _..|]. intros x w Hx Hw.
  case_decide as Hact; [|done].
  pose proof (unheard_notifier w c x Hw Hx) as Hn.
  assert (keeps (unheard o) (ignoring o)
    (setState c Ending ≫= λ _,
     notify reaction (makeNotifier x) (contextEnding c) ≫= λ _,
     unwind_with end_child c ≫= λ _,
     setState c Ended ≫= λ _,
     notify reaction (makeNotifier x) (contextEnded c) ≫= λ _,
     modify (with_observers None) c)) as H; [|by apply H].
  repeat first
    [apply keeps_unheard_setState | by apply keeps_unheard_notify
    |apply keeps_unheard_unwind_with
    |apply keeps_unheard_modify; intros ?; by right
    |apply keeps_bind; [apply _| |intros ?]].
Qed.

Lemma keeps_unheard_end_child_with p c :
  keeps (unheard o) (ignoring o) (end_child_with reaction end_child p c).
Proof.
  unfold end_child_with. apply keeps_deref; [apply _..|]. intros x w Hx Hw.
  destruct (indexOf c (_children x)) as [index|]; [|done].
  pose proof (unheard_notifier w p x Hw Hx) as Hn.
  assert (keeps (unheard o) (ignoring o)
    (notify reaction (makeNotifier x) (childContextEnding c) ≫= λ _,
     modify (λ x, with_children (delete index (_children x)) x) p ≫= λ _,
     end_base_with reaction end_child c ≫= λ _,
     notify reaction (makeNotifier x) (childContextEnded c))) as H; [|by apply H].
  repeat first
    [by apply keeps_unheard_notify
    |apply keeps_unheard_end_base_with
    |apply keeps_unheard_modify; intros ?; by left
    |apply keeps_bind; [apply _| |intros ?]].
Qed.

Lemma keeps_unheard_end_with c :
  keeps (unheard o) (ignoring o) (end_with reaction end_child c).
Proof.
  unfold end_with. apply keeps_deref; [apply _..|]. intros x w Hx Hw.
  destruct (_extended x), (_parent x);
    first [by apply keeps_unheard_end_child_with
          |by apply keeps_unheard_end_base_with].
Qed.
End Step.

Lemma keeps_unheard_end fuel c :
  keeps (unheard o) (ignoring o) (end_ reaction fuel c).
Proof.
  revert c. induction fuel as [|fuel IH]; intros c; simpl.
  - intros w Hw. split; [done|reflexivity].
  - by apply keeps_unheard_end_with.
Qed.

Lemma keeps_unheard_unwind fuel c :
  keeps (unheard o) (ignoring o) (unwind reaction fuel c).
Proof. apply keeps_unheard_unwind_with, keeps_unheard_end. Qed.

Lemma unregistered_observer_hears_nothing_by_reaction fuel steps c w :
  unheard o w →
  (unheard o (end_ reaction fuel c w).1
   ∧ ∃ t, trace (end_ reaction fuel c w).1 = trace w ++ t ∧ silent o t)
  ∧ (unheard o (dispose reaction fuel c w).1
     ∧ ∃ t, trace (dispose reaction fuel c w).1 = trace w ++ t ∧ silent o t)
  ∧ (unheard o (unwind reaction fuel c w).1
     ∧ ∃ t, trace (unwind reaction fuel c w).1 = trace w ++ t ∧ silent o t)
  ∧ (unheard o (unwindToRootContext reaction fuel steps c w).1
     ∧ ∃ t, trace (unwindToRootContext reaction fuel steps c w).1 = trace w ++ t
            ∧ silent o t).
Proof.
  intros Hw. split; [by apply keeps_unheard_end|].
  split; [by apply keeps_unheard_end|]. split; [by apply keeps_unheard_unwind|].
  revert c. induction steps as [|steps IH]; intros c.
  - split; [done|]. exists []. split; [by rewrite app_nil_r|constructor].
  - simpl. rewrite bind_eq. unfold deref.
    destruct (lookupContext w c) as [x|].
    2: { split; [done|]. exists []. split; [by rewrite app_nil_r|constructor]. }
    destruct (_parent x) as [p|]; [apply IH|].
    assert (keeps (unheard o) (ignoring o)
              (unwind reaction fuel c ≫= λ _, ret c)) as H; [|by apply H].
    apply keeps_bind; [apply _|apply keeps_unheard_unwind|].
    intros _. apply keeps_ret; apply _.
Qed.
End Unheard.

(** ** Subscribing and unsubscribing *)

Lemma indexOf_app_fresh o l : o ∉ l → indexOf o (l ++ [o]) = Some (length l).
Proof.
  intros Ho. induction l as [|y l IH]; simpl.
  - by case_decide.
  - apply not_elem_of_cons in Ho as [Hne Ho]. case_decide; [done|].
    by rewrite (IH Ho).
Qed.

Lemma indexOf_app_old o l i : indexOf o l = Some i → indexOf o (l ++ [o]) = Some i.
Proof.
  revert i. induction l as [|y l IH]; intros i; simpl; [done|].
  case_decide; [done|]. destruct (indexOf o l) as [j|]; [|done].
  intros [= <-]. by rewrite (IH j).
Qed.

Lemma delete_app_last (l : list nat) o : delete (length l) (l ++ [o]) = l.
Proof. induction l as [|y l IH]; simpl; [done|]. by rewrite IH. Qed.

Lemma delete_app_old (l : list nat) o i :
  i < length l → delete i (l ++ [o]) = delete i l ++ [o].
Proof.
  revert i. induction l as [|y l IH]; intros i Hi; simpl in *; [lia|].
  destruct i as [|i]; [done|]. simpl. rewrite IH; [done|lia].
Qed.

(** X11.  Subscribing and unsubscribing at once.  On an active context,
    [observe(o)] followed by a call of the function it returns both
    return; the tree, the states and the trace are what they were, and so
    are the observers of the other contexts.  The observers of the context
    are what they were when [o] was not among them; when it was, its
    first registration has gone and the new one is last: the function
    does not remove the registration it was returned for. *)
Theorem observe_unsubscribe_round_trip c o w x :
  lookupContext w c = Some x → _state x = Active →
  ∃ w1 u w2,
    observe c (Some o) w = (w1, Returned (Some u))
    ∧ unsubscribe u w1 = (w2, Returned tt)
    ∧ observers w2 c
      = Some (match indexOf o (default [] (_observers x)) with
              | Some i => delete i (default [] (_observers x)) ++ [o]
              | None => default [] (_observers x)
              end)
    ∧ (∀ d, d ≠ c → observers w2 d = observers w d)
    ∧ tree_kept w w2
    ∧ trace w2 = trace w
    ∧ (unheard o w → unheard o w2).
Proof.
  intros Hx Hs. unfold observe.
  rewrite (bind_returned _ _ _ _ _ (ensureActive_active _ _ _ Hx Hs)).
  rewrite bind_eq. unfold modify at 1. cbv beta iota. unfold ret at 1.
  set (l := default [] (_observers x)) in *.
  set (w1 := updateContext _ c w).
  assert (lookupContext w1 c = Some (with_observers (Some (l ++ [o])) x)) as Hx1.
  { unfold w1. by rewrite lookup_update_eq, Hx. }
  assert (∃ j, indexOf o (l ++ [o]) = Some j
             ∧ delete j (l ++ [o])
               = match indexOf o l with Some i => delete i l ++ [o] | None => l end)
    as (j & Hj & Hdel).
  { destruct (indexOf o l) as [i|] eqn:Hi.
    - exists i. split; [by apply indexOf_app_old|]. apply delete_app_old.
      apply indexOf_Some in Hi as [Hi _]. by apply lookup_lt_Some in Hi.
    - exists (length l). apply indexOf_None in Hi.
      split; [by apply indexOf_app_fresh|apply delete_app_last]. }
  eexists w1, _, _. split; [done|].
  rewrite (unsubscribe_registered _ _ _ _ _ _ Hx1 eq_refl Hj).
  split; [done|]. set (w2 := updateContext _ c w1).
  assert (∀ d, d ≠ c → observers w2 d = observers w d) as Hother.
  { intros d Hd. unfold w2, w1, observers. rewrite !lookup_update.
    case_decide; [congruence|done]. }
  assert (observers w2 c
          = Some (match indexOf o l with Some i => delete i l ++ [o] | None => l end))
    as Hc.
  { unfold w2. rewrite observers_with_observers. case_decide; [|done].
    by rewrite Hx1, Hdel. }
  split; [exact Hc|]. split; [exact Hother|]. split.
  { transitivity w1; by apply preserves_tree_kept_modify. }
  split; [done|].
  intros Hw d l'. destruct (decide (d = c)) as [->|Hd].
  - rewrite Hc. intros [= <-].
    assert (o ∉ l) as Hl.
    { unfold l. destruct (_observers x) as [l0|] eqn:E; [|apply not_elem_of_nil].
      apply (Hw c). unfold observers. by rewrite Hx. }
    apply indexOf_None in Hl as Hi. by rewrite Hi.
  - rewrite Hother by done. apply Hw.
Qed.

(** ** An end that does not come back *)

Lemma begun_evolving w w' c : evolving (λ _, False) w w' → begun w c → begun w' c.
Proof.
  intros Hev (s & Hs & Hne). exists s. split; [|done].
  apply (ev_frozen _ _ _ Hev c s); [tauto|done..].
Qed.

Lemma begun_tree_kept w w' c : tree_kept w w' → begun w c → begun w' c.
Proof. intros K (s & Hs & Hne). exists s. by rewrite (tk_state _ _ K). Qed.

Lemma begun_setState w c s :
  s ≠ Active → is_Some (lookupContext w c) → begun (setState c s w).1 c.
Proof. intros Hs Hc. exists s. split; [by apply state_after_setState|done]. Qed.

Lemma bind_modify {B} f c (k : unit → M B) w :
  (modify f c ≫= k) w = k tt (updateContext f c w).
Proof. done. Qed.

Section NotResumed.
Variable reaction : Observer → Notification → list Unsubscribe.

Lemma end_base_with_begun fuel c w x :
  lookupContext w c = Some x → _state x = Active →
  begun (end_base_with reaction (end_ reaction fuel) c w).1 c.
Proof.
  intros Hx Hs. unfold end_base_with.
  rewrite (bind_returned _ _ _ _ _ (deref_Some _ _ _ Hx)).
  case_decide as Hact; [clear Hact|done].
  assert (begun (setState c Ending w).1 c) as Hb.
  { apply begun_setState; [done|by eexists]. }
  apply (post_bind (λ w', begun w' c)); [done|]. intros [] w1 H1.
  rewrite H1 in Hb. simpl in Hb. clear H1. revert w1 Hb.
  change (invariant (λ w', begun w' c)
    (notify reaction (makeNotifier x) (contextEnding c) ≫= λ _,
     unwind_with (end_ reaction fuel) c ≫= λ _,
     setState c Ended ≫= λ _,
     notify reaction (makeNotifier x) (contextEnded c) ≫= λ _,
     modify (with_observers None) c)).
  assert (∀ l n, invariant (λ w', begun w' c) (notify reaction l n)) as Hnot.
  { intros l n. eapply invariant_preserves; [|apply preserves_tree_kept_notify].
    intros ??. apply begun_tree_kept. }
  assert (invariant (λ w', begun w' c) (unwind_with (end_ reaction fuel) c)) as Hunw.
  { eapply invariant_preserves; [|apply (preserves_evolving_unwind reaction fuel c)].
    intros ??. apply begun_evolving. }
  assert (invariant (λ w', begun w' c) (setState c Ended)) as Hset.
  { intros w1 (s & Hs1 & _). apply begun_setState; [done|].
    apply state_is_Some in Hs1 as (? & ? & _). by eexists. }
  assert (invariant (λ w', begun w' c) (modify (with_observers None) c)) as Hmod.
  { eapply invariant_preserves; [|by apply preserves_tree_kept_modify].
    intros ??. apply begun_tree_kept. }
  repeat first
    [apply Hnot | apply Hunw | apply Hset | apply Hmod
    |apply invariant_bind; [|intros ?]].
Qed.

(** A context that has left [Active] and is in no list: its [end]
    does nothing. *)
Lemma end_begun_noop fuel c w :
  begun w c → detached w c →
  (extended w c = true → ∀ p, parent w c = Some p → is_Some (lookupContext w p)) →
  end_ reaction (S fuel) c w = (w, Returned tt).
Proof.
  intros (s & Hs & Hne) Hd Hp. simpl. unfold end_with.
  apply state_is_Some in Hs as (x & Hx & <-).
  rewrite (bind_returned _ _ _ _ _ (deref_Some _ _ _ Hx)).
  assert (end_base_with reaction (end_ reaction fuel) c w = (w, Returned tt)) as Hbase
    by by eapply end_base_with_inactive.
  destruct (_extended x) eqn:He; [|done].
  destruct (_parent x) as [p|] eqn:Hpx; [|done].
  destruct (Hp) with p as [px Hpx'].
  { unfold extended. by rewrite Hx. }
  { unfold parent. by rewrite Hx. }
  unfold end_child_with. rewrite (bind_returned _ _ _ _ _ (deref_Some _ _ _ Hpx')).
  assert (indexOf c (_children px) = None) as ->; [|done].
  apply indexOf_None. intros Hin. apply (Hd p). unfold children. by rewrite Hpx'.
Qed.

Lemma end_is_not_resumed_by_reaction fuel c w :
  wf w → state w c = Some Active →
  let w' := (end_ reaction fuel c w).1 in
  tree_kept w w'
  ∨ (begun w' c ∧ detached w' c
     ∧ ∀ fuel', end_ reaction (S fuel') c w' = (w', Returned tt)).
Proof.
  intros Hw Hs w'.
  assert (shrinking w w') as Hsh by apply preserves_shrinking_end.
  assert (begun w' c → detached w' c →
          ∀ fuel', end_ reaction (S fuel') c w' = (w', Returned tt)) as Hnoop.
  { intros Hb Hd fuel'. apply end_begun_noop; [done..|].
    destruct (sh_static _ _ Hsh c) as [-> ->]. intros He p Hp.
    destruct (wf_parent _ Hw c He) as (q & Hq & Hex).
    rewrite Hp in Hq. injection Hq as ->.
    eapply lookup_is_Some_length; [apply Hsh|done]. }
  enough (tree_kept w w' ∨ (begun w' c ∧ detached w' c)) as [?|[??]];
    [by left|right; by auto|].
  clear Hnoop Hsh. subst w'.
  destruct fuel as [|fuel]; [by left|]. simpl. unfold end_with.
  apply state_is_Some in Hs as (x & Hx & Hs).
  rewrite (bind_returned _ _ _ _ _ (deref_Some _ _ _ Hx)).
  assert (∀ w1 x1, lookupContext w1 c = Some x1 → _state x1 = Active →
            detached w1 c →
            begun (end_base_with reaction (end_ reaction fuel) c w1).1 c
            ∧ detached (end_base_with reaction (end_ reaction fuel) c w1).1 c)
    as Hbase.
  { intros w1 x1 Hx1 Hs1 Hd1. split; [by eapply end_base_with_begun|].
    eapply detached_shrinking; [|done].
    apply preserves_shrinking_end_base_with, preserves_shrinking_end. }
  destruct (_extended x) eqn:He.
  2: { right. eapply Hbase; [done..|]. eapply wf_detached; eauto. }
  destruct (_parent x) as [p|] eqn:Hp.
  2: { right. eapply Hbase; [done..|]. eapply wf_detached; eauto. }
  unfold end_child_with. rewrite bind_eq. unfold deref.
  destruct (lookupContext w p) as [px|] eqn:Hpx; [|by left].
  destruct (indexOf c (_children px)) as [index|] eqn:Hi; [|by left].
  apply indexOf_Some in Hi as [Hi _].
  apply (post_bind (λ w', tree_kept w w' ∨ (begun w' c ∧ detached w' c))).
  { left. apply preserves_tree_kept_notify. }
  intros [] w1 K1%tree_kept_notify. right.
  rewrite bind_modify.
  assert (wf w1) as Hw1 by by eapply wf_tree_kept.
  assert (children w1 p !! index = Some c) as Hc1.
  { rewrite (tk_children _ _ K1). unfold children. by rewrite Hpx. }
  destruct (wf_detached_splice w1 p c index Hw1 Hc1) as [Hw2 Hd2].
  set (w2 := updateContext _ p w1) in *.
  assert (∃ x2, lookupContext w2 c = Some x2 ∧ _state x2 = Active) as (x2 & Hx2 & Hs2).
  { apply state_is_Some. unfold w2. rewrite state_update by done.
    rewrite (tk_state _ _ K1). unfold state. rewrite Hx. simpl. by f_equal. }
  apply (post_bind (λ w', begun w' c ∧ detached w' c)); [by eapply Hbase|].
  intros [] w3 H3. pose proof (Hbase w2 x2 Hx2 Hs2 Hd2) as [Hb3 Hd3].
  rewrite H3 in Hb3, Hd3. simpl in Hb3, Hd3.
  pose proof (preserves_tree_kept_notify reaction (makeNotifier px)
                (childContextEnded c) w3) as K3.
  split; [by eapply begun_tree_kept|by eapply detached_tree_kept].
Qed.
End NotResumed.

(** ** A child that comes and goes *)

Lemma descends_fresh w k x :
  (∀ y, parent w y ≠ Some k) → descends w k x → x = k.
Proof.
  intros Hk Hd. induction Hd as [|x q Hq Hd IH]; [done|]. subst q. by apply Hk in Hq.
Qed.

Section RoundTrip.
Variable reaction : Observer → Notification → list Unsubscribe.

Lemma newChild_end_round_trip_by_reaction fuel p w w1 k w2 :
  wf w → grounded w →
  newChild p w = (w1, Returned k) → end_ reaction fuel k w1 = (w2, Returned tt) →
  lookupContext w k = None
  ∧ state w2 k = Some Ended ∧ children w2 k = [] ∧ detached w2 k
  ∧ parent w2 k = Some p
  ∧ children w2 p = children w p
  ∧ ∀ x, x ≠ k → state w2 x = state w x ∧ children w2 x = children w x.
Proof.
  intros Hw Hg Hnew Hend.
  pose proof (wf_newChild p w Hw) as Hw1.
  pose proof (grounded_newChild p w Hg) as Hg1.
  rewrite Hnew in Hw1, Hg1. simpl in Hw1, Hg1.
  assert (∃ x, lookupContext w p = Some x ∧ _state x = Active) as (x & Hx & Hs).
  { unfold newChild, ensureActive in Hnew. rewrite !bind_eq in Hnew.
    unfold deref in Hnew. destruct (lookupContext w p) as [x|]; [|done].
    exists x. split; [done|]. by case_decide. }
  rewrite (newChild_run _ _ _ Hx Hs) in Hnew. injection Hnew as <- <-.
  set (k := length (heap w)) in *.
  set (wa := {| heap := heap w ++ [newContext (Some p) true];
                provided := provided w; trace := trace w |}) in *.
  set (w1 := updateContext _ p wa) in *.
  assert (p < k) as Hpk by (apply lookup_lt_Some in Hx; done).
  assert (lookupContext w k = None) as Hfresh.
  { unfold lookupContext. by apply lookup_ge_None_2. }
  assert (∀ d, lookupContext w1 d
               = if decide (d = k) then Some (newContext (Some p) true)
                 else if decide (d = p)
                      then Some (with_children (_children x ++ [k]) x)
                      else lookupContext w d) as Hl1.
  { intros d. unfold w1. rewrite lookup_update. unfold wa.
    rewrite !lookup_allocated. fold k.
    repeat case_decide; subst; try lia; try done. by rewrite Hx. }
  assert (∀ d, d ≠ k → state w1 d = state w d) as Hs1.
  { intros d Hd. unfold state. rewrite Hl1. repeat case_decide; subst; try done.
    by rewrite Hx. }
  assert (∀ d, d ≠ k → d ≠ p → children w1 d = children w d) as Hc1.
  { intros d Hd Hd'. unfold children. rewrite Hl1. by repeat case_decide. }
  assert (children w1 p = children w p ++ [k]) as Hcp.
  { unfold children. rewrite Hl1, Hx. repeat case_decide; try lia; done. }
  assert (children w1 k = []) as Hck.
  { unfold children. rewrite Hl1. by case_decide. }
  assert (parent w1 k = Some p) as Hpar.
  { unfold parent. rewrite Hl1. by case_decide. }
  assert (k ∈ children w1 p) as Hin.
  { rewrite Hcp. apply elem_of_app. right. left. }
  pose proof (invariant_wf_end reaction fuel k w1 Hw1) as Hw2.
  pose proof (preserves_shrinking_end reaction fuel k w1) as Hsh.
  rewrite Hend in Hw2, Hsh. simpl in Hw2, Hsh.
  pose proof (end_ended reaction fuel p k w1 w2 Hw1 Hin Hend) as Hk2.
  assert (∀ y, descends w1 k y → y = k) as Hdesc.
  { intros y0. apply descends_fresh. intros y Hy. pose proof (Hg1 _ _ Hy) as Hlt.
    assert (is_Some (lookupContext w1 y)) as [? Hy'].
    { unfold parent in Hy. destruct (lookupContext w1 y); [by eexists|done]. }
    rewrite Hl1 in Hy'. repeat case_decide; try lia.
    apply lookup_lt_Some in Hy'. fold k in Hy'. lia. }
  destruct (end_confined reaction fuel k w1 Hw1) as [HS HC].
  rewrite Hend in HS, HC. simpl in HS, HC.
  assert (k ∉ children w p) as Hnk.
  { intros Hin'. apply (wf_child _ Hw) in Hin' as (Hin' & _).
    unfold state in Hin'. by rewrite Hfresh in Hin'. }
  assert (children w2 p = children w p) as Hp2.
  { pose proof Hend as Hrun. destruct fuel as [|fuel]; [done|].
    simpl in Hrun. unfold end_with in Hrun.
    assert (lookupContext w1 k = Some (newContext (Some p) true)) as Hk1.
    { rewrite Hl1. by case_decide. }
    assert (lookupContext w1 p = Some (with_children (_children x ++ [k]) x)) as Hp1.
    { rewrite Hl1. repeat case_decide; try lia; done. }
    rewrite (bind_returned _ _ _ _ _ (deref_Some _ _ _ Hk1)) in Hrun.
    simpl in Hrun. unfold end_child_with in Hrun.
    rewrite (bind_returned _ _ _ _ _ (deref_Some _ _ _ Hp1)) in Hrun.
    change (_children (with_children (_children x ++ [k]) x))
      with (_children x ++ [k]) in Hrun.
    assert (children w p = _children x) as Hl by (unfold children; by rewrite Hx).
    rewrite <-Hl, (indexOf_app_fresh k (children w p) Hnk) in Hrun.
    invert_run Hrun as wn [] Hn. invert_run Hrun as wm' [] Hm.
    invert_run Hrun as w3 [] H3. injection Hm as <-.
    pose proof (tree_kept_notify _ _ _ _ _ _ Hn) as Kn.
    pose proof (tree_kept_notify _ _ _ _ _ _ Hrun) as K3.
    assert (wf wn) as Hwn by by eapply wf_tree_kept.
    assert (children wn p = children w p ++ [k]) as Hcn.
    { by rewrite (tk_children _ _ Kn). }
    assert (children wn p !! length (children w p) = Some k) as Hin'.
    { rewrite Hcn. by apply list_lookup_middle. }
    destruct (wf_detached_splice wn p k _ Hwn Hin') as [Hwm Hdm].
    set (wm := updateContext _ p wn) in *.
    assert (children wm p = children w p) as Hcm.
    { unfold wm. rewrite children_with_children. case_decide; [|done].
      assert (is_Some (lookupContext wn p)) as [? ->].
      { eapply lookup_is_Some_length; [apply Kn|by eexists]. }
      rewrite Hcn. apply delete_app_last. }
    destruct (end_base_with_confined reaction (end_ reaction fuel)
                (preserves_shrinking_end reaction fuel)
                (invariant_wf_end reaction fuel)
                (λ j w, end_confined reaction fuel j w) k wm Hwm Hdm) as [_ HCm].
    rewrite H3 in HCm. simpl in HCm.
    rewrite (tk_children _ _ K3), HCm; [done|].
    intros Hd. assert (p = k); [|lia]. apply Hdesc.
    eapply descends_static; [|exact Hd]. intros d. symmetry. unfold wm.
    rewrite parent_update by done. apply Kn. }
  split; [done|]. split; [done|]. split.
  { pose proof (sh_children _ _ Hsh k) as Hsub. rewrite Hck in Hsub.
    destruct (children w2 k) as [|j l]; [done|]. exfalso.
    apply (not_elem_of_nil j), Hsub. left. }
  split; [by apply wf_ended_detached|]. split.
  { by rewrite (proj1 (sh_static _ _ Hsh k)). }
  split; [done|]. intros y Hy. split.
  - rewrite HS; [by apply Hs1|]. intros Hd%Hdesc. done.
  - destruct (decide (y = p)) as [->|Hyp]; [done|].
    rewrite HC; [by apply Hc1|]. intros [Hd%Hdesc|Hd]; [done|].
    rewrite Hpar in Hd. congruence.
Qed.
End RoundTrip.

(** ** What an end reaches *)

Lemma below_mono w w' c x :
  (∀ p, children w' p ⊆ children w p) → below w' c x → below w c x.
Proof.
  intros Hsub Hx. induction Hx as [k Hk|y k Hy IH Hk].
  - apply below_child. by apply Hsub.
  - eapply below_step; [exact IH|]. by apply Hsub.
Qed.

Lemma below_under_child w c k x : k ∈ children w c → below w k x → below w c x.
Proof.
  intros Hk Hx. induction Hx as [j Hj|y j Hy IH Hj].
  - eapply below_step; [by apply below_child|done].
  - eapply below_step; [exact IH|done].
Qed.

Lemma below_in_a_list w c x : below w c x → ∃ y, x ∈ children w y.
Proof. intros [k Hk|y k _ Hk]; eauto. Qed.

Section Reach.
Variable reaction : Observer → Notification → list Unsubscribe.

Section Step.
Variable end_child : ContextId → M unit.
Hypothesis end_child_shrinks : ∀ k, preserves shrinking (end_child k).
Hypothesis end_child_wf : ∀ k, invariant wf (end_child k).
Hypothesis end_child_reaches :
  ∀ k w, wf w →
    confined (λ x, x = k ∨ below w k x)
      (λ x, (x = k ∨ below w k x) ∨ parent w k = Some x)
      w (end_child k w).1.

Lemma end_base_with_reaches c w0 :
  wf w0 → detached w0 c →
  confined (λ x, x = c ∨ below w0 c x) (λ x, x = c ∨ below w0 c x) w0
    (end_base_with reaction end_child c w0).1.
Proof.
  intros Hw0 Hd0.
  set (P := λ w, wf w ∧ detached w c ∧ shrinking w0 w).
  set (R := confined (λ x, x = c ∨ below w0 c x) (λ x, x = c ∨ below w0 c x)).
  assert (∀ {A} (m : M A),
            (∀ w, wf w ∧ detached w c → wf (m w).1) → preserves shrinking m →
            invariant P m) as HP.
  { intros A m Hm Hs w (Hw & Hd & Hsh). split; [by apply Hm|]. split.
    - eapply detached_shrinking; [apply Hs|done].
    - etransitivity; [exact Hsh|apply Hs]. }
  assert (∀ s, keeps P R (setState c s)) as Hset.
  { intros s. apply keeps_intro.
    - apply HP; [|apply preserves_shrinking_setState].
      intros w [Hw Hd]. by apply wf_setState.
    - intros w. apply confined_setState. by left. }
  assert (∀ l n, keeps P R (notify reaction l n)) as Hnot.
  { intros l n. apply keeps_intro.
    - apply HP; [|apply preserves_shrinking_notify].
      intros w [Hw _]. by apply invariant_wf_notify.
    - intros w. apply confined_tree_kept, preserves_tree_kept_notify. }
  assert (keeps P R (modify (with_observers None) c)) as Hmod.
  { apply keeps_intro.
    - apply HP; [|by apply preserves_shrinking_modify].
      intros w [Hw _]. eapply wf_tree_kept; [|done].
      by apply preserves_tree_kept_modify.
    - intros w. apply confined_tree_kept. by apply preserves_tree_kept_modify. }
  assert (keeps P R (unwind_with end_child c)) as Hunw.
  { unfold unwind_with. apply keeps_deref; [apply _..|]. intros x w Hx HPw.
    assert (∀ k, k ∈ children w0 c → keeps P R (end_child k)) as Hk.
    { intros k Hk. destruct (wf_child _ Hw0 _ _ Hk) as (_ & Hkp & _).
      intros w1 (Hw1 & Hd1 & Hsh). split.
      - apply HP; [by intros ? [? _]; apply end_child_wf|apply end_child_shrinks|done].
      - assert (∀ y, y = k ∨ below w1 k y → y = c ∨ below w0 c y) as Hsub.
        { intros y [->|Hy]; right; [by apply below_child|].
          apply (below_under_child _ _ k); [done|].
          eapply below_mono; [apply Hsh|done]. }
        eapply confined_weaken; [| |by apply end_child_reaches].
        + apply Hsub.
        + intros y [Hy|Hy]; [by apply Hsub|].
          destruct (sh_static _ _ Hsh k) as [Hpk _]. rewrite Hpk, Hkp in Hy.
          injection Hy as <-. by left. }
    assert (keeps P R (forEach end_child (_children x) ≫= λ _, ret c)) as H.
    { apply keeps_bind; [apply _| |intros _; by apply keeps_ret].
      apply keeps_forEach; [apply _..|]. intros k Hin. apply Hk.
      destruct HPw as (_ & _ & Hsh). apply (sh_children _ _ Hsh).
      unfold children. by rewrite Hx. }
    by apply H. }
  assert (keeps P R (end_base_with reaction end_child c)) as H.
  { unfold end_base_with. apply keeps_deref; [apply _..|]. intros x w Hx HPw.
    case_decide as Hact; [|done].
    assert (keeps P R
      (setState c Ending ≫= λ _,
       notify reaction (makeNotifier x) (contextEnding c) ≫= λ _,
       unwind_with end_child c ≫= λ _,
       setState c Ended ≫= λ _,
       notify reaction (makeNotifier x) (contextEnded c) ≫= λ _,
       modify (with_observers None) c)) as H; [|by apply H].
    repeat first
      [apply Hset | apply Hnot | apply Hunw | apply Hmod
      |apply keeps_bind; [apply _| |intros ?]]. }
  by apply H.
Qed.

Lemma end_child_with_reaches p c w :
  wf w → parent w c = Some p →
  confined (λ x, x = c ∨ below w c x) (λ x, (x = c ∨ below w c x) ∨ x = p) w
    (end_child_with reaction end_child p c w).1.
Proof.
  intros Hw Hp. unfold end_child_with. rewrite bind_eq.
  destruct (deref p w) as [w0 [x|e|]] eqn:Hd; simpl;
    try (by unfold deref in Hd; destruct (lookupContext w p); simplify_eq).
  apply deref_returned in Hd as [-> Hx].
  destruct (indexOf c (_children x)) as [index|] eqn:Hi; [|done].
  apply indexOf_Some in Hi as [Hi _].
  set (X := λ y, y = c ∨ below w c y).
  set (Y := λ y, (y = c ∨ below w c y) ∨ y = p).
  apply (rel_bind (confined X Y)); [|intros [] w1 H1].
  { apply confined_tree_kept, preserves_tree_kept_notify. }
  apply tree_kept_notify in H1.
  assert (wf w1) as Hw1 by by eapply wf_tree_kept.
  assert (children w1 p !! index = Some c) as Hc1.
  { rewrite (tk_children _ _ H1). unfold children. by rewrite Hx. }
  apply (rel_bind (confined X Y)); [|intros [] w2 [= <-]].
  { apply confined_splice. by right. }
  destruct (wf_detached_splice w1 p c index Hw1 Hc1) as [Hw2 Hd2].
  set (w2 := updateContext _ p w1) in *.
  assert (∀ y, y = c ∨ below w2 c y → X y) as Hd2w.
  { intros y [->|Hy]; [by left|right]. eapply below_mono; [|exact Hy].
    intros q. rewrite <-(tk_children _ _ H1). unfold w2.
    rewrite children_with_children. case_decide; [subst q|done].
    destruct (lookupContext w1 p); [|apply list_subseteq_nil].
    apply sublist_subseteq, sublist_delete. }
  apply (rel_bind (confined X Y)); [|intros [] w3 H3].
  { eapply confined_weaken; [| |by apply end_base_with_reaches].
    - apply Hd2w.
    - intros y Hy. left. by apply Hd2w. }
  apply confined_tree_kept, preserves_tree_kept_notify.
Qed.

Lemma end_with_reaches c w :
  wf w →
  confined (λ x, x = c ∨ below w c x)
    (λ x, (x = c ∨ below w c x) ∨ parent w c = Some x) w
    (end_with reaction end_child c w).1.
Proof.
  intros Hw. unfold end_with. rewrite bind_eq.
  destruct (deref c w) as [w0 [x|e|]] eqn:Hd; simpl;
    try (by unfold deref in Hd; destruct (lookupContext w c); simplify_eq).
  apply deref_returned in Hd as [-> Hx].
  assert (_extended x = false ∨ _parent x = None →
          confined (λ x, x = c ∨ below w c x)
            (λ x, (x = c ∨ below w c x) ∨ parent w c = Some x) w
            (end_base_with reaction end_child c w).1) as Hbase.
  { intros Hx'. eapply confined_weaken; [| |apply end_base_with_reaches].
    - done.
    - intros y Hy. by left.
    - done.
    - eapply wf_detached; eauto. }
  destruct (_extended x) eqn:He; [|by apply Hbase; left].
  destruct (_parent x) as [p|] eqn:Hp; [|by apply Hbase; right].
  assert (parent w c = Some p) as Hpc by (unfold parent; by rewrite Hx).
  eapply confined_weaken; [| |by apply end_child_with_reaches].
  - done.
  - intros y [Hy | ->]; [by left|by right].
Qed.
End Step.

Lemma end_reaches fuel c w :
  wf w →
  confined (λ x, x = c ∨ below w c x)
    (λ x, (x = c ∨ below w c x) ∨ parent w c = Some x) w
    (end_ reaction fuel c w).1.
Proof.
  revert c w. induction fuel as [|fuel IH]; intros c w Hw; simpl; [done|].
  apply end_with_reaches; [apply preserves_shrinking_end|apply invariant_wf_end|
                           apply IH|done].
Qed.

Lemma unwind_reaches fuel c w :
  wf w →
  confined (below w c) (λ x, x = c ∨ below w c x) w (unwind reaction fuel c w).1.
Proof.
  intros Hw. unfold unwind, unwind_with. rewrite bind_eq.
  destruct (deref c w) as [w0 [x|e|]] eqn:Hd; simpl;
    try (by unfold deref in Hd; destruct (lookupContext w c); simplify_eq).
  apply deref_returned in Hd as [-> Hx].
  set (P := λ w1, wf w1 ∧ shrinking w w1).
  set (R := confined (below w c) (λ x, x = c ∨ below w c x)).
  assert (keeps P R (forEach (end_ reaction fuel) (_children x) ≫= λ _, ret c)) as H.
  { apply keeps_bind; [apply _| |intros _; by apply keeps_ret].
    apply keeps_forEach; [apply _..|]. intros k Hk.
    assert (k ∈ children w c) as Hkc by (unfold children; by rewrite Hx).
    destruct (wf_child _ Hw _ _ Hkc) as (_ & Hkp & _).
    intros w1 [Hw1 Hs1]. split.
    - split; [by apply invariant_wf_end|].
      etransitivity; [exact Hs1|apply preserves_shrinking_end].
    - assert (∀ y, y = k ∨ below w1 k y → below w c y) as Hsub.
      { intros y [->|Hy]; [by apply below_child|].
        apply (below_under_child _ _ k); [done|].
        eapply below_mono; [apply Hs1|done]. }
      eapply confined_weaken; [| |by apply end_reaches].
      + apply Hsub.
      + intros y [Hy|Hy]; [right; by apply Hsub|].
        destruct (sh_static _ _ Hs1 k) as [Hpk _]. rewrite Hpk, Hkp in Hy.
        injection Hy as <-. by left. }
  apply H. by split.
Qed.

Lemma end_reaches_the_lists_only_by_reaction fuel c w :
  wf w →
  (∀ x, x ≠ c → ¬ below w c x →
     state (end_ reaction fuel c w).1 x = state w x
     ∧ (parent w c ≠ Some x →
        children (end_ reaction fuel c w).1 x = children w x))
  ∧ (∀ x, ¬ below w c x →
       state (unwind reaction fuel c w).1 x = state w x
       ∧ (x ≠ c → children (unwind reaction fuel c w).1 x = children w x)).
Proof.
  intros Hw. destruct (end_reaches fuel c w Hw) as [HS HC].
  destruct (unwind_reaches fuel c w Hw) as [HS' HC']. split.
  - intros x Hx Hb. split; [apply HS; tauto|]. intros Hp. apply HC. tauto.
  - intros x Hb. split; [by apply HS'|]. intros Hx. apply HC'. tauto.
Qed.

Lemma constructed_context_is_no_child_by_reaction p w :
  wf w →
  let k := length (heap w) in
  let w1 := (allocate (newContext (Some p) false) w).1 in
  allocate (newContext (Some p) false) w = (w1, Returned k)
  ∧ parent w1 k = Some p ∧ state w1 k = Some Active ∧ extended w1 k = false
  ∧ (∀ d, children w1 d = children w d) ∧ detached w1 k
  ∧ wf w1
  ∧ ∀ fuel c,
      (c ≠ k → state (end_ reaction fuel c w1).1 k = Some Active)
      ∧ state (unwind reaction fuel c w1).1 k = Some Active.
Proof.
  intros Hw k w1.
  assert (wf w1) as Hw1 by (by apply (wf_allocate w (newContext (Some p) false))).
  assert (lookupContext w1 k = Some (newContext (Some p) false)) as Hk.
  { unfold w1. simpl. rewrite lookup_allocated. by case_decide. }
  assert (∀ d, children w1 d = children w d) as Hch.
  { intros d. unfold children, w1. simpl. rewrite lookup_allocated.
    case_decide as Hd; [|done]. subst d. simpl.
    unfold lookupContext, k. by rewrite lookup_ge_None_2. }
  assert (detached w1 k) as Hdet.
  { intros q Hq. rewrite Hch in Hq.
    apply (closed_children _ (wf_closed _ Hw)) in Hq as [? Hq].
    apply lookup_lt_Some in Hq. unfold k in Hq. lia. }
  assert (∀ c, ¬ below w1 c k) as Hnb.
  { intros c (y & Hy)%below_in_a_list. by apply (Hdet y). }
  assert (state w1 k = Some Active) as Hs by (unfold state; by rewrite Hk).
  split; [done|]. split; [unfold parent; by rewrite Hk|]. split; [done|].
  split; [unfold extended; by rewrite Hk|]. split; [done|]. split; [done|].
  split; [done|]. intros fuel c. split.
  - intros Hc. destruct (end_reaches fuel c w1 Hw1) as [HS _].
    rewrite HS; [done|]. intros [->|Hb]; [done|by apply (Hnb c)].
  - destruct (unwind_reaches fuel c w1 Hw1) as [HS _].
    rewrite HS; [done|]. apply Hnb.
Qed.
End Reach.

(** ** The children a context has *)

Lemma newChild_returned p w w1 k :
  newChild p w = (w1, Returned k) →
  ∃ x, lookupContext w p = Some x ∧ _state x = Active.
Proof.
  intros Hnew. unfold newChild, ensureActive in Hnew. rewrite !bind_eq in Hnew.
  unfold deref in Hnew. destruct (lookupContext w p) as [x|]; [|done].
  exists x. split; [done|]. by case_decide.
Qed.

Lemma children_newChild p w x :
  lookupContext w p = Some x → _state x = Active →
  children (newChild p w).1 p = children w p ++ [length (heap w)].
Proof.
  intros Hx Hs. rewrite (newChild_run _ _ _ Hx Hs). simpl.
  rewrite (children_with_children (λ l, l ++ [length (heap w)])).
  case_decide; [|done]. unfold children. rewrite lookup_allocated.
  case_decide as Hp; [apply lookup_lt_Some in Hx; lia|]. by rewrite Hx.
Qed.

Lemma hasChildren_false w c : hasChildren w c = false ↔ children w c = [].
Proof.
  unfold hasChildren. destruct (children w c) as [|k l]; [done|].
  split; [|done]. intros H%bool_decide_eq_false. simpl in H. lia.
Qed.

Section HasChildren.
Variable reaction : Observer → Notification → list Unsubscribe.

Lemma hasChildren_follows_the_calls_by_reaction fuel c w :
  (hasChildren w c = false ↔ children w c = [])
  ∧ (∀ w1 k, newChild c w = (w1, Returned k) → hasChildren w1 c = true)
  ∧ (wf w → ∀ w' r, unwind reaction fuel c w = (w', Returned r) →
       hasChildren w' c = false)
  ∧ (wf w → state w c = Some Active →
     ∀ w', end_ reaction fuel c w = (w', Returned tt) → state w' c = Some Ended →
       hasChildren w' c = false).
Proof.
  split; [apply hasChildren_false|]. split; [|split].
  - intros w1 k Hnew. destruct (newChild_returned _ _ _ _ Hnew) as (x & Hx & Hs).
    pose proof (children_newChild c w x Hx Hs) as Hc.
    rewrite Hnew in Hc. simpl in Hc. unfold hasChildren. rewrite Hc, length_app.
    apply bool_decide_eq_true. simpl. lia.
  - intros Hw w' r Hrun. apply hasChildren_false.
    by destruct (unwind_empties reaction fuel c w w' r Hw Hrun).
  - intros Hw Hs w' Hrun Hs'. apply hasChildren_false.
    destruct (end_settles reaction fuel c w w' Hw Hrun) as [_ He]. by apply He.
Qed.
End HasChildren.

(** ** Observers that only unsubscribe *)

Lemma bind_ext {A B} (m m' : M A) (k k' : A → M B) w :
  m w = m' w → (∀ a w1, k a w1 = k' a w1) → (m ≫= k) w = (m' ≫= k') w.
Proof.
  intros Hm Hk. rewrite !bind_eq, Hm. by destruct (m' w) as [w1 [a|e|]].
Qed.

Lemma forEach_ext {A} (f g : A → M unit) l w :
  (∀ x w1, f x w1 = g x w1) → forEach f l w = forEach g l w.
Proof.
  intros H. revert w. induction l as [|x l IH]; intros w; [done|].
  rewrite !forEach_cons. apply bind_ext; [apply H|]. intros _ w1. apply IH.
Qed.

Lemma forEach_fmap {A B} (h : A → B) (f : B → M unit) l w :
  forEach f (h <$> l) w = forEach (λ x, f (h x)) l w.
Proof.
  revert w. induction l as [|x l IH]; intros w; [done|].
  rewrite fmap_cons, !forEach_cons. apply bind_ext; [done|]. intros _ w1. apply IH.
Qed.

Lemma unwind_with_ext (e e' : ContextId → M unit) c w :
  (∀ k w1, e k w1 = e' k w1) → unwind_with e c w = unwind_with e' c w.
Proof.
  intros H. unfold unwind_with. apply bind_ext; [done|]. intros x w1.
  apply bind_ext; [by apply forEach_ext|done].
Qed.

Lemma unsubscribing_only_unsubscribes reaction :
  unsubscribing (only_unsubscribes reaction) reaction.
Proof. by intros o n w. Qed.

Section Refinement.
Variable behaviour : Observer → Notification → World → list Reentrant.Call.
Variable reaction : Observer → Notification → list Unsubscribe.
Variable baseHandler :
  list (ContextId * JsValue) → ContextId → Callback → bool → Composer → bool.
Variable traversal : Tree → TraversingAxis → ContextId → list ContextId.
Hypothesis observers_unsubscribe : unsubscribing behaviour reaction.

Section Step.
Variable call : Operation → M unit.
Variables end_child end_child' : ContextId → M unit.
Hypothesis call_unsubscribe : ∀ u w, call (OpUnsubscribe u) w = unsubscribe u w.
Hypothesis end_child_same : ∀ k w, end_child k w = end_child' k w.

Lemma notify_unsubscribing l n w :
  Reentrant.notify behaviour call l n w = notify reaction l n w.
Proof.
  unfold Reentrant.notify, notify. apply forEach_ext. intros o w1.
  apply bind_ext; [done|]. intros _ w2. rewrite bind_eq. unfold gets.
  rewrite observers_unsubscribe, forEach_fmap. apply forEach_ext.
  intros u w3. apply call_unsubscribe.
Qed.

Lemma end_base_with_unsubscribing c w :
  Reentrant.end_base_with behaviour call end_child c w
  = end_base_with reaction end_child' c w.
Proof.
  unfold Reentrant.end_base_with, end_base_with.
  apply bind_ext; [done|]. intros x w1. case_decide; [|done].
  apply bind_ext; [done|]. intros _ w2.
  apply bind_ext; [apply notify_unsubscribing|]. intros _ w3.
  apply bind_ext; [by apply unwind_with_ext|]. intros _ w4.
  apply bind_ext; [done|]. intros _ w5.
  apply bind_ext; [apply notify_unsubscribing|done].
Qed.

Lemma end_child_with_unsubscribing p c w :
  Reentrant.end_child_with behaviour call end_child p c w
  = end_child_with reaction end_child' p c w.
Proof.
  unfold Reentrant.end_child_with, end_child_with.
  apply bind_ext; [done|]. intros x w1.
  destruct (indexOf c (_children x)); [|done].
  apply bind_ext; [apply notify_unsubscribing|]. intros _ w2.
  apply bind_ext; [done|]. intros _ w3.
  apply bind_ext; [apply end_base_with_unsubscribing|]. intros _ w4.
  apply notify_unsubscribing.
Qed.

Lemma end_with_unsubscribing c w :
  Reentrant.end_with behaviour call end_child c w
  = end_with reaction end_child' c w.
Proof.
  unfold Reentrant.end_with, end_with. apply bind_ext; [done|]. intros x w1.
  destruct (_extended x), (_parent x);
    first [apply end_child_with_unsubscribing|apply end_base_with_unsubscribing].
Qed.
End Step.

(** With observers that only unsubscribe, the lifecycle is that of the
    section [Lifecycle]. *)
Lemma end_unsubscribing fuel c w :
  Reentrant.end_ behaviour baseHandler traversal fuel c w = end_ reaction fuel c w.
Proof.
  revert c w. induction fuel as [|fuel IH]; intros c w; [done|].
  simpl. by apply end_with_unsubscribing.
Qed.

Lemma dispose_unsubscribing fuel c w :
  Reentrant.dispose behaviour baseHandler traversal fuel c w
  = dispose reaction fuel c w.
Proof. apply end_unsubscribing. Qed.

Lemma unwind_unsubscribing fuel c w :
  Reentrant.unwind behaviour baseHandler traversal fuel c w
  = unwind reaction fuel c w.
Proof. apply unwind_with_ext. apply end_unsubscribing. Qed.

Lemma end_base_unsubscribing fuel c w :
  Reentrant.end_base behaviour baseHandler traversal fuel c w
  = end_base reaction fuel c w.
Proof. apply end_base_with_unsubscribing; [done|apply end_unsubscribing]. Qed.

Lemma unwindToRootContext_unsubscribing fuel steps c w :
  Reentrant.unwindToRootContext behaviour baseHandler traversal fuel steps c w
  = unwindToRootContext reaction fuel steps c w.
Proof.
  unfold Reentrant.unwindToRootContext.
  revert c w. induction steps as [|steps IH]; intros c w; [done|]. simpl.
  apply bind_ext; [done|]. intros x w1. destruct (_parent x); [apply IH|].
  apply bind_ext; [apply unwind_unsubscribing|done].
Qed.

Lemma perform_unsubscribing fuel op w :
  Reentrant.perform behaviour baseHandler traversal fuel op w
  = perform reaction baseHandler traversal fuel op w.
Proof.
  destruct op; simpl; try done.
  - apply bind_ext; [apply unwind_unsubscribing|done].
  - apply bind_ext; [apply unwindToRootContext_unsubscribing|done].
  - apply end_unsubscribing.
  - apply end_unsubscribing.
Qed.

Lemma run_unsubscribing fuel ops w :
  Reentrant.run behaviour baseHandler traversal fuel ops w
  = run reaction baseHandler traversal fuel ops w.
Proof.
  unfold Reentrant.run, run. revert w.
  induction ops as [|op ops IH]; intros w; [done|]. simpl.
  by rewrite perform_unsubscribing, IH.
Qed.
End Refinement.

(** ** The index of a child that ends *)

Lemma elem_of_delete_other (l : list nat) i c :
  l !! i ≠ Some c → c ∈ l → c ∈ delete i l.
Proof.
  intros Hi (j & Hj)%list_elem_of_lookup_1.
  destruct (decide (j < i)) as [Hlt|Hge].
  - apply (list_elem_of_lookup_2 _ j). by rewrite list_lookup_delete_lt.
  - assert (j ≠ i) by (intros ->; done).
    destruct j as [|j]; [lia|].
    apply (list_elem_of_lookup_2 _ j). rewrite list_lookup_delete_ge by lia. done.
Qed.

Section StaleIndex.
Variable behaviour : Observer → Notification → World → list Reentrant.Call.
Variable baseHandler :
  list (ContextId * JsValue) → ContextId → Callback → bool → Composer → bool.
Variable traversal : Tree → TraversingAxis → ContextId → list ContextId.

(** C4.  The [end()] of a child [c] that came out of [p.newChild()] and
    is at [index] among the children of [p] reads the index, notifies
    the observers of [p] of [childContextEnding(c)], and then takes out
    of the children of [p] what is at that index.  When an observer has
    meanwhile changed the list, as by ending a child in front of [c],
    [c] is no longer at the index: the call takes out what is there
    now, a child [k] that is not ended by it and that its own [end()]
    will no longer find, or nothing when the list has become too short;
    and it goes on with the [end()] of the class on [c] and with
    [childContextEnded(c)] while [c] is still among the children
    of [p]. *)
Theorem child_end_stale_index fuel p c w x px index w1 :
  lookupContext w c = Some x → _extended x = true → _parent x = Some p →
  lookupContext w p = Some px → indexOf c (_children px) = Some index →
  Reentrant.notify behaviour (Reentrant.perform behaviour baseHandler traversal fuel)
    (makeNotifier px) (childContextEnding c) w = (w1, Returned tt) →
  c ∈ children w1 p → children w1 p !! index ≠ Some c →
  let w2 := updateContext
              (λ y, with_children (delete index (_children y)) y) p w1 in
  Reentrant.end_ behaviour baseHandler traversal (S fuel) c w
  = (Reentrant.end_base behaviour baseHandler traversal fuel c ≫= λ _,
     Reentrant.notify behaviour
       (Reentrant.perform behaviour baseHandler traversal fuel)
       (makeNotifier px) (childContextEnded c)) w2
  ∧ children w2 p = delete index (children w1 p)
  ∧ c ∈ children w2 p
  ∧ (∀ d, state w2 d = state w1 d)
  ∧ (∀ k, children w1 p !! index = Some k →
       k ≠ c ∧ (NoDup (children w1 p) → k ∉ children w2 p))
  ∧ (length (children w1 p) ≤ index → children w2 p = children w1 p).
Proof.
  intros Hx He Hp Hpx Hi Hnot Hin Hstale w2.
  assert (children w2 p = delete index (children w1 p)) as Hc2.
  { unfold w2. rewrite children_with_children. case_decide; [|done].
    destruct (lookupContext w1 p) eqn:E; [done|].
    unfold children in Hin. rewrite E in Hin. by apply elem_of_nil in Hin. }
  split; [|split; [done|split; [|split; [|split]]]].
  - simpl. unfold Reentrant.end_with.
    rewrite (bind_returned _ _ _ _ _ (deref_Some _ _ _ Hx)), He, Hp.
    unfold Reentrant.end_child_with.
    rewrite (bind_returned _ _ _ _ _ (deref_Some _ _ _ Hpx)), Hi.
    by rewrite (bind_returned _ _ _ _ _ Hnot).
  - rewrite Hc2. by apply elem_of_delete_other.
  - intros d. unfold w2. by rewrite state_update.
  - intros k Hk. split; [by intros ->|]. intros Hnd. rewrite Hc2.
    by apply NoDup_delete_lookup.
  - intros Hlen. rewrite Hc2, delete_take_drop.
    rewrite take_ge, drop_ge by lia. apply app_nil_r.
Qed.
End StaleIndex.

(** ** The lifecycle under observers that call back *)

Section ReentrantEvolves.
Variable behaviour : Observer → Notification → World → list Reentrant.Call.
Variable baseHandler :
  list (ContextId * JsValue) → ContextId → Callback → bool → Composer → bool.
Variable traversal : Tree → TraversingAxis → ContextId → list ContextId.

Section Step.
Variable call : Operation → M unit.
Variable end_child : ContextId → M unit.
Hypothesis call_evolves :
  ∀ op, preserves (evolving (λ _, False)) (call op).
Hypothesis end_child_evolves :
  ∀ k, preserves (evolving (λ _, False)) (end_child k).

(** A call in a [try] changes what the call changes. *)
Lemma preserves_attempt (R : relation World) m :
  preserves R m → preserves R (Reentrant.attempt m).
Proof.
  intros Hm w. specialize (Hm w). unfold Reentrant.attempt.
  by destruct (m w) as [w1 [[]|e|]].
Qed.

(** The calls an observer makes from one of its methods. *)
Lemma reentrant_calls_evolve X o n :
  preserves (evolving X)
    (gets (behaviour o n) ≫= λ calls, forEach (Reentrant.make call) calls).
Proof.
  apply preserves_bind; [apply _..|apply preserves_gets; apply _|].
  intros calls. apply preserves_forEach; [apply _..|]. intros k w.
  eapply evolving_weaken; [|destruct k; simpl;
    [apply call_evolves|apply preserves_attempt, call_evolves]]. done.
Qed.

Lemma reentrant_notify_evolves (X : ContextId → Prop) l n :
  (∀ d, announces (Notified 0 n) = Some d → X d) →
  preserves (evolving X) (Reentrant.notify behaviour call l n).
Proof.
  intros HX. unfold Reentrant.notify. apply preserves_forEach; [apply _..|].
  intros o.
  apply preserves_bind; [apply _..|by apply preserves_evolving_emit_notified|].
  intros _. apply reentrant_calls_evolve.
Qed.

(** A notifier call that returns while [c] is ending or ended: whatever
    the observers call, the state of [c] stays, and what announces the
    ending of [c] meanwhile is the method invoked once on every
    observer of the snapshot, in order. *)
Lemma reentrant_notify_heard c s l n w w' :
  state w c = Some s → s ≠ Active → announces (Notified 0 n) = Some c →
  Reentrant.notify behaviour call l n w = (w', Returned tt) →
  state w' c = Some s
  ∧ ∃ t, trace w' = trace w ++ t
       ∧ filter (λ e, announces e = Some c) t = notifications l n.
Proof.
  intros Hs Hn Ha. unfold Reentrant.notify. revert w Hs.
  induction l as [|o l IH]; intros w Hs.
  - intros [= <-]. split; [done|]. exists []. by rewrite app_nil_r.
  - rewrite forEach_cons. intros H. invert_run H as w1 [] H1.
    invert_run H1 as w0 [] H0. injection H0 as <-.
    pose proof (reentrant_calls_evolve (λ _, False) o n
      {| heap := heap w; provided := provided w;
         trace := trace w ++ [Notified o n] |}) as Hev.
    rewrite H1 in Hev. simpl in Hev.
    destruct Hev as [_ F (t0 & Ht0 & _ & Q)].
    assert (state w1 c = Some s) as Hs1 by (apply (F c s); [tauto|done..]).
    assert (quiet c t0) as Hq by (apply (Q c s); [tauto|done..]).
    destruct (IH w1 Hs1 H) as (Hs' & t & Ht & Hf). split; [done|].
    exists ([Notified o n] ++ t0 ++ t). split.
    + rewrite Ht, Ht0. simpl. by rewrite <-!app_assoc.
    + rewrite !filter_app, (quiet_filter _ _ Hq), Hf.
      rewrite filter_cons, filter_nil. case_decide as Hd; [done|].
      by destruct n.
Qed.

Lemma reentrant_end_base_with_evolves c :
  preserves (evolving (λ _, False))
    (Reentrant.end_base_with behaviour call end_child c).
Proof.
  intros w. unfold Reentrant.end_base_with. rewrite bind_eq.
  destruct (deref c w) as [w0 [x|e|]] eqn:Hd; simpl; try reflexivity;
    try (by unfold deref in Hd; destruct (lookupContext w c); simplify_eq).
  apply deref_returned in Hd as [-> Hx].
  case_decide as Hact; [|reflexivity].
  apply (evolving_close (λ d, d = c)).
  { intros d ->. unfold state. by rewrite Hx; simpl; f_equal. }
  apply (rel_bind (evolving (λ d, d = c))); [|intros [] w1 H1].
  { eapply evolving_setState; [done|by rewrite Hact|by left]. }
  rewrite (setState_Some _ _ _ _ Hx) in H1.
  assert (state w1 c = Some Ending) as Hs1.
  { simplify_eq. change (state (updateContext (with_state Ending) c w) c = Some Ending).
    rewrite state_with_state. case_decide; [|done]. unfold state. by rewrite Hx. }
  clear H1.
  apply (rel_bind (evolving (λ d, d = c))); [|intros [] w2 H2].
  { apply reentrant_notify_evolves. by intros d [= ->]. }
  assert (state w2 c = Some Ending) as Hs2.
  { by apply (reentrant_notify_heard c Ending _ _ _ _ Hs1) in H2 as [? _]. }
  clear H2.
  apply (rel_bind (evolving (λ d, d = c))); [|intros r w3 H3].
  { by apply preserves_evolving_unwind_with. }
  assert (state w3 c = Some Ending) as Hs3.
  { pose proof (preserves_evolving_unwind_with end_child end_child_evolves
      (λ _, False) c w2) as Hev.
    rewrite (result_fst _ _ _ _ H3) in Hev.
    apply (ev_frozen _ _ _ Hev c Ending); [tauto|done|done]. }
  clear H3. apply state_is_Some in Hs3 as (x3 & Hx3 & Hst3).
  apply (rel_bind (evolving (λ d, d = c))); [|intros [] w4 H4].
  { eapply evolving_setState; [done|by rewrite Hst3|by right]. }
  apply (rel_bind (evolving (λ d, d = c))); [|intros [] w5 H5].
  { apply reentrant_notify_evolves. by intros d [= ->]. }
  by apply preserves_evolving_modify.
Qed.

Lemma reentrant_end_child_with_evolves p c :
  preserves (evolving (λ _, False))
    (Reentrant.end_child_with behaviour call end_child p c).
Proof.
  unfold Reentrant.end_child_with.
  apply preserves_bind; [apply _..|apply preserves_deref; apply _|].
  intros x. destruct (indexOf c (_children x)); [|apply preserves_ret; apply _].
  repeat first
    [apply reentrant_notify_evolves; by intros ? [=]
    |apply reentrant_end_base_with_evolves
    |by apply preserves_evolving_modify
    |apply preserves_bind; [apply _..| |intros ?]].
Qed.

Lemma reentrant_end_with_evolves c :
  preserves (evolving (λ _, False))
    (Reentrant.end_with behaviour call end_child c).
Proof.
  unfold Reentrant.end_with.
  apply preserves_bind; [apply _..|apply preserves_deref; apply _|].
  intros x. destruct (_extended x), (_parent x);
    first [apply reentrant_end_child_with_evolves
          |apply reentrant_end_base_with_evolves].
Qed.
End Step.

Lemma reentrant_unwindToRootContext_with_evolves unwind steps c :
  (∀ d, preserves (evolving (λ _, False)) (unwind d)) →
  preserves (evolving (λ _, False))
    (Reentrant.unwindToRootContext_with unwind steps c).
Proof.
  intros Hu. revert c. induction steps as [|steps IH]; intros c; simpl.
  - apply preserves_diverge; apply _.
  - apply preserves_bind; [apply _..|apply preserves_deref; apply _|intros x].
    destruct (_parent x); [apply IH|].
    apply preserves_bind; [apply _..|apply Hu|intros _].
    apply preserves_ret; apply _.
Qed.

Lemma reentrant_perform_with_evolves fuel end_ op :
  (∀ c, preserves (evolving (λ _, False)) (end_ c)) →
  preserves (evolving (λ _, False))
    (Reentrant.perform_with baseHandler traversal fuel end_ op).
Proof.
  intros He. destruct op; simpl;
    try (apply preserves_bind;
         [apply _..| |intros ?; apply preserves_ret; apply _]).
  - by apply preserves_evolving_allocate.
  - apply preserves_evolving_newChild.
  - apply preserves_evolving_store.
  - apply preserves_evolving_observe.
  - apply preserves_evolving_unsubscribe.
  - by apply preserves_evolving_unwind_with.
  - apply reentrant_unwindToRootContext_with_evolves. intros d.
    by apply preserves_evolving_unwind_with.
  - apply He.
  - apply He.
  - intros w. apply dispatching_evolving, preserves_dispatching_handle.
  - intros w. apply dispatching_evolving, preserves_dispatching_handleAxis.
Qed.

Lemma reentrant_end_evolves fuel c :
  preserves (evolving (λ _, False))
    (Reentrant.end_ behaviour baseHandler traversal fuel c).
Proof.
  revert c. induction fuel as [|fuel IH]; intros c; simpl.
  - apply preserves_diverge; apply _.
  - apply reentrant_end_with_evolves; [|done].
    intros op. by apply reentrant_perform_with_evolves.
Qed.

Lemma reentrant_perform_evolves fuel op :
  preserves (evolving (λ _, False))
    (Reentrant.perform behaviour baseHandler traversal fuel op).
Proof. apply reentrant_perform_with_evolves, reentrant_end_evolves. Qed.

Lemma reentrant_unwind_evolves fuel c :
  preserves (evolving (λ _, False))
    (Reentrant.unwind behaviour baseHandler traversal fuel c).
Proof. apply preserves_evolving_unwind_with, reentrant_end_evolves. Qed.

Lemma reentrant_end_base_evolves fuel c :
  preserves (evolving (λ _, False))
    (Reentrant.end_base behaviour baseHandler traversal fuel c).
Proof.
  apply reentrant_end_base_with_evolves;
    [apply reentrant_perform_evolves|apply reentrant_end_evolves].
Qed.

Lemma reentrant_run_evolves fuel ops w :
  evolving (λ _, False) w
    (Reentrant.run behaviour baseHandler traversal fuel ops w).
Proof.
  unfold Reentrant.run.
  revert w. induction ops as [|op ops IH]; intros w; simpl; [reflexivity|].
  etransitivity; [apply reentrant_perform_evolves|apply IH].
Qed.

(** The [end()] of the class on a context that is not active. *)
Lemma reentrant_end_base_with_inactive call end_child c w x :
  lookupContext w c = Some x → _state x ≠ Active →
  Reentrant.end_base_with behaviour call end_child c w = (w, Returned tt).
Proof.
  intros Hx Hs. unfold Reentrant.end_base_with.
  rewrite (bind_returned _ _ _ _ _ (deref_Some _ _ _ Hx)). by case_decide.
Qed.

(** The steps of a run of the class's [end] on an active context. *)
Lemma reentrant_end_base_with_returned call end_child c w x w' :
  lookupContext w c = Some x → _state x = Active →
  Reentrant.end_base_with behaviour call end_child c w = (w', Returned tt) →
  ∃ w2 w3 w5,
    Reentrant.notify behaviour call (makeNotifier x) (contextEnding c)
        (setState c Ending w).1 = (w2, Returned tt)
    ∧ unwind_with end_child c w2 = (w3, Returned c)
    ∧ Reentrant.notify behaviour call (makeNotifier x) (contextEnded c)
        (setState c Ended w3).1 = (w5, Returned tt)
    ∧ w' = updateContext (with_observers None) c w5.
Proof.
  intros Hx Hs. unfold Reentrant.end_base_with.
  rewrite (bind_returned _ _ _ _ _ (deref_Some _ _ _ Hx)).
  case_decide as Hact; [clear Hact|done]. intros H.
  invert_run H as w1 [] H1. invert_run H as w2 [] H2.
  invert_run H as w3 r H3. invert_run H as w4 [] H4. invert_run H as w5 [] H5.
  injection H as <-. exists w2, w3, w5.
  destruct (unwind_with_returned _ _ _ _ _ H3) as [-> _].
  by rewrite H1, H4.
Qed.

(** In a tree as [newChild] and [end] keep it, [c.end()] on a context
    that is not active changes nothing, whatever the observers would
    call. *)
Lemma reentrant_end_inactive fuel c w x :
  wf w → lookupContext w c = Some x → _state x ≠ Active →
  Reentrant.end_ behaviour baseHandler traversal (S fuel) c w = (w, Returned tt).
Proof.
  intros Hw Hx Hs. simpl. unfold Reentrant.end_with.
  rewrite (bind_returned _ _ _ _ _ (deref_Some _ _ _ Hx)).
  destruct (_extended x) eqn:He; [|by eapply reentrant_end_base_with_inactive].
  destruct (_parent x) as [p|] eqn:Hp; [|by eapply reentrant_end_base_with_inactive].
  destruct (wf_parent _ Hw c) as (p' & Hp' & [px Hpx]).
  { unfold extended. by rewrite Hx. }
  unfold parent in Hp'. rewrite Hx in Hp'. simpl in Hp'. simplify_eq.
  unfold Reentrant.end_child_with.
  rewrite (bind_returned _ _ _ _ _ (deref_Some _ _ _ Hpx)).
  destruct (indexOf c (_children px)) as [index|] eqn:Hi; [|done].
  apply indexOf_Some in Hi as [Hi _].
  assert (c ∈ children w p) as Hin.
  { unfold children. rewrite Hpx. simpl. by eapply list_elem_of_lookup_2. }
  apply (wf_child _ Hw) in Hin as (Hact & _).
  rewrite (state_lookup _ _ _ Hx) in Hact. by simplify_eq.
Qed.
End ReentrantEvolves.

(** ** The lifecycle under observers that only unsubscribe

    The observers of this section are a [behaviour] of the module
    [Reentrant] whose calls are all calls of unsubscribe functions, those
    of [reaction]. *)

Section OnlyUnsubscribing.
Variable behaviour : Observer → Notification → World → list Reentrant.Call.
Variable reaction : Observer → Notification → list Unsubscribe.
Variable baseHandler :
  list (ContextId * JsValue) → ContextId → Callback → bool → Composer → bool.
Variable traversal : Tree → TraversingAxis → ContextId → list ContextId.

Local Abbreviation end_ := (Reentrant.end_ behaviour baseHandler traversal).
Local Abbreviation dispose := (Reentrant.dispose behaviour baseHandler traversal).
Local Abbreviation unwind := (Reentrant.unwind behaviour baseHandler traversal).
Local Abbreviation unwindToRootContext :=
  (Reentrant.unwindToRootContext behaviour baseHandler traversal).
Local Abbreviation run := (Reentrant.run behaviour baseHandler traversal).

Local Ltac by_reaction H :=
  repeat first
    [setoid_rewrite (end_unsubscribing behaviour reaction baseHandler traversal H)
    |setoid_rewrite (dispose_unsubscribing behaviour reaction baseHandler traversal H)
    |setoid_rewrite (unwind_unsubscribing behaviour reaction baseHandler traversal H)
    |setoid_rewrite
       (unwindToRootContext_unsubscribing behaviour reaction baseHandler traversal H)
    |setoid_rewrite (run_unsubscribing behaviour reaction baseHandler traversal H)].

(** X2.  The tree of a program whose observers only unsubscribe.
    Whatever is called from the empty world, with whatever bound, the
    children of every context are distinct, each of them is active, came
    out of [newChild] and has that context as its parent, and the parent
    of a context that came out of [newChild] exists.  (An observer that
    ends another child from inside [childContextEnding] breaks this,
    see C4.) *)
Theorem programs_keep_the_tree fuel ops :
  unsubscribing behaviour reaction →
  let w := run fuel ops empty_world in
  (∀ p, NoDup (children w p))
  ∧ (∀ p k, k ∈ children w p →
       state w k = Some Active ∧ parent w k = Some p ∧ extended w k = true)
  ∧ (∀ c, extended w c = true →
       ∃ p, parent w c = Some p ∧ is_Some (lookupContext w p)).
Proof.
  intros Hb w. subst w. by_reaction Hb.
  apply (programs_keep_the_tree_by_reaction reaction baseHandler traversal).
Qed.

(** X4.  An [end] stays in its subtree, with observers that only
    unsubscribe.  In a tree kept by [newChild] and [end] in which the
    parents were constructed before their children, whatever [c.end()]
    does and however it leaves: the state of a context that does not
    have [c] among its ancestors is what it was, and so is its list of
    children unless it is the parent of [c]; in particular the parent of
    [c] is in the state it was in, and the other children of that parent
    are still its children, in the state and with the children they
    had. *)
Theorem end_stays_in_its_subtree fuel c w :
  unsubscribing behaviour reaction →
  wf w → grounded w →
  let w' := (end_ fuel c w).1 in
  (∀ x, ¬ descends w c x →
     state w' x = state w x
     ∧ (parent w c ≠ Some x → children w' x = children w x))
  ∧ (∀ x, x < c → state w' x = state w x)
  ∧ (∀ p, parent w c = Some p →
       state w' p = state w p
       ∧ ∀ s, s ∈ children w p → s ≠ c →
           s ∈ children w' p ∧ state w' s = state w s
           ∧ children w' s = children w s).
Proof.
  intros Hb Hw Hg w'. subst w'. by_reaction Hb.
  by apply (end_stays_in_its_subtree_by_reaction reaction).
Qed.

(** X5.  An [end] that returns has ended the whole subtree, with
    observers that only unsubscribe.  When [c.end()] returns, in a tree
    kept by [newChild] and [end]: no context is left in the middle of
    its end; every context the call has ended has no children left, and
    all that was below it by the lists of children is ended, without
    children and in no list; and [c] itself, if it was active and, where
    it came out of [newChild], still in the list of its parent, is ended
    and in no list. *)
Theorem end_ends_the_subtree fuel c w w' :
  unsubscribing behaviour reaction →
  wf w → end_ fuel c w = (w', Returned tt) →
  (∀ x, state w' x = Some Ending → state w x = Some Ending)
  ∧ (∀ q, state w q = Some Active → state w' q = Some Ended →
       children w' q = []
       ∧ ∀ y, below w q y →
           state w' y = Some Ended ∧ children w' y = [] ∧ detached w' y)
  ∧ (state w c = Some Active → (extended w c = true → ∃ p, c ∈ children w p) →
     state w' c = Some Ended ∧ detached w' c).
Proof.
  intros Hb Hw Hrun.
  rewrite (end_unsubscribing behaviour reaction baseHandler traversal Hb) in Hrun.
  by apply (end_ends_the_subtree_by_reaction reaction fuel).
Qed.

(** X6.  An [unwind] spares the context itself, with observers that
    only unsubscribe.  In a tree kept by [newChild] and [end] in which
    the parents were constructed before their children, however
    [c.unwind()] leaves, the state of [c] is what it was, and so are the
    state and the children of every context that does not have [c]
    among its ancestors.  When it returns, it returns [c], [c] has no
    children left, and all that was below [c] by the lists of children
    is ended, without children and in no list. *)
Theorem unwind_spares_the_context fuel c w :
  unsubscribing behaviour reaction →
  wf w → grounded w →
  let w' := (unwind fuel c w).1 in
  state w' c = state w c
  ∧ (∀ x, ¬ descends w c x →
       state w' x = state w x ∧ children w' x = children w x)
  ∧ (∀ r, (unwind fuel c w).2 = Returned r →
       r = c ∧ children w' c = []
       ∧ ∀ y, below w c y →
           state w' y = Some Ended ∧ children w' y = [] ∧ detached w' y).
Proof.
  intros Hb Hw Hg w'. subst w'. by_reaction Hb.
  by apply (unwind_spares_the_context_by_reaction reaction).
Qed.

(** X8.  [unwindToRootContext] unwinds the root and returns it, with
    observers that only unsubscribe.  In a tree kept by [newChild] and
    [end] in which the parents were constructed before their children,
    with more steps than the identity of the receiver: the root [r] of
    the receiver is found; however the call leaves, the state of [r] is
    what it was; when the call returns, it returns [r], not the
    receiver, [r] has no children left, and all that was below [r] by
    the lists of children, the receiver with it if it was, is ended;
    and it does return when the observers unsubscribe nothing and there
    is more fuel than active contexts. *)
Theorem unwindToRootContext_returns_the_root fuel steps c w :
  unsubscribing behaviour reaction →
  wf w → grounded w → is_Some (lookupContext w c) → c < steps →
  ∃ r, root steps c w = (w, Returned r)
     ∧ descends w r c ∧ parent w r = None
     ∧ (let w' := (unwindToRootContext fuel steps c w).1 in
        state w' r = state w r
        ∧ ∀ a, (unwindToRootContext fuel steps c w).2 = Returned a →
            a = r ∧ children w' r = []
            ∧ (∀ y, below w r y → state w' y = Some Ended)
            ∧ (below w r c → state w' c = Some Ended))
     ∧ (peaceful reaction → active w < fuel →
        finishes (unwindToRootContext fuel steps c) w).
Proof.
  intros Hb Hw Hg Hc Hsteps.
  destruct (unwindToRootContext_returns_the_root_by_reaction reaction fuel steps c w
              Hw Hg Hc Hsteps) as (r & Hr & Hd & Hp & H & Hfin).
  exists r. split; [done|]. split; [done|]. split; [done|].
  unfold finishes.
  rewrite (unwindToRootContext_unsubscribing behaviour reaction baseHandler
             traversal Hb).
  split; [exact H|exact Hfin].
Qed.

(** X10.  An observer that is registered nowhere hears nothing, when
    the observers only unsubscribe.  Whatever [end], [dispose],
    [unwind] or [unwindToRootContext] does and however it leaves, it
    invokes no method of an observer that is registered with no
    context, and that observer is registered with no context
    afterwards.  (An observer that calls [observe] from inside a
    notification can register it meanwhile.) *)
Theorem unregistered_observer_hears_nothing o fuel steps c w :
  unsubscribing behaviour reaction →
  unheard o w →
  (unheard o (end_ fuel c w).1
   ∧ ∃ t, trace (end_ fuel c w).1 = trace w ++ t ∧ silent o t)
  ∧ (unheard o (dispose fuel c w).1
     ∧ ∃ t, trace (dispose fuel c w).1 = trace w ++ t ∧ silent o t)
  ∧ (unheard o (unwind fuel c w).1
     ∧ ∃ t, trace (unwind fuel c w).1 = trace w ++ t ∧ silent o t)
  ∧ (unheard o (unwindToRootContext fuel steps c w).1
     ∧ ∃ t, trace (unwindToRootContext fuel steps c w).1 = trace w ++ t
            ∧ silent o t).
Proof.
  intros Hb Hw.
  rewrite (end_unsubscribing behaviour reaction baseHandler traversal Hb),
    (dispose_unsubscribing behaviour reaction baseHandler traversal Hb),
    (unwind_unsubscribing behaviour reaction baseHandler traversal Hb),
    (unwindToRootContext_unsubscribing behaviour reaction baseHandler traversal Hb).
  by apply (unregistered_observer_hears_nothing_by_reaction reaction).
Qed.

(** X12.  An [end] is not resumed, with observers that only
    unsubscribe.  On an active context of a tree kept by [newChild] and
    [end], however [c.end()] leaves: either it has not started, when the
    tree and the states are what they were (the bound was used up, the
    context had been taken out of its parent's list, or an observer of
    the parent threw at [childContextEnding]); or [c] has left [Active]
    and is in no list of children, and then every later [c.end()]
    returns at once and changes nothing, also when the first was
    interrupted and [c] is left in [Ending] with children that are
    still active. *)
Theorem end_is_not_resumed fuel c w :
  unsubscribing behaviour reaction →
  wf w → state w c = Some Active →
  let w' := (end_ fuel c w).1 in
  tree_kept w w'
  ∨ (begun w' c ∧ detached w' c
     ∧ ∀ fuel', end_ (S fuel') c w' = (w', Returned tt)).
Proof.
  intros Hb Hw Hs w'. subst w'. by_reaction Hb.
  by apply (end_is_not_resumed_by_reaction reaction).
Qed.

(** X13.  [newChild] and the [end] of the new child, with observers
    that only unsubscribe.  In a tree kept by [newChild] and [end] in
    which the parents were constructed before their children, when
    [p.newChild()] returns [k] and [k.end()] returns: [k] is a context
    that did not exist, it is ended, without children and in no list;
    and every other context, [p] with it, has the state and the
    children it had before the two calls, in the same order. *)
Theorem newChild_end_round_trip fuel p w w1 k w2 :
  unsubscribing behaviour reaction →
  wf w → grounded w →
  newChild p w = (w1, Returned k) → end_ fuel k w1 = (w2, Returned tt) →
  lookupContext w k = None
  ∧ state w2 k = Some Ended ∧ children w2 k = [] ∧ detached w2 k
  ∧ parent w2 k = Some p
  ∧ children w2 p = children w p
  ∧ ∀ x, x ≠ k → state w2 x = state w x ∧ children w2 x = children w x.
Proof.
  intros Hb Hw Hg Hnew Hend.
  rewrite (end_unsubscribing behaviour reaction baseHandler traversal Hb) in Hend.
  by apply (newChild_end_round_trip_by_reaction reaction fuel p w w1).
Qed.

(** X14.  An [end] reaches what the lists of children hold, with
    observers that only unsubscribe.  In a tree kept by [newChild] and
    [end] and however the call leaves: [c.end()] changes the state of
    [c] and of the contexts below [c] by the lists of children, and of
    no other; it changes the list of children of those and of the
    parent of [c], and of no other.  [c.unwind()] does not change the
    state of [c] either. *)
Theorem end_reaches_the_lists_only fuel c w :
  unsubscribing behaviour reaction →
  wf w →
  (∀ x, x ≠ c → ¬ below w c x →
     state (end_ fuel c w).1 x = state w x
     ∧ (parent w c ≠ Some x →
        children (end_ fuel c w).1 x = children w x))
  ∧ (∀ x, ¬ below w c x →
       state (unwind fuel c w).1 x = state w x
       ∧ (x ≠ c → children (unwind fuel c w).1 x = children w x)).
Proof.
  intros Hb Hw. by_reaction Hb.
  by apply (end_reaches_the_lists_only_by_reaction reaction).
Qed.

(** X15.  [new Context(parent)] makes no child.  The context [k]
    constructed with a parent [p] has [p] as parent and is active, and
    no list of children has changed: [k] is in none.  So, with
    observers that only unsubscribe, no [end] and no [unwind] of another
    context, [p] with them, ends [k], however they leave; only
    [newChild] makes contexts that end with their parent. *)
Theorem constructed_context_is_no_child p w :
  unsubscribing behaviour reaction →
  wf w →
  let k := length (heap w) in
  let w1 := (allocate (newContext (Some p) false) w).1 in
  allocate (newContext (Some p) false) w = (w1, Returned k)
  ∧ parent w1 k = Some p ∧ state w1 k = Some Active ∧ extended w1 k = false
  ∧ (∀ d, children w1 d = children w d) ∧ detached w1 k
  ∧ wf w1
  ∧ ∀ fuel c,
      (c ≠ k → state (end_ fuel c w1).1 k = Some Active)
      ∧ state (unwind fuel c w1).1 k = Some Active.
Proof.
  intros Hb Hw k w1. subst k w1. by_reaction Hb.
  by apply (constructed_context_is_no_child_by_reaction reaction).
Qed.

(** X16.  [hasChildren] through the calls.  It is false exactly when
    the list of children is empty; it is true on a context when its
    [newChild] has returned; and, with observers that only unsubscribe,
    it is false on a context of a tree kept by [newChild] and [end]
    when its [unwind] has returned, and when its [end] has returned
    and has ended it. *)
Theorem hasChildren_follows_the_calls fuel c w :
  unsubscribing behaviour reaction →
  (hasChildren w c = false ↔ children w c = [])
  ∧ (∀ w1 k, newChild c w = (w1, Returned k) → hasChildren w1 c = true)
  ∧ (wf w → ∀ w' r, unwind fuel c w = (w', Returned r) →
       hasChildren w' c = false)
  ∧ (wf w → state w c = Some Active →
     ∀ w', end_ fuel c w = (w', Returned tt) → state w' c = Some Ended →
       hasChildren w' c = false).
Proof.
  intros Hb. by_reaction Hb.
  apply (hasChildren_follows_the_calls_by_reaction reaction).
Qed.
End OnlyUnsubscribing.

(** ** The end of a context, whatever its observers call *)

Section EndOfAContext.
Variable behaviour : Observer → Notification → World → list Reentrant.Call.
Variable reaction : Observer → Notification → list Unsubscribe.
Variable baseHandler :
  list (ContextId * JsValue) → ContextId → Callback → bool → Composer → bool.
Variable traversal : Tree → TraversingAxis → ContextId → list ContextId.

Local Abbreviation end_ := (Reentrant.end_ behaviour baseHandler traversal).
Local Abbreviation end_base := (Reentrant.end_base behaviour baseHandler traversal).
Local Abbreviation unwind := (Reentrant.unwind behaviour baseHandler traversal).
Local Abbreviation perform := (Reentrant.perform behaviour baseHandler traversal).

(** C1.  The [end()] of the class on a context [c] whose snapshot of
    observers is [snapshot], under observers that call whatever they
    like of the interface when notified.  It is what [c.end()] runs on a
    context that did not come out of [newChild], and what the [end()]
    of a child that is among the children of its parent runs between
    the removal from the list of the parent and [childContextEnded].
    When [c] is not active the call returns and changes nothing.  When
    [c] is active, a call that returns has, in this order: set the state
    to [Ending]; invoked [contextEnding(c)] on every observer of the
    snapshot, in order, each observer making its calls before the next
    is invoked ([t1], of which nothing else announces the ending of
    [c]); run [unwind()], which is a call of [end()] on each of the
    children that [c] has by then, in their order ([t], in which
    nothing announces the ending of [c]); set the state to [Ended];
    invoked [contextEnded(c)] on every observer of the snapshot ([t2]);
    cleared the observers.  The state of [c] is [Ending] from the first
    assignment to the second, they are the only assignments to it, and
    what announces the ending of [c] is exactly one [contextEnding] per
    observer of the snapshot followed by one [contextEnded] per
    observer.  Afterwards [c] is [Ended] and without observers, and a
    second call changes nothing.

    With observers that do nothing but call unsubscribe functions the
    trace is the two assignments, the notifications and [t], the
    children unwound are those [c] had at the call, and in a tree as
    [newChild] and [end] keep it every one of them has been ended by
    the [unwind()], its state set to [Ending] and then to [Ended] and
    never otherwise, and [c] has no children left.  (An observer that
    ends another child from inside [childContextEnding] can make the
    [end()] of a child take the wrong entry out of the list, see C4, and
    so leave a child that is never ended.)  With observers that call
    nothing the call does return when no reference dangles and the fuel
    is at least the number of active contexts.  In a tree as [newChild]
    and [end] keep it, the [end()] that [newChild] has put on a child
    changes nothing either when the child is not active. *)
Theorem end_sequence fuel c w x :
  lookupContext w c = Some x →
  let snapshot := makeNotifier x in
  let notify := Reentrant.notify behaviour (perform fuel) in
  let heard := filter (λ e, announces e = Some c) in
  (_state x ≠ Active → end_base fuel c w = (w, Returned tt))
  ∧ (_state x = Active →
     ∀ w', end_base fuel c w = (w', Returned tt) →
     ∃ w2 w3 w5 t1 t t2,
       notify snapshot (contextEnding c) (setState c Ending w).1
         = (w2, Returned tt)
       ∧ trace w2 = trace w ++ [StateSet c Active Ending] ++ t1
       ∧ heard t1 = notifications snapshot (contextEnding c)
       ∧ state w2 c = Some Ending
       ∧ unwind fuel c w2 = (w3, Returned c)
       ∧ forEach (end_ fuel) (children w2 c) w2 = (w3, Returned tt)
       ∧ trace w3 = trace w2 ++ t ∧ quiet c t
       ∧ state w3 c = Some Ending
       ∧ notify snapshot (contextEnded c) (setState c Ended w3).1
         = (w5, Returned tt)
       ∧ trace w5 = trace w3 ++ [StateSet c Ending Ended] ++ t2
       ∧ heard t2 = notifications snapshot (contextEnded c)
       ∧ w' = updateContext (with_observers None) c w5
       ∧ trace w' = trace w
           ++ [StateSet c Active Ending] ++ t1 ++ t
           ++ [StateSet c Ending Ended] ++ t2
       ∧ assignments c
           ([StateSet c Active Ending] ++ t1 ++ t
            ++ [StateSet c Ending Ended] ++ t2)
         = [(Active, Ending); (Ending, Ended)]
       ∧ heard
           ([StateSet c Active Ending] ++ t1 ++ t
            ++ [StateSet c Ending Ended] ++ t2)
         = notifications snapshot (contextEnding c)
           ++ notifications snapshot (contextEnded c)
       ∧ state w' c = Some Ended
       ∧ observers w' c = None
       ∧ (∀ fuel', end_base fuel' c w' = (w', Returned tt))
       ∧ (unsubscribing behaviour reaction →
          t1 = notifications snapshot (contextEnding c)
          ∧ t2 = notifications snapshot (contextEnded c)
          ∧ children w2 c = _children x
          ∧ (wf w → detached w c →
             children w' c = []
             ∧ ∀ k, k ∈ _children x →
                 state w k = Some Active
                 ∧ state w' k = Some Ended
                 ∧ assignments k t = [(Active, Ending); (Ending, Ended)])))
  ∧ (unsubscribing behaviour reaction → peaceful reaction →
     closed w → active w ≤ fuel → finishes (end_base fuel c) w)
  ∧ (wf w → _state x ≠ Active →
     ∀ fuel', end_ (S fuel') c w = (w, Returned tt))
  ∧ (_extended x = false ∨ _parent x = None →
     end_ (S fuel) c w = end_base fuel c w)
  ∧ (∀ p px index,
       _extended x = true → _parent x = Some p →
       lookupContext w p = Some px → indexOf c (_children px) = Some index →
       end_ (S fuel) c w
       = (Reentrant.notify behaviour (perform fuel) (makeNotifier px)
            (childContextEnding c) ≫= λ _,
          modify (λ y, with_children (delete index (_children y)) y) p ≫= λ _,
          end_base fuel c ≫= λ _,
          Reentrant.notify behaviour (perform fuel) (makeNotifier px)
            (childContextEnded c)) w).
Proof.
  intros Hx snapshot notify heard.
  split; [by apply reentrant_end_base_with_inactive|].
  split; [|split; [|split; [|split]]].
  2: { intros Hb Hp Hc Hf. unfold finishes.
       rewrite (end_base_unsubscribing behaviour reaction baseHandler traversal Hb).
       by apply finishes_end_base. }
  2: { intros Hw Hs fuel'. by eapply reentrant_end_inactive. }
  2: { intros Hroot. simpl. unfold Reentrant.end_with.
       rewrite (bind_returned _ _ _ _ _ (deref_Some _ _ _ Hx)).
       destruct Hroot as [-> | ->]; [done|]. by destruct (_extended x). }
  2: { intros p px index He Hp Hpx Hi. simpl. unfold Reentrant.end_with.
       rewrite (bind_returned _ _ _ _ _ (deref_Some _ _ _ Hx)), He, Hp.
       unfold Reentrant.end_child_with.
       by rewrite (bind_returned _ _ _ _ _ (deref_Some _ _ _ Hpx)), Hi. }
  intros Hact w' Hrun.
  pose proof (reentrant_end_base_evolves behaviour baseHandler traversal fuel c w)
    as Hall.
  rewrite Hrun in Hall. simpl in Hall.
  destruct (reentrant_end_base_with_returned _ _ _ _ _ _ _ Hx Hact Hrun)
    as (w2 & w3 & w5 & H2 & H3 & H5 & Hw').
  assert (∀ op, preserves (evolving (λ _, False)) (perform fuel op)) as Hcall
    by apply reentrant_perform_evolves.
  assert (state (setState c Ending w).1 c = Some Ending) as Hs1
    by (apply state_after_setState; by eexists).
  destruct (reentrant_notify_heard behaviour _ Hcall c Ending snapshot
              (contextEnding c) _ _ Hs1 ltac:(done) eq_refl H2) as (Hs2 & t1 & Ht1 & Hh1).
  rewrite (trace_after_setState _ _ _ _ Hx), Hact, <-app_assoc in Ht1.
  destruct (unwind_with_returned _ _ _ _ _ H3) as (_ & x2 & Hx2 & Hfor).
  assert (forEach (end_ fuel) (children w2 c) w2 = (w3, Returned tt)) as Hfor'.
  { unfold children. by rewrite Hx2. }
  pose proof (reentrant_unwind_evolves behaviour baseHandler traversal fuel c w2)
    as Hev.
  unfold Reentrant.unwind in Hev. rewrite H3 in Hev. simpl in Hev.
  destruct Hev as [L3 F3 (t & Ht & Hwalk & Q3)].
  assert (state w3 c = Some Ending) as Hs3.
  { apply (F3 c Ending); [tauto|done..]. }
  assert (quiet c t) as Hq by (apply (Q3 c Ending); [tauto|done..]).
  apply state_is_Some in Hs3 as Hx3. destruct Hx3 as (x3 & Hx3 & Hst3).
  assert (state (setState c Ended w3).1 c = Some Ended) as Hs4
    by (apply state_after_setState; by eexists).
  destruct (reentrant_notify_heard behaviour _ Hcall c Ended snapshot
              (contextEnded c) _ _ Hs4 ltac:(done) eq_refl H5) as (Hs5 & t2 & Ht2 & Hh2).
  rewrite (trace_after_setState _ _ _ _ Hx3), Hst3, <-app_assoc in Ht2.
  assert (trace w' = trace w
            ++ [StateSet c Active Ending] ++ t1 ++ t
            ++ [StateSet c Ending Ended] ++ t2) as Htrace.
  { rewrite Hw'. simpl. rewrite Ht2, Ht, Ht1. by rewrite <-!app_assoc. }
  assert (state w' c = Some Ended) as Hs'.
  { rewrite Hw'. by rewrite state_update. }
  exists w2, w3, w5, t1, t, t2. split_and!; try done.
  - destruct Hall as [_ _ (t' & Ht' & Hwalk' & _)].
    rewrite Htrace in Ht'. apply app_inv_head in Ht'. subst t'.
    specialize (Hwalk' c). unfold known in Hwalk'.
    rewrite Hs', (state_lookup _ _ _ Hx), Hact in Hwalk'.
    apply walk_assignments in Hwalk'. exact Hwalk'.
  - unfold heard in *. rewrite !filter_app, Hh1, Hh2, (quiet_filter _ _ Hq).
    rewrite !filter_cons, !filter_nil. simpl. done.
  - rewrite Hw'. unfold observers. rewrite lookup_update_eq.
    by destruct (lookupContext w5 c).
  - intros fuel'. apply state_is_Some in Hs5 as (x5 & Hx5 & Hst5).
    rewrite Hw'. eapply reentrant_end_base_with_inactive.
    + rewrite lookup_update_eq, Hx5. done.
    + simpl. by rewrite Hst5.
  - intros Hb.
    rewrite (end_base_unsubscribing behaviour reaction baseHandler traversal Hb)
      in Hrun.
    destruct (end_sequence_by_reaction reaction fuel c w x Hx) as (_ & HR & _).
    destruct (HR Hact _ Hrun)
      as (v2 & v3 & v5 & t' & R2 & _ & R3 & Rc & _ & Rt & _ & _ & R5 & _ & _
          & _ & _ & _ & _ & Rkids).
    unfold notify in H2, H5.
    rewrite (notify_unsubscribing behaviour reaction Hb) in H2 by done.
    assert (v2 = w2) as -> by congruence.
    change (unwind fuel c w2 = (w3, Returned c)) in H3.
    rewrite (unwind_unsubscribing behaviour reaction baseHandler traversal Hb) in H3.
    assert (v3 = w3) as -> by congruence.
    rewrite (notify_unsubscribing behaviour reaction Hb) in H5 by done.
    assert (t' = t) as -> by (rewrite Ht in Rt; by apply app_inv_head in Rt).
    apply notify_returned in H2, H5.
    rewrite (trace_after_setState _ _ _ _ Hx), Hact, <-app_assoc in H2.
    rewrite (trace_after_setState _ _ _ _ Hx3), Hst3, <-app_assoc in H5.
    rewrite Ht1 in H2. rewrite Ht2 in H5.
    apply app_inv_head in H2, H5. simplify_list_eq.
    by split_and!.
Qed.
End EndOfAContext.

(** ** States under observers that call back *)

Section ForwardWhateverIsCalled.
Variable behaviour : Observer → Notification → World → list Reentrant.Call.
Variable baseHandler :
  list (ContextId * JsValue) → ContextId → Callback → bool → Composer → bool.
Variable traversal : Tree → TraversingAxis → ContextId → list ContextId.

(** X17.  States only move forward, also under observers that call
    whatever they like of the interface when notified, [end],
    [newChild] and [observe] among it.  Whatever is called on whatever
    contexts, in whatever order and with whatever bound on the
    recursion: the [_state] assignments to a context [c] during the
    calls, those made from inside notifications with them, replayed
    from the state [c] had before, each start from the state reached so
    far and move it one step forward along Active, Ending, Ended, and
    they end in the state [c] has afterwards.  So the state of [c]
    never moves back, and the assignments are at most the one to
    [Ending] followed by the one to [Ended]. *)
Theorem state_moves_forward_whatever_observers_call fuel ops w c :
  let w' := Reentrant.run behaviour baseHandler traversal fuel ops w in
  ∃ t, trace w' = trace w ++ t
     ∧ walk c (known w c) t = Some (known w' c)
     ∧ ordinal (known w c) ≤ ordinal (known w' c)
     ∧ (∀ s, state w c = Some s → ∃ s', state w' c = Some s' ∧ ordinal s ≤ ordinal s')
     ∧ assignments c t =
         match known w c, known w' c with
         | Active, Ending => [(Active, Ending)]
         | Active, Ended => [(Active, Ending); (Ending, Ended)]
         | Ending, Ended => [(Ending, Ended)]
         | _, _ => []
         end.
Proof.
  intros w'.
  destruct (reentrant_run_evolves behaviour baseHandler traversal fuel ops w)
    as [L F (t & Ht & Hw & _)].
  fold w' in L, F, Ht, Hw. exists t. split; [done|]. split; [done|].
  pose proof (walk_monotone _ _ _ _ (Hw c)) as Hle. split; [done|].
  split; [|by apply walk_assignments].
  intros s Hs. unfold known in Hle. rewrite Hs in Hle. simpl in Hle.
  apply state_is_Some in Hs as (x & Hx & _).
  destruct (lookupContext w' c) as [x'|] eqn:Hx'.
  - exists (_state x'). unfold state in *. rewrite Hx' in *. done.
  - unfold lookupContext in *. apply lookup_ge_None in Hx'.
    apply lookup_lt_Some in Hx. lia.
Qed.
End ForwardWhateverIsCalled.

(** ** The statements at work on small worlds *)

Lemma parent_and_child_reached :
  parent_and_child
  = run no_reaction only_root_handles children_traversal 0
      [OpNew None; OpNewChild 0] empty_world.
Proof. reflexivity. Qed.

Lemma observed_parent_and_child_reached :
  observed_parent_and_child
  = run no_reaction only_root_handles children_traversal 0
      [OpNew None; OpNewChild 0; OpObserve 0 (Some 7); OpObserve 1 (Some 8)]
      empty_world.
Proof. reflexivity. Qed.

Lemma wf_parent_and_child : wf parent_and_child.
Proof. rewrite parent_and_child_reached. apply wf_run, wf_empty. Qed.

Lemma wf_observed_parent_and_child : wf observed_parent_and_child.
Proof. rewrite observed_parent_and_child_reached. apply wf_run, wf_empty. Qed.

Lemma no_reaction_peaceful : peaceful no_reaction.
Proof. by intros o n. Qed.

(** The root of [observed_parent_and_child] ends, by the [end()] of the
    class, which is what its [end()] is.  With observers that call
    nothing, its observer hears [contextEnding] and [contextEnded] once
    each, around the end of the child, which is ended and has left.  With
    an observer that ends the child itself when it hears [contextEnding],
    the end of the child comes between the two notifications all the
    same, from inside the first, and [unwind()] finds no child. *)
Lemma end_sequence_witness :
  lookupContext observed_parent_and_child 0
  = Some {| _state := Active; _parent := None; _children := [1];
            _observers := Some [7]; _axis := None; _extended := false |}
  ∧ wf observed_parent_and_child ∧ detached observed_parent_and_child 0
  ∧ unsubscribing (only_unsubscribes no_reaction) no_reaction
  ∧ Reentrant.end_ (only_unsubscribes no_reaction) only_root_handles
      children_traversal 3 0 observed_parent_and_child
    = Reentrant.end_base (only_unsubscribes no_reaction) only_root_handles
        children_traversal 2 0 observed_parent_and_child
  ∧ (∃ w' t,
      Reentrant.end_base (only_unsubscribes no_reaction) only_root_handles
        children_traversal 2 0 observed_parent_and_child = (w', Returned tt)
      ∧ trace w' = [StateSet 0 Active Ending; Notified 7 (contextEnding 0)]
                   ++ t
                   ++ [StateSet 0 Ending Ended; Notified 7 (contextEnded 0)]
      ∧ quiet 0 t
      ∧ assignments 1 t = [(Active, Ending); (Ending, Ended)]
      ∧ state w' 1 = Some Ended
      ∧ children w' 0 = []
      ∧ state w' 0 = Some Ended
      ∧ observers w' 0 = None
      ∧ Reentrant.end_base (only_unsubscribes no_reaction) only_root_handles
          children_traversal 2 0 w' = (w', Returned tt))
  ∧ (∃ w' w2 t2,
      Reentrant.end_base ends_the_child only_root_handles children_traversal
        2 0 observed_parent_and_child = (w', Returned tt)
      ∧ trace w2 = [StateSet 0 Active Ending;
                    Notified 7 (contextEnding 0);
                    Notified 7 (childContextEnding 1);
                    StateSet 1 Active Ending;
                    Notified 8 (contextEnding 1);
                    StateSet 1 Ending Ended;
                    Notified 8 (contextEnded 1);
                    Notified 7 (childContextEnded 1)]
      ∧ children w2 0 = []
      ∧ Reentrant.unwind ends_the_child only_root_handles children_traversal
          2 0 w2 = (w2, Returned 0)
      ∧ trace w' = trace w2 ++ [StateSet 0 Ending Ended] ++ t2
      ∧ filter (λ e, announces e = Some 0) t2 = [Notified 7 (contextEnded 0)]
      ∧ filter (λ e, announces e = Some 0) (trace w')
        = [Notified 7 (contextEnding 0); Notified 7 (contextEnded 0)]
      ∧ assignments 0 (trace w') = [(Active, Ending); (Ending, Ended)]
      ∧ state w' 0 = Some Ended
      ∧ state w' 1 = Some Ended).
Proof.
  split; [reflexivity|]. split; [exact wf_observed_parent_and_child|].
  assert (detached observed_parent_and_child 0) as Hdet.
  { eapply wf_detached; [exact wf_observed_parent_and_child|reflexivity|by left]. }
  split; [exact Hdet|].
  pose proof (unsubscribing_only_unsubscribes no_reaction) as Hb.
  split; [exact Hb|].
  destruct (end_sequence (only_unsubscribes no_reaction) no_reaction
              only_root_handles children_traversal 2 0
              observed_parent_and_child _ eq_refl)
    as (_ & H & _ & _ & Hroot & _).
  split; [exact (Hroot (or_introl eq_refl))|]. split.
  - assert (∃ w', Reentrant.end_base (only_unsubscribes no_reaction)
                    only_root_handles children_traversal 2 0
                    observed_parent_and_child = (w', Returned tt)) as [w' Hrun]
      by (eexists; vm_compute; reflexivity).
    destruct (H eq_refl w' Hrun)
      as (w2 & w3 & w5 & t1 & t & t2 & _ & _ & _ & _ & _ & _ & _ & Hq & _ & _ & _
          & _ & _ & Ht & _ & _ & Hs & Ho & Hagain & Hunsub).
    destruct (Hunsub Hb) as (-> & -> & _ & Hkids).
    destruct (Hkids wf_observed_parent_and_child Hdet) as [Hemp Hk].
    destruct (Hk 1 (list_elem_of_here 1 [])) as (_ & Hk1 & Ha).
    exists w', t. split; [exact Hrun|]. split; [exact Ht|]. split; [exact Hq|].
    split; [exact Ha|]. split; [exact Hk1|]. split; [exact Hemp|].
    split; [exact Hs|]. split; [exact Ho|]. apply Hagain.
  - destruct (end_sequence ends_the_child no_reaction only_root_handles
                children_traversal 2 0 observed_parent_and_child _ eq_refl)
      as (_ & H' & _).
    assert (∃ w', Reentrant.end_base ends_the_child only_root_handles
                    children_traversal 2 0 observed_parent_and_child
                  = (w', Returned tt)) as [w' Hrun]
      by (eexists; vm_compute; reflexivity).
    destruct (H' eq_refl w' Hrun)
      as (w2 & w3 & w5 & t1 & t & t2 & H2 & Ht1 & _ & _ & H3 & _ & Ht & _ & _ & _
          & Ht5 & Hh2 & Hw' & Ht' & Ha & Hh & Hs & _).
    vm_compute in H2. injection H2 as H2.
    assert (w3 = w2) as Hw3.
    { rewrite <-H2 in H3. vm_compute in H3. injection H3 as H3.
      rewrite <-H3, <-H2. reflexivity. }
    exists w', w2, t2. split; [exact Hrun|].
    split; [rewrite <-H2; reflexivity|]. split; [rewrite <-H2; reflexivity|].
    split; [rewrite <-H2; vm_compute; reflexivity|].
    split; [rewrite Hw'; change (trace w5 = trace w2 ++ [StateSet 0 Ending Ended] ++ t2);
            rewrite Ht5, Hw3; reflexivity|].
    split; [exact Hh2|].
    split; [rewrite Ht'; exact Hh|]. split; [rewrite Ht'; exact Ha|].
    split; [exact Hs|].
    vm_compute in Hrun. injection Hrun as <-. reflexivity.
Defined.

(** The snapshot at work: the observer of the root unsubscribes when it
    hears [contextEnding], and still hears [contextEnded]; it does not hear
    of the child, whose [end] takes its own snapshot later. *)
Example snapshot_outlives_unsubscribe :
  trace (end_base leave_at_ending 2 0 observed_parent_and_child).1
  = [StateSet 0 Active Ending; Notified 7 (contextEnding 0);
     StateSet 1 Active Ending; Notified 8 (contextEnding 1);
     StateSet 1 Ending Ended; Notified 8 (contextEnded 1);
     StateSet 0 Ending Ended; Notified 7 (contextEnded 0)].
Proof. reflexivity. Qed.

(** An observer that throws: unsubscribing from the ended child from
    inside [childContextEnded] makes the [end] of the child throw. *)
Example throwing_observer_aborts :
  (end_ leave_ended_child 2 1 observed_parent_and_child).2
  = Thrown (TypeError "Cannot read properties of null (reading 'indexOf')").
Proof. reflexivity. Qed.

(** The root of [parent_and_child] gets a second child, behind the first. *)
Lemma newChild_appends_witness :
  lookupContext parent_and_child 0
  = Some {| _state := Active; _parent := None; _children := [1];
            _observers := None; _axis := None; _extended := false |}
  ∧ ∃ w' c,
      newChild 0 parent_and_child = (w', Returned c)
      ∧ lookupContext parent_and_child c = None
      ∧ parent w' c = Some 0
      ∧ children w' 0 = [1] ++ [c]
      ∧ last (children w' 0) = Some c.
Proof.
  split; [reflexivity|].
  destruct (newChild_appends 0 parent_and_child _ eq_refl eq_refl)
    as (w' & c & Hrun & Hnew & _ & Hp & _ & Hch & _ & Hlast & _).
  exists w', c. split; [exact Hrun|]. split; [exact Hnew|]. split; [exact Hp|].
  split; [exact Hch|exact Hlast].
Defined.

(** The child of [observed_parent_and_child] ends: the observer of the
    parent hears [childContextEnding] and [childContextEnded] around the
    end of the child, which leaves the children of the parent. *)
Example child_end_sequence_example :
  wf observed_parent_and_child
  ∧ lookupContext observed_parent_and_child 1
    = Some {| _state := Active; _parent := Some 0; _children := [];
              _observers := Some [8]; _axis := None; _extended := true |}
  ∧ lookupContext observed_parent_and_child 0
    = Some {| _state := Active; _parent := None; _children := [1];
              _observers := Some [7]; _axis := None; _extended := false |}
  ∧ ∃ w' t,
      end_ no_reaction 2 1 observed_parent_and_child = (w', Returned tt)
      ∧ trace w' = [Notified 7 (childContextEnding 1)] ++ t
                   ++ [Notified 7 (childContextEnded 1)]
      ∧ state w' 1 = Some Ended
      ∧ 1 ∉ children w' 0.
Proof.
  split; [exact wf_observed_parent_and_child|].
  split; [reflexivity|]. split; [reflexivity|].
  destruct (child_end_sequence no_reaction 1 0 1 observed_parent_and_child _ _
              wf_observed_parent_and_child eq_refl eq_refl eq_refl eq_refl)
    as (_ & H & _).
  assert (∃ w', end_ no_reaction 2 1 observed_parent_and_child
                = (w', Returned tt)) as [w' Hrun]
    by (eexists; vm_compute; reflexivity).
  destruct (H (list_elem_of_here 1 []) w' Hrun)
    as (w1 & w3 & l1 & l2 & t & _ & _ & _ & _ & _ & _ & _ & _ & _ & Ht & Hs & Hc).
  exists w', t. split; [exact Hrun|]. split; [exact Ht|]. split; [exact Hs|exact Hc].
Qed.

Lemma siblings_reached :
  siblings
  = run no_reaction only_root_handles children_traversal 0
      [OpNew None; OpNewChild 0; OpNewChild 0; OpNewChild 0; OpObserve 0 (Some 7)]
      empty_world.
Proof. reflexivity. Qed.

(** The child 2 of [siblings] ends, and the observer of the root ends
    the child 1 when it hears [childContextEnding(2)]: the index 1 that
    was read for the child 2 is then that of the child 3, which is taken
    out of the children of the root and stays active, while the child 2
    stays in the list, ended.  The child 3 cannot be ended any more. *)
Lemma child_end_stale_index_witness :
  children siblings 0 = [1; 2; 3]
  ∧ ∃ w1 w',
      Reentrant.notify ends_the_first
        (Reentrant.perform ends_the_first only_root_handles children_traversal 2)
        [7] (childContextEnding 2) siblings = (w1, Returned tt)
      ∧ children w1 0 = [2; 3]
      ∧ Reentrant.end_ ends_the_first only_root_handles children_traversal 3 2 siblings
        = (w', Returned tt)
      ∧ children w' 0 = [2]
      ∧ state w' 2 = Some Ended
      ∧ state w' 3 = Some Active
      ∧ trace w' = [Notified 7 (childContextEnding 2);
                    Notified 7 (childContextEnding 1);
                    StateSet 1 Active Ending; StateSet 1 Ending Ended;
                    Notified 7 (childContextEnded 1);
                    StateSet 2 Active Ending; StateSet 2 Ending Ended;
                    Notified 7 (childContextEnded 2)]
      ∧ Reentrant.end_ ends_the_first only_root_handles children_traversal 3 3 w'
        = (w', Returned tt).
Proof.
  split; [reflexivity|].
  assert (∃ w1, Reentrant.notify ends_the_first
                  (Reentrant.perform ends_the_first only_root_handles
                     children_traversal 2)
                  [7] (childContextEnding 2) siblings = (w1, Returned tt))
    as [w1 Hnot] by (eexists; vm_compute; reflexivity).
  assert (children w1 0 = [2; 3]) as Hc1.
  { injection Hnot as <-. reflexivity. }
  destruct (child_end_stale_index ends_the_first only_root_handles children_traversal
              2 0 2 siblings _ _ 1 w1 eq_refl eq_refl eq_refl eq_refl eq_refl Hnot)
    as (Hrun & Hc2 & Hin & _ & Hk & _).
  { rewrite Hc1. left. }
  { rewrite Hc1. discriminate. }
  rewrite Hc1 in Hc2.
  assert (∃ w', Reentrant.end_ ends_the_first only_root_handles children_traversal
                  3 2 siblings = (w', Returned tt)) as [w' Hend]
    by (eexists; vm_compute; reflexivity).
  exists w1, w'. split; [exact Hnot|]. split; [exact Hc1|]. split; [exact Hend|].
  injection Hend as <-. repeat split; reflexivity.
Defined.

(** A dispatch that is not greedy, on the child of [parent_and_child] with
    no pending axis: the child does not handle, the root does. *)
Lemma handle_greedy_or_first_witness :
  route children_traversal parent_and_child 1 [1; 0]
  ∧ ∃ w',
      handle only_root_handles children_traversal 4 1 0 false 0 parent_and_child
      = (w', Returned true)
      ∧ trace w' = [BaseHandled 1 0 false; BaseHandled 0 0 false].
Proof.
  assert (route children_traversal parent_and_child 1 [1; 0]) as Hr.
  { eapply route_parent; [reflexivity..|]. eapply route_root; reflexivity. }
  split; [exact Hr|].
  destruct (handle_greedy_or_first only_root_handles children_traversal 0 0
              false 4 1 parent_and_child [1; 0] Hr) as (w' & Hrun & Ht & _);
    [simpl; lia|].
  exists w'. split; [exact Hrun|exact Ht].
Defined.

(** A greedy dispatch along the children axis from the root of
    [parent_and_child] asks the child. *)
Example handle_along_children :
  ∃ w',
    handleAxis only_root_handles children_traversal 3 0 (Some Child) 0 true 0
      parent_and_child
    = (w', Returned false)
    ∧ trace w' = [BaseHandled 1 0 true].
Proof. eexists. vm_compute. split; reflexivity. Qed.

(** On the root of [parent_and_child], which has no parent, the pending
    axis [Self] changes nothing. *)
Lemma self_axis_one_shot_witness :
  lookupContext parent_and_child 0
  = Some {| _state := Active; _parent := None; _children := [1];
            _observers := None; _axis := None; _extended := false |}
  ∧ self_as_no_axis only_root_handles children_traversal 2 0 0 true 0
      parent_and_child.
Proof.
  split; [reflexivity|].
  destruct (self_axis_one_shot only_root_handles children_traversal 1 0 0 true 0
              parent_and_child _ eq_refl) as [_ H].
  apply H; [reflexivity|left; reflexivity].
Defined.

(** An ended root refuses a child and an observer. *)
Lemma not_active_refuses_witness :
  lookupContext ended_root 0
  = Some {| _state := Ended; _parent := None; _children := [];
            _observers := None; _axis := None; _extended := false |}
  ∧ newChild 0 ended_root = (ended_root, Thrown alreadyEnded)
  ∧ ∀ observer, observe 0 observer ended_root = (ended_root, Thrown alreadyEnded).
Proof.
  split; [reflexivity|].
  apply (not_active_refuses 0 ended_root _ eq_refl). simpl. discriminate.
Defined.

(** The root of [observed_parent_and_child] unwinds: its only child ends
    and leaves. *)
Lemma unwind_ends_snapshot_witness :
  wf observed_parent_and_child
  ∧ lookupContext observed_parent_and_child 0
    = Some {| _state := Active; _parent := None; _children := [1];
              _observers := Some [7]; _axis := None; _extended := false |}
  ∧ ∃ w' t,
      unwind no_reaction 2 0 observed_parent_and_child = (w', Returned 0)
      ∧ children w' 0 = []
      ∧ trace w' = t
      ∧ state w' 1 = Some Ended
      ∧ assignments 1 t = [(Active, Ending); (Ending, Ended)].
Proof.
  split; [exact wf_observed_parent_and_child|]. split; [reflexivity|].
  destruct (unwind_ends_snapshot no_reaction 2 0 observed_parent_and_child _
              wf_observed_parent_and_child eq_refl) as (_ & H & _).
  assert (∃ w', unwind no_reaction 2 0 observed_parent_and_child
                = (w', Returned 0)) as [w' Hrun]
    by (eexists; vm_compute; reflexivity).
  destruct (H w' 0 Hrun) as (_ & Hc & t & Ht & Hk).
  destruct (Hk 1 (list_elem_of_here 1 [])) as (_ & Hs & Ha).
  exists w', t. split; [exact Hrun|]. split; [exact Hc|].
  split; [exact Ht|]. split; [exact Hs|exact Ha].
Defined.

(** The observer 9 subscribes to the root of [parent_and_child], the root
    ends, and the unsubscribe function throws. *)
Lemma unsubscribe_after_end_throws_witness :
  ∃ w1 u w2,
    observe 0 (Some 9) parent_and_child = (w1, Returned (Some u))
    ∧ end_base no_reaction 2 0 w1 = (w2, Returned tt)
    ∧ state w2 0 = Some Ended
    ∧ unsubscribe u w2
      = (w2, Thrown (TypeError "Cannot read properties of null (reading 'indexOf')")).
Proof.
  assert (∃ w1 u, observe 0 (Some 9) parent_and_child = (w1, Returned (Some u)))
    as (w1 & u & Hobs) by (eexists _, _; vm_compute; reflexivity).
  assert (∃ w2, end_base no_reaction 2 0 w1 = (w2, Returned tt)) as [w2 Hend].
  { injection Hobs as <- <-. eexists. vm_compute. reflexivity. }
  destruct (unsubscribe_after_end_throws no_reaction 2 0 9 parent_and_child
              w1 u w2 Hobs Hend) as (Hs & _ & Hthrow).
  exists w1, u, w2. split; [exact Hobs|]. split; [exact Hend|].
  split; [exact Hs|exact Hthrow].
Defined.

(** ** The rest of the interface on a small family *)

Lemma family_reached :
  family
  = run no_reaction only_root_handles children_traversal 0
      [OpNew None; OpNewChild 0; OpNewChild 0; OpNewChild 1;
       OpObserve 0 (Some 7); OpObserve 1 (Some 8)]
      empty_world.
Proof. reflexivity. Qed.

Lemma wf_family : wf family.
Proof. rewrite family_reached. apply wf_run, wf_empty. Qed.

Lemma grounded_family : grounded family.
Proof.
  rewrite family_reached. apply grounded_run; [apply grounded_empty|].
  simpl. tauto.
Qed.

(** The root of the grandchild 3 of [family] is 0, as is the root of its
    parent 1. *)
Lemma root_is_top_witness :
  grounded family
  ∧ is_Some (lookupContext family 3)
  ∧ root 4 3 family = (family, Returned 0)
  ∧ descends family 0 3
  ∧ root 2 1 family = (family, Returned 0)
  ∧ root 10 3 family = (family, Returned 0).
Proof.
  split; [exact grounded_family|]. split; [by eexists|].
  destruct (root_is_top family 3 grounded_family (ex_intro _ _ eq_refl))
    as (r & Hr & Hd & _ & _ & _ & Hp & Hsteps).
  assert (r = 0) as -> by (vm_compute in Hr; congruence).
  split; [exact Hr|]. split; [exact Hd|]. split; [exact (Hp 1 eq_refl)|].
  apply Hsteps. lia.
Defined.

(** A program that constructs a root, a child with [newChild] and a
    context under that child with [new Context(parent)]. *)
Lemma parents_come_first_witness :
  constructible_run no_reaction only_root_handles children_traversal 2
    [OpNew None; OpNewChild 0; OpNew (Some 1); OpEnd 1] empty_world
  ∧ ∀ w, w = run no_reaction only_root_handles children_traversal 2
               [OpNew None; OpNewChild 0; OpNew (Some 1); OpEnd 1] empty_world →
         parent w 2 = Some 1 ∧ ¬ descends w 2 1.
Proof.
  assert (constructible_run no_reaction only_root_handles children_traversal 2
            [OpNew None; OpNewChild 0; OpNew (Some 1); OpEnd 1] empty_world) as Hc.
  { simpl. repeat split; lia. }
  split; [exact Hc|]. intros w ->. split; [reflexivity|].
  destruct (parents_come_first no_reaction only_root_handles children_traversal 2
              _ Hc) as [H _].
  exact (proj2 (H 2 1 eq_refl)).
Defined.

(** The child 1 of [family] ends: the root and the sibling 2 stay as they
    were, and 2 is still a child of the root. *)
Lemma end_stays_in_its_subtree_witness :
  unsubscribing (only_unsubscribes leave_at_ending) leave_at_ending
  ∧ wf family ∧ grounded family
  ∧ state (Reentrant.end_ (only_unsubscribes leave_at_ending) only_root_handles
             children_traversal 3 1 family).1 0 = Some Active
  ∧ state (Reentrant.end_ (only_unsubscribes leave_at_ending) only_root_handles
             children_traversal 3 1 family).1 2 = Some Active
  ∧ 2 ∈ children (Reentrant.end_ (only_unsubscribes leave_at_ending) only_root_handles
                    children_traversal 3 1 family).1 0.
Proof.
  split; [apply unsubscribing_only_unsubscribes|].
  split; [exact wf_family|]. split; [exact grounded_family|].
  destruct (end_stays_in_its_subtree (only_unsubscribes leave_at_ending) leave_at_ending
              only_root_handles children_traversal 3 1 family
              (unsubscribing_only_unsubscribes _) wf_family grounded_family)
    as (_ & _ & H).
  destruct (H 0 eq_refl) as [H0 Hs].
  assert (2 ∈ children family 0) as H2 by (right; left).
  destruct (Hs 2 H2) as (Hin & Hst & _); [lia|].
  split; [exact H0|]. split; [exact Hst|exact Hin].
Defined.

(** The root of [family] ends: the grandchild 3 is ended with it. *)
Lemma end_ends_the_subtree_witness :
  unsubscribing (only_unsubscribes leave_at_ending) leave_at_ending
  ∧ wf family
  ∧ ∃ w', Reentrant.end_ (only_unsubscribes leave_at_ending) only_root_handles
            children_traversal 3 0 family = (w', Returned tt)
        ∧ state w' 0 = Some Ended
        ∧ children w' 0 = []
        ∧ state w' 3 = Some Ended
        ∧ children w' 1 = [].
Proof.
  split; [apply unsubscribing_only_unsubscribes|]. split; [exact wf_family|].
  assert (∃ w', Reentrant.end_ (only_unsubscribes leave_at_ending) only_root_handles
                  children_traversal 3 0 family = (w', Returned tt)) as [w' Hrun]
    by (eexists; vm_compute; reflexivity).
  destruct (end_ends_the_subtree (only_unsubscribes leave_at_ending) leave_at_ending
              only_root_handles children_traversal 3 0 family w'
              (unsubscribing_only_unsubscribes _) wf_family Hrun)
    as (_ & Hsub & Hc).
  destruct Hc as [Hc _]; [reflexivity|intros He; discriminate He|].
  destruct (Hsub 0 eq_refl Hc) as [Hemp Hbelow].
  assert (below family 0 1) as H1 by (apply below_child; left).
  assert (below family 0 3) as H3 by (apply (below_step _ _ 1); [exact H1|left]).
  exists w'. split; [exact Hrun|]. split; [exact Hc|]. split; [exact Hemp|].
  split; [exact (proj1 (Hbelow 3 H3))|exact (proj1 (proj2 (Hbelow 1 H1)))].
Defined.

(** The child 1 of [family] unwinds: it stays active, the grandchild 3
    is ended, the sibling 2 is not. *)
Lemma unwind_spares_the_context_witness :
  unsubscribing (only_unsubscribes no_reaction) no_reaction
  ∧ wf family ∧ grounded family
  ∧ (Reentrant.unwind (only_unsubscribes no_reaction) only_root_handles
       children_traversal 2 1 family).2 = Returned 1
  ∧ state (Reentrant.unwind (only_unsubscribes no_reaction) only_root_handles
             children_traversal 2 1 family).1 1 = Some Active
  ∧ state (Reentrant.unwind (only_unsubscribes no_reaction) only_root_handles
             children_traversal 2 1 family).1 2 = Some Active
  ∧ state (Reentrant.unwind (only_unsubscribes no_reaction) only_root_handles
             children_traversal 2 1 family).1 3 = Some Ended
  ∧ children (Reentrant.unwind (only_unsubscribes no_reaction) only_root_handles
                children_traversal 2 1 family).1 1 = [].
Proof.
  split; [apply unsubscribing_only_unsubscribes|].
  split; [exact wf_family|]. split; [exact grounded_family|].
  destruct (unwind_spares_the_context (only_unsubscribes no_reaction) no_reaction
              only_root_handles children_traversal 2 1 family
              (unsubscribing_only_unsubscribes _) wf_family grounded_family)
    as (Hc & Hout & Hret).
  assert ((Reentrant.unwind (only_unsubscribes no_reaction) only_root_handles
             children_traversal 2 1 family).2 = Returned 1) as Hrun by reflexivity.
  destruct (Hret 1 Hrun) as (_ & Hemp & Hbelow).
  split; [exact Hrun|]. split; [exact Hc|].
  split.
  { refine (proj1 (Hout 2 _)). intros Hd. inversion Hd as [|x p Hp Hd']; subst.
    assert (p = 0) as -> by (vm_compute in Hp; congruence).
    apply (descends_le _ _ _ grounded_family) in Hd'. lia. }
  split; [|exact Hemp].
  refine (proj1 (Hbelow 3 _)). apply below_child. left.
Defined.

(** [unwindToRootContext] on the grandchild 3 of [family] returns the
    root 0, which stays active, and ends the grandchild. *)
Lemma unwindToRootContext_returns_the_root_witness :
  unsubscribing (only_unsubscribes no_reaction) no_reaction
  ∧ wf family ∧ grounded family ∧ is_Some (lookupContext family 3)
  ∧ (Reentrant.unwindToRootContext (only_unsubscribes no_reaction) only_root_handles
       children_traversal 3 4 3 family).2 = Returned 0
  ∧ state (Reentrant.unwindToRootContext (only_unsubscribes no_reaction)
             only_root_handles children_traversal 3 4 3 family).1 0 = Some Active
  ∧ state (Reentrant.unwindToRootContext (only_unsubscribes no_reaction)
             only_root_handles children_traversal 3 4 3 family).1 3 = Some Ended.
Proof.
  split; [apply unsubscribing_only_unsubscribes|].
  split; [exact wf_family|]. split; [exact grounded_family|]. split; [by eexists|].
  destruct (unwindToRootContext_returns_the_root (only_unsubscribes no_reaction)
              no_reaction only_root_handles children_traversal 3 4 3 family
              (unsubscribing_only_unsubscribes _)
              wf_family grounded_family (ex_intro _ _ eq_refl))
    as (r & Hr & _ & _ & H);
    [lia|].
  assert (r = 0) as -> by (vm_compute in Hr; congruence).
  destruct H as [[Hs Hret] _].
  assert ((Reentrant.unwindToRootContext (only_unsubscribes no_reaction)
             only_root_handles children_traversal 3 4 3 family).2 = Returned 0) as Hrun
    by reflexivity.
  destruct (Hret 0 Hrun) as (_ & _ & _ & Hc).
  split; [exact Hrun|]. split; [exact Hs|].
  apply Hc. apply (below_step _ _ 1); [apply below_child; left|left].
Defined.

(** A dispatch along the children of the root of [parent_and_child]: the
    child is asked under the axis [Self], and no axis is left pending. *)
Lemma dispatch_consumes_the_axis_witness :
  (handleAxis only_root_handles children_traversal 2 0 (Some Child) 5 true 0
     parent_and_child).2 = Returned false
  ∧ axis (handleAxis only_root_handles children_traversal 2 0 (Some Child) 5 true 0
            parent_and_child).1 0 = None
  ∧ axis (handleAxis only_root_handles children_traversal 2 0 (Some Child) 5 true 0
            parent_and_child).1 1 = None.
Proof.
  split; [reflexivity|].
  destruct (dispatch_consumes_the_axis only_root_handles children_traversal 2 0 5
              true 0 parent_and_child) as (_ & H & _).
  destruct (H Child) as [Hc Hall].
  { intros E. vm_compute in E. discriminate E. }
  split; [exact Hc|]. destruct (Hall 1) as [E|E]; exact E.
Defined.

(** [handleAxis(Self, null)] on the child of [parent_and_child] leaves
    the axis pending, and the next dispatch on the child runs under it:
    the root, which would handle, is not asked. *)
Example pending_axis_after_absent_callback :
  (handle only_root_handles children_traversal 2 1 5 false 0 parent_and_child).2
  = Returned true
  ∧ axis (handleAxis_nullable only_root_handles children_traversal 2 1 (Some Self)
            None false 0 parent_and_child).1 1 = Some Self
  ∧ (handle only_root_handles children_traversal 2 1 5 false 0
       (handleAxis_nullable only_root_handles children_traversal 2 1 (Some Self)
          None false 0 parent_and_child).1).2
    = Returned false.
Proof. repeat split; reflexivity. Qed.

Lemma unheard_family : unheard 9 family.
Proof.
  intros d l. destruct d as [|[|[|[|d]]]]; intros E; vm_compute in E;
    try discriminate E; injection E as <-;
    (apply not_elem_of_cons; split; [lia|apply not_elem_of_nil]).
Qed.

(** The root of [family] ends, with observers that unsubscribe when they
    hear [contextEnding]: the observers 7 and 8 are notified, the
    observer 9 is not. *)
Lemma unregistered_observer_hears_nothing_witness :
  unsubscribing (only_unsubscribes leave_at_ending) leave_at_ending
  ∧ unheard 9 family
  ∧ silent 9 (trace (Reentrant.end_ (only_unsubscribes leave_at_ending)
                       only_root_handles children_traversal 3 0 family).1)
  ∧ unheard 9 (Reentrant.end_ (only_unsubscribes leave_at_ending)
                 only_root_handles children_traversal 3 0 family).1.
Proof.
  split; [apply unsubscribing_only_unsubscribes|].
  split; [exact unheard_family|].
  destruct (unregistered_observer_hears_nothing (only_unsubscribes leave_at_ending)
              leave_at_ending only_root_handles children_traversal 9 3 0 0 family
              (unsubscribing_only_unsubscribes _) unheard_family)
    as ((Hu & t & Ht & Hs) & _).
  split; [|exact Hu]. rewrite Ht. exact Hs.
Defined.

(** The observer 7 subscribes a second time to the root, behind the
    observer 8, and the function returned for the second subscription is
    called: the first subscription has gone. *)
Lemma observe_unsubscribe_round_trip_witness :
  observers (observe 0 (Some 8) observed_parent_and_child).1 0 = Some [7; 8]
  ∧ ∃ w1 u w2,
      observe 0 (Some 7) (observe 0 (Some 8) observed_parent_and_child).1
      = (w1, Returned (Some u))
      ∧ unsubscribe u w1 = (w2, Returned tt)
      ∧ observers w2 0 = Some [8; 7].
Proof.
  split; [reflexivity|].
  destruct (observe_unsubscribe_round_trip 0 7
              (observe 0 (Some 8) observed_parent_and_child).1 _ eq_refl eq_refl)
    as (w1 & u & w2 & H1 & H2 & H3 & _).
  exists w1, u, w2. split; [exact H1|]. split; [exact H2|exact H3].
Defined.

(** The root of [observed_parent_and_child] ends, and its observer
    unsubscribes from the child when it hears that the child has ended:
    the call throws, the root is left in [Ending], and a second [end]
    does nothing. *)
Lemma end_is_not_resumed_witness :
  unsubscribing (only_unsubscribes leave_ended_child) leave_ended_child
  ∧ wf observed_parent_and_child
  ∧ state observed_parent_and_child 0 = Some Active
  ∧ (Reentrant.end_ (only_unsubscribes leave_ended_child) only_root_handles
       children_traversal 3 0 observed_parent_and_child).2
    = Thrown (TypeError "Cannot read properties of null (reading 'indexOf')")
  ∧ state (Reentrant.end_ (only_unsubscribes leave_ended_child) only_root_handles
             children_traversal 3 0 observed_parent_and_child).1 0 = Some Ending
  ∧ Reentrant.end_ (only_unsubscribes leave_ended_child) only_root_handles
      children_traversal 3 0
      (Reentrant.end_ (only_unsubscribes leave_ended_child) only_root_handles
         children_traversal 3 0 observed_parent_and_child).1
    = ((Reentrant.end_ (only_unsubscribes leave_ended_child) only_root_handles
          children_traversal 3 0 observed_parent_and_child).1, Returned tt).
Proof.
  split; [apply unsubscribing_only_unsubscribes|].
  split; [exact wf_observed_parent_and_child|]. split; [reflexivity|].
  split; [reflexivity|]. split; [reflexivity|].
  destruct (end_is_not_resumed (only_unsubscribes leave_ended_child) leave_ended_child
              only_root_handles children_traversal 3 0 observed_parent_and_child
              (unsubscribing_only_unsubscribes _)
              wf_observed_parent_and_child eq_refl) as [K|(_ & _ & H)].
  - pose proof (tk_state _ _ K 0) as E. vm_compute in E. discriminate E.
  - exact (H 2).
Defined.

(** The child 1 of [family] gets a second child, numbered 4, which ends:
    the children of 1 are what they were. *)
Lemma newChild_end_round_trip_witness :
  unsubscribing (only_unsubscribes no_reaction) no_reaction
  ∧ wf family ∧ grounded family
  ∧ ∃ w1 w2,
      newChild 1 family = (w1, Returned 4)
      ∧ children w1 1 = [3; 4]
      ∧ Reentrant.end_ (only_unsubscribes no_reaction) only_root_handles
          children_traversal 2 4 w1 = (w2, Returned tt)
      ∧ state w2 4 = Some Ended
      ∧ children w2 1 = [3]
      ∧ state w2 1 = Some Active.
Proof.
  split; [apply unsubscribing_only_unsubscribes|].
  split; [exact wf_family|]. split; [exact grounded_family|].
  assert (∃ w1, newChild 1 family = (w1, Returned 4)) as [w1 Hnew]
    by (eexists; vm_compute; reflexivity).
  assert (children w1 1 = [3; 4]) as Hc1.
  { injection Hnew as <-. reflexivity. }
  assert (∃ w2, Reentrant.end_ (only_unsubscribes no_reaction) only_root_handles
                  children_traversal 2 4 w1 = (w2, Returned tt)) as [w2 Hend].
  { injection Hnew as <-. eexists. vm_compute. reflexivity. }
  destruct (newChild_end_round_trip (only_unsubscribes no_reaction) no_reaction
              only_root_handles children_traversal 2 1 family w1 4 w2
              (unsubscribing_only_unsubscribes _)
              wf_family grounded_family Hnew Hend) as (_ & Hs & _ & _ & _ & Hp & Hrest).
  exists w1, w2. split; [exact Hnew|]. split; [exact Hc1|]. split; [exact Hend|].
  split; [exact Hs|]. split; [exact Hp|].
  destruct (Hrest 1) as [H1 _]; [lia|]. exact H1.
Defined.

(** The child 1 of [family] ends and unwinds: the root, which is in no
    list of children, keeps its state. *)
Lemma end_reaches_the_lists_only_witness :
  unsubscribing (only_unsubscribes leave_at_ending) leave_at_ending
  ∧ wf family
  ∧ state (Reentrant.end_ (only_unsubscribes leave_at_ending) only_root_handles
             children_traversal 3 1 family).1 0 = Some Active
  ∧ state (Reentrant.unwind (only_unsubscribes leave_at_ending) only_root_handles
             children_traversal 3 1 family).1 0 = Some Active.
Proof.
  split; [apply unsubscribing_only_unsubscribes|]. split; [exact wf_family|].
  destruct (end_reaches_the_lists_only (only_unsubscribes leave_at_ending)
              leave_at_ending only_root_handles children_traversal 3 1 family
              (unsubscribing_only_unsubscribes _) wf_family)
    as [He Hu].
  assert (¬ below family 1 0) as Hnb.
  { intros (y & Hy)%below_in_a_list.
    destruct (wf_child _ wf_family _ _ Hy) as (_ & Hp & _). discriminate Hp. }
  split; [apply He; [lia|exact Hnb]|apply Hu; exact Hnb].
Defined.

(** A context is constructed with the root of [parent_and_child] as
    parent, and the root ends: its child from [newChild] is ended, the
    constructed context is not. *)
Lemma constructed_context_is_no_child_witness :
  unsubscribing (only_unsubscribes no_reaction) no_reaction
  ∧ wf parent_and_child
  ∧ ∃ w1,
      allocate (newContext (Some 0) false) parent_and_child = (w1, Returned 2)
      ∧ parent w1 2 = Some 0
      ∧ children w1 0 = [1]
      ∧ state (Reentrant.end_ (only_unsubscribes no_reaction) only_root_handles
                 children_traversal 3 0 w1).1 1 = Some Ended
      ∧ state (Reentrant.end_ (only_unsubscribes no_reaction) only_root_handles
                 children_traversal 3 0 w1).1 2 = Some Active.
Proof.
  split; [apply unsubscribing_only_unsubscribes|].
  split; [exact wf_parent_and_child|].
  destruct (constructed_context_is_no_child (only_unsubscribes no_reaction) no_reaction
              only_root_handles children_traversal 0 parent_and_child
              (unsubscribing_only_unsubscribes _)
              wf_parent_and_child) as (Hrun & Hp & _ & _ & Hch & _ & _ & Hend).
  eexists. split; [exact Hrun|]. split; [exact Hp|].
  split; [exact (Hch 0)|]. split; [reflexivity|].
  apply (Hend 3 0); simpl; lia.
Defined.

(** The root of [parent_and_child]: it has children, gets another, and
    has none after [unwind]. *)
Lemma hasChildren_follows_the_calls_witness :
  unsubscribing (only_unsubscribes no_reaction) no_reaction
  ∧ wf parent_and_child
  ∧ hasChildren parent_and_child 0 = true
  ∧ hasChildren (newChild 0 parent_and_child).1 0 = true
  ∧ hasChildren (Reentrant.unwind (only_unsubscribes no_reaction) only_root_handles
                   children_traversal 2 0 parent_and_child).1 0 = false.
Proof.
  split; [apply unsubscribing_only_unsubscribes|].
  split; [exact wf_parent_and_child|]. split; [reflexivity|].
  destruct (hasChildren_follows_the_calls (only_unsubscribes no_reaction) no_reaction
              only_root_handles children_traversal 2 0 parent_and_child
              (unsubscribing_only_unsubscribes _))
    as (_ & Hnew & Hunw & _).
  split.
  - apply (Hnew _ 2). reflexivity.
  - apply (Hunw wf_parent_and_child _ 0). reflexivity.
Defined.

(** A program with an observer that leaves when it hears [contextEnding]:
    after it the child 1 is ended and in no list. *)
Lemma programs_keep_the_tree_witness :
  unsubscribing (only_unsubscribes leave_at_ending) leave_at_ending
  ∧ ∀ w, w = Reentrant.run (only_unsubscribes leave_at_ending) only_root_handles
               children_traversal 3
               [OpNew None; OpNewChild 0; OpNewChild 0; OpObserve 0 (Some 7);
                OpEnd 1; OpNewChild 2]
               empty_world →
         children w 0 = [2] ∧ children w 2 = [3]
         ∧ (∀ p k, k ∈ children w p → state w k = Some Active ∧ parent w k = Some p).
Proof.
  split; [apply unsubscribing_only_unsubscribes|]. intros w ->.
  split; [reflexivity|]. split; [reflexivity|]. intros p k Hk.
  destruct (programs_keep_the_tree (only_unsubscribes leave_at_ending) leave_at_ending
              only_root_handles children_traversal 3
              [OpNew None; OpNewChild 0; OpNewChild 0; OpObserve 0 (Some 7);
               OpEnd 1; OpNewChild 2]
              (unsubscribing_only_unsubscribes _)) as (_ & H & _).
  destruct (H p k Hk) as (Hs & Hp & _). split; [exact Hs|exact Hp].
Defined.
